(** * Poly/ML basic IO for Windows (libpolyml/winbasicio.cpp)

    A shallow embedding of the asynchronous buffered input stream
    [WinInStream], the multi-descriptor poll [pollDescriptors], the directory
    enumeration [readDirectory] and the entry point [IO_dispatch_c], with the
    properties of the IO specification stated over them.

    The C++ objects are records, their member functions are functions that
    pass the object explicitly and return it with the result; an ML exception
    ([raise_syscall], [raise_exception_string]) is the [Raise] result.  Loops
    that wait for the operating system take a fuel argument: [None] means the
    loop was still running when the fuel ran out. *)

From Stdlib Require Import ZArith Lia Strings.Byte String Ascii DecimalString.
From stdpp Require Import base option list gmap.
From stdpp Require strings.

Local Open Scope Z_scope.

(** ** Results of runtime calls *)

(** ML exceptions: [raise_syscall] builds [SysErr (message, code)],
    [raise_exception_string (EXC_Fail, _)] builds [Fail message]; [Size] is
    raised by the conversion of an ML integer that does not fit, and
    [Interrupt] stands for what the scheduler's TestAnyEvents delivers. *)
Inductive Exn : Type :=
  | SysErr (msg : string) (code : Z)
  | Fail (msg : string)
  | Size
  | Interrupt.

Inductive Res (A : Type) : Type :=
  | Ok (a : A)
  | Raise (e : Exn).
Arguments Ok {A} a.
Arguments Raise {A} e.

(** ** The Win32 interface the stream is built on *)

Module Win32.

Definition ERROR_FILE_NOT_FOUND : Z := 2.
Definition ERROR_PATH_NOT_FOUND : Z := 3.
Definition ERROR_INVALID_HANDLE : Z := 6.
Definition ERROR_NOT_ENOUGH_MEMORY : Z := 8.
Definition ERROR_NO_MORE_FILES : Z := 18.
Definition ERROR_HANDLE_EOF : Z := 38.
Definition ERROR_NOT_SUPPORTED : Z := 50.
Definition ERROR_SEEK_ON_DEVICE : Z := 132.
Definition ERROR_IO_INCOMPLETE : Z := 996.
Definition ERROR_IO_PENDING : Z := 997.

Inductive FileType : Type :=
  | FILE_TYPE_UNKNOWN | FILE_TYPE_DISK | FILE_TYPE_CHAR | FILE_TYPE_PIPE.

Definition FileType_eqb (a b : FileType) : bool :=
  match a, b with
  | FILE_TYPE_UNKNOWN, FILE_TYPE_UNKNOWN | FILE_TYPE_DISK, FILE_TYPE_DISK
  | FILE_TYPE_CHAR, FILE_TYPE_CHAR | FILE_TYPE_PIPE, FILE_TYPE_PIPE => true
  | _, _ => false
  end.

(** Completion state of the one overlapped operation of a handle (the
    [Internal] and [InternalHigh] words of OVERLAPPED).  A zeroed structure
    reads as a successful transfer of no bytes. *)
Inductive IoStatus : Type :=
  | IoPending (ticks : nat) (offset : Z)
  | IoSuccess (bytesRead : nat)
  | IoFailed (err : Z).

Record OVERLAPPED : Type := mkOVERLAPPED {
  Internal : IoStatus;
  Offset : Z;
  OffsetHigh : Z
}.

(** The kernel object behind a file handle.  [kLatency] is the number of
    scheduler pauses an overlapped read stays in flight (0: it completes
    inside ReadFile); [kFault] makes ReadFile refuse the request. *)
Record KFile : Type := mkKFile {
  kType : FileType;
  kData : list byte;
  kLatency : nat;
  kFault : option Z
}.

(** What a read of [n] bytes at [off] transfers. *)
Definition chunk (f : KFile) (off : Z) (n : nat) : list byte :=
  take n (drop (Z.to_nat off) (kData f)).

(** The outcome of a read at [off] into a buffer of [n] bytes holding
    [buf]: the status, and the buffer afterwards. *)
Definition complete (f : KFile) (off : Z) (n : nat) (buf : list byte)
  : IoStatus * list byte :=
  if Z.of_nat (length (kData f)) <=? off
  then (IoFailed ERROR_HANDLE_EOF, buf)
  else let c := chunk f off n in
       (IoSuccess (length c), c ++ drop (length c) buf).

Definition ovPos (ov : OVERLAPPED) : Z :=
  OffsetHigh ov * 2 ^ 32 + Offset ov.

Definition setInternal (st : IoStatus) (ov : OVERLAPPED) : OVERLAPPED :=
  mkOVERLAPPED st (Offset ov) (OffsetHigh ov).

(** ReadFile (h, buffer, n, NULL, &overlap): the BOOL result, GetLastError,
    the OVERLAPPED and the buffer after the call. *)
Definition ReadFile (f : KFile) (buf : list byte) (n : nat) (ov : OVERLAPPED)
  : bool * Z * OVERLAPPED * list byte :=
  match kFault f with
  | Some e => (false, e, setInternal (IoFailed e) ov, buf)
  | None =>
    match kLatency f with
    | O =>
      match complete f (ovPos ov) n buf with
      | (IoSuccess k, buf') => (true, 0, setInternal (IoSuccess k) ov, buf')
      | (IoFailed e, buf') => (false, e, setInternal (IoFailed e) ov, buf')
      | (IoPending k o, buf') =>
          (false, ERROR_IO_PENDING, setInternal (IoPending k o) ov, buf')
      end
    | S k =>
      (false, ERROR_IO_PENDING, setInternal (IoPending k (ovPos ov)) ov, buf)
    end
  end.

(** GetOverlappedResult (h, &overlap, &bytesRead, FALSE): the BOOL result,
    GetLastError and bytesRead.  It only reads the OVERLAPPED. *)
Definition GetOverlappedResult (ov : OVERLAPPED) : bool * Z * nat :=
  match Internal ov with
  | IoPending _ _ => (false, ERROR_IO_INCOMPLETE, O)
  | IoSuccess k => (true, 0, k)
  | IoFailed e => (false, e, O)
  end.

(** WaitForSingleObject (hEvent, 0) == WAIT_TIMEOUT: the manual-reset
    event of the OVERLAPPED is unsignalled while the operation is in
    flight. *)
Definition eventTimesOut (ov : OVERLAPPED) : bool :=
  match Internal ov with
  | IoPending _ _ => true
  | _ => false
  end.

(** What the kernel does to an operation in flight while the task is
    paused once. *)
Definition progress (f : KFile) (n : nat) (ov : OVERLAPPED) (buf : list byte)
  : OVERLAPPED * list byte :=
  match Internal ov with
  | IoPending (S k) o => (setInternal (IoPending k o) ov, buf)
  | IoPending O o =>
      let '(st, buf') := complete f o n buf in (setInternal st ov, buf')
  | _ => (ov, buf)
  end.

End Win32.
Import Win32.

(** ** WinInStream: the asynchronous buffered input stream *)

Definition CR : byte := "013"%byte.

Record WinInStream : Type := mkWinInStream {
  hStream : KFile;
  buffer : list byte;
  buffSize : nat;
  currentInBuffer : nat;
  currentPtr : nat;
  endOfStream : bool;
  isText : bool;
  overlap : OVERLAPPED
}.

Definition set_buffer (b : list byte) (s : WinInStream) : WinInStream :=
  mkWinInStream (hStream s) b (buffSize s) (currentInBuffer s) (currentPtr s)
                (endOfStream s) (isText s) (overlap s).
Definition set_currentInBuffer (n : nat) (s : WinInStream) : WinInStream :=
  mkWinInStream (hStream s) (buffer s) (buffSize s) n (currentPtr s)
                (endOfStream s) (isText s) (overlap s).
Definition set_currentPtr (n : nat) (s : WinInStream) : WinInStream :=
  mkWinInStream (hStream s) (buffer s) (buffSize s) (currentInBuffer s) n
                (endOfStream s) (isText s) (overlap s).
Definition set_endOfStream (b : bool) (s : WinInStream) : WinInStream :=
  mkWinInStream (hStream s) (buffer s) (buffSize s) (currentInBuffer s)
                (currentPtr s) b (isText s) (overlap s).
Definition set_overlap (ov : OVERLAPPED) (s : WinInStream) : WinInStream :=
  mkWinInStream (hStream s) (buffer s) (buffSize s) (currentInBuffer s)
                (currentPtr s) (endOfStream s) (isText s) ov.

(** Modelled from the spec: [getOverlappedPos] and [setOverlappedPos] are
    declared in io_internal.h; the spec's [streamPosition] is the 64-bit
    offset the next raw read starts at, which OVERLAPPED keeps as two
    DWORDs. *)
Definition getOverlappedPos (s : WinInStream) : Z := ovPos (overlap s).

Definition setOverlappedPos (pos : Z) (s : WinInStream) : WinInStream :=
  set_overlap (mkOVERLAPPED (Internal (overlap s))
                            (pos mod 2 ^ 32) ((pos / 2 ^ 32) mod 2 ^ 32)) s.

(** buffer[i] *)
Definition byteAt (buf : list byte) (i : nat) : byte := nth i buf "000"%byte.

Definition isCR (b : byte) : bool := Byte.eqb b CR.

(** WinInStream::WinInStream *)
Definition newWinInStream (h : KFile) : WinInStream :=
  mkWinInStream h [] 4096 0 0 false false (mkOVERLAPPED (IoSuccess 0) 0 0).

(** WinInStream::beginReading *)
Definition beginReading (s : WinInStream) : Res unit * WinInStream :=
  let '(ok, err, ov, buf) :=
    ReadFile (hStream s) (buffer s) (buffSize s) (overlap s) in
  let s := set_buffer buf (set_overlap ov s) in
  if ok then (Ok tt, s)
  else if err =? ERROR_HANDLE_EOF then (Ok tt, set_endOfStream true s)
  else if err =? ERROR_IO_PENDING then (Ok tt, s)
  else (Raise (SysErr "ReadFile failed" err), s).

(** CreateFile (name, GENERIC_READ, ..., FILE_FLAG_OVERLAPPED, NULL) on a
    file system that maps names to files. *)
Definition CreateFile (fs : gmap string KFile) (name : string) : KFile + Z :=
  match fs !! name with
  | Some f => inl f
  | None => inr ERROR_FILE_NOT_FOUND
  end.

(** WinInStream::openEntry, on a fresh object (allocation of the buffer is
    taken to succeed). *)
Definition openEntry (fs : gmap string KFile) (name : string) (isT : bool)
  : Res WinInStream :=
  match CreateFile fs name with
  | inr e => Raise (SysErr "CreateFile failed" e)
  | inl h =>
    let s := newWinInStream h in
    let s := mkWinInStream (hStream s) (repeat "000"%byte (buffSize s))
               (buffSize s) (currentInBuffer s) (currentPtr s)
               (endOfStream s) isT (overlap s) in
    match beginReading s with
    | (Ok _, s) => Ok s
    | (Raise e, _) => Raise e
    end
  end.

(** The loop
    [while (isText && currentPtr < currentInBuffer && buffer[currentPtr] == '\r') currentPtr++;]
    which runs at most [currentInBuffer - currentPtr] times. *)
Fixpoint skipCR (n : nat) (txt : bool) (buf : list byte) (inBuf ptr : nat)
  : nat :=
  match n with
  | O => ptr
  | S n =>
    if txt && (ptr <? inBuf)%nat && isCR (byteAt buf ptr)
    then skipCR n txt buf inBuf (S ptr)
    else ptr
  end.

Definition skipCRs (s : WinInStream) : WinInStream :=
  set_currentPtr
    (skipCR (currentInBuffer s - currentPtr s) (isText s) (buffer s)
            (currentInBuffer s) (currentPtr s)) s.

(** The copy loop of readStream: [base] is what has been copied so far
    ([copied] is its length); it runs at most [currentInBuffer - currentPtr]
    times. *)
Fixpoint copyLoop (n : nat) (txt : bool) (buf : list byte) (inBuf len : nat)
  (ptr : nat) (base : list byte) : nat * list byte :=
  match n with
  | O => (ptr, base)
  | S n =>
    if (ptr <? inBuf)%nat && (length base <? len)%nat then
      let b := byteAt buf ptr in
      if negb txt || negb (isCR b)
      then copyLoop n txt buf inBuf len (S ptr) (base ++ [b])
      else copyLoop n txt buf inBuf len (S ptr) base
    else (ptr, base)
  end.

(** WinInStream::readStream: the bytes stored at [base] (their number is the
    function's result) and the stream afterwards. *)
Definition readStream (s : WinInStream) (len : nat)
  : Res (list byte) * WinInStream :=
  if endOfStream s then (Ok [], s)
  else
    let '(ptr, base) :=
      copyLoop (currentInBuffer s - currentPtr s) (isText s) (buffer s)
               (currentInBuffer s) len (currentPtr s) [] in
    let s := set_currentPtr ptr s in
    let s := skipCRs s in
    if (currentInBuffer s =? currentPtr s)%nat then
      let s := set_currentPtr 0 (set_currentInBuffer 0 s) in
      match beginReading s with
      | (Ok _, s) => (Ok base, s)
      | (Raise e, s) => (Raise e, s)
      end
    else (Ok base, s).

(** WinInStream::isAvailable.  [fuel] bounds the turns of its [while (1)]. *)
Fixpoint isAvailable (fuel : nat) (s : WinInStream)
  : option (Res bool * WinInStream) :=
  match fuel with
  | O => None
  | S fuel =>
    if (currentInBuffer s <? currentPtr s)%nat || endOfStream s
    then Some (Ok true, s)
    else
      match GetOverlappedResult (overlap s) with
      | (false, err, _) =>
        if err =? ERROR_HANDLE_EOF then Some (Ok true, set_endOfStream true s)
        else if err =? ERROR_IO_INCOMPLETE then Some (Ok false, s)
        else Some (Raise (SysErr "GetOverlappedResult failed" err), s)
      | (true, _, bytesRead) =>
        let s := setOverlappedPos
                   ((getOverlappedPos s + Z.of_nat bytesRead) mod 2 ^ 64) s in
        let s := set_currentInBuffer bytesRead s in
        let s := skipCRs s in
        if (currentPtr s <? currentInBuffer s)%nat then Some (Ok true, s)
        else
          match beginReading s with
          | (Ok _, s) => isAvailable fuel s
          | (Raise e, s) => Some (Raise e, s)
          end
      end
  end.

(** The scheduler's ThreadPauseForIO, seen from this stream: the kernel
    makes one step of progress on the operation in flight. *)
Definition ThreadPauseForIO (s : WinInStream) : WinInStream :=
  let '(ov, buf) :=
    progress (hStream s) (buffSize s) (overlap s) (buffer s) in
  set_buffer buf (set_overlap ov s).

(** WinInStream::waitUntilAvailable *)
Fixpoint waitUntilAvailable (fuel : nat) (s : WinInStream)
  : option (Res unit * WinInStream) :=
  match fuel with
  | O => None
  | S fuel' =>
    match isAvailable fuel s with
    | None => None
    | Some (Raise e, s) => Some (Raise e, s)
    | Some (Ok true, s) => Some (Ok tt, s)
    | Some (Ok false, s) => waitUntilAvailable fuel' (ThreadPauseForIO s)
    end
  end.

(** WinInStream::getPos *)
Definition getPos (s : WinInStream) : Res Z :=
  if negb (FileType_eqb (kType (hStream s)) FILE_TYPE_DISK)
  then Raise (SysErr "Stream is not a file" ERROR_SEEK_ON_DEVICE)
  else Ok ((getOverlappedPos s - Z.of_nat (currentInBuffer s)
            + Z.of_nat (currentPtr s)) mod 2 ^ 64).

(** The loop of setPos that waits until the pending operation is complete. *)
Fixpoint waitForEvent (fuel : nat) (s : WinInStream) : option WinInStream :=
  match fuel with
  | O => None
  | S fuel =>
    if eventTimesOut (overlap s)
    then waitForEvent fuel (ThreadPauseForIO s)
    else Some s
  end.

(** WinInStream::setPos *)
Definition setPos (fuel : nat) (s : WinInStream) (pos : Z)
  : option (Res unit * WinInStream) :=
  if negb (FileType_eqb (kType (hStream s)) FILE_TYPE_DISK)
  then Some (Raise (SysErr "Stream is not a file" ERROR_SEEK_ON_DEVICE), s)
  else
    match waitForEvent fuel s with
    | None => None
    | Some s =>
      let s := setOverlappedPos pos s in
      let s := set_currentPtr 0 (set_currentInBuffer 0 s) in
      let s := set_endOfStream false s in
      Some (beginReading s)
    end.

(** The common core of readArray and readString on a WinInStream:
    [strm->waitUntilAvailable (taskData)] followed by
    [strm->readStream (taskData, buff, length)]. *)
Definition readWhenAvailable (fuel : nat) (s : WinInStream) (len : nat)
  : option (Res (list byte) * WinInStream) :=
  match waitUntilAvailable fuel s with
  | None => None
  | Some (Raise e, s) => Some (Raise e, s)
  | Some (Ok _, s) => Some (readStream s len)
  end.

(** A sequence of such reads, one per requested length; the results in
    call order. *)
Fixpoint readAll (fuel : nat) (s : WinInStream) (lens : list nat)
  : option (Res (list (list byte)) * WinInStream) :=
  match lens with
  | [] => Some (Ok [], s)
  | len :: lens =>
    match readWhenAvailable fuel s len with
    | None => None
    | Some (Raise e, s) => Some (Raise e, s)
    | Some (Ok out, s) =>
      match readAll fuel s lens with
      | None => None
      | Some (Raise e, s) => Some (Raise e, s)
      | Some (Ok outs, s) => Some (Ok (out :: outs), s)
      end
    end
  end.

(** What a text stream keeps of a run of bytes: every carriage return is
    left out. *)
Definition textFilter (txt : bool) (l : list byte) : list byte :=
  if txt then filter (fun b => isCR b = false) l else l.

(** ** Streams on C runtime descriptors: WinStream and WinCopyInStream *)

(** The C runtime file behind [ioDesc]: the bytes a read can take now, what
    arrives during each later pause, and the errors its calls report. *)
Record CrtFile : Type := mkCrtFile {
  fdData : list byte;
  fdArrivals : list (list byte);
  fdReadError : option Z;
  fdCloseError : option Z;
  fdPeekFails : bool
}.

(** read (ioDesc, base, length): the result and the bytes stored. *)
Definition crt_read (f : CrtFile) (len : nat) : Z * list byte * CrtFile :=
  match fdReadError f with
  | Some _ => (-1, [], f)
  | None =>
    let got := take len (fdData f) in
    (Z.of_nat (length got), got,
     mkCrtFile (drop len (fdData f)) (fdArrivals f) (fdReadError f)
               (fdCloseError f) (fdPeekFails f))
  end.

(** WinStream::readStream *)
Definition WinStream_readStream (f : CrtFile) (len : nat)
  : Res (list byte) * CrtFile :=
  let '(haveRead, got, f') := crt_read f len in
  if haveRead <? 0
  then (Raise (SysErr "Error while reading" (default 0 (fdReadError f))), f')
  else (Ok got, f').

(** WinStream::closeEntry *)
Definition WinStream_closeEntry (f : CrtFile) : Res unit :=
  match fdCloseError f with
  | Some e => Raise (SysErr "Close failed" e)
  | None => Ok tt
  end.

(** WinCopyInStream::isAvailable: PeekNamedPipe succeeded and reported no
    byte, or not. *)
Definition WinCopyInStream_isAvailable (f : CrtFile) : bool :=
  if negb (fdPeekFails f) && (length (fdData f) =? 0)%nat then false else true.

(** One pause of the task, seen from the pipe: the copy thread adds what
    arrives next. *)
Definition pipePause (f : CrtFile) : CrtFile :=
  match fdArrivals f with
  | [] => f
  | a :: rest =>
    mkCrtFile (fdData f ++ a) rest (fdReadError f) (fdCloseError f)
              (fdPeekFails f)
  end.

(** WinCopyInStream::waitUntilAvailable *)
Fixpoint WinCopyInStream_waitUntilAvailable (fuel : nat) (f : CrtFile)
  : option CrtFile :=
  match fuel with
  | O => None
  | S fuel =>
    if WinCopyInStream_isAvailable f then Some f
    else WinCopyInStream_waitUntilAvailable fuel (pipePause f)
  end.

(** WinInStream::closeEntry: an operation in flight is cancelled, the
    handles are closed (WaitForSingleObject on the stream's own event is
    taken not to fail). *)
Definition WinInStream_closeEntry (s : WinInStream) : Res unit * WinInStream :=
  let ov := if eventTimesOut (overlap s)
            then setInternal (IoFailed 995) (overlap s)
            else overlap s in
  (Ok tt, set_overlap ov s).

(** The stream classes of this file. *)
Inductive WinStreamObj : Type :=
  | PlainStream (f : CrtFile)
  | CopyInStream (f : CrtFile)
  | InStream (s : WinInStream).

(** ** Directory streams *)

Definition FILE_ATTRIBUTE_DIRECTORY : Z := 16.

Record WIN32_FIND_DATA : Type := mkFindData {
  dwFileAttributes : Z;
  cFileName : string
}.

(** What one FindNextFile call on a search handle reports. *)
Inductive FindNext : Type :=
  | NextEntry (d : WIN32_FIND_DATA)
  | NextError (err : Z).

(** WinDirData.  The search handle [hFind] stands for what the following
    FindNextFile calls report, in order; after them every call fails with
    ERROR_NO_MORE_FILES. *)
Record WinDirData : Type := mkWinDirData {
  hFind : list FindNext;
  lastFind : WIN32_FIND_DATA;
  fFindSucceeded : bool
}.

(** FindNextFile (hFind, pFind): the BOOL result, GetLastError, the handle
    and [*pFind] afterwards. *)
Definition FindNextFile (h : list FindNext) (d : WIN32_FIND_DATA)
  : bool * Z * list FindNext * WIN32_FIND_DATA :=
  match h with
  | [] => (false, ERROR_NO_MORE_FILES, [], d)
  | NextEntry d' :: h' => (true, 0, h', d')
  | NextError e :: h' => (false, e, h', d)
  end.

(** The test of readDirectory for the current and parent arcs. *)
Definition isDotArc (d : WIN32_FIND_DATA) : bool :=
  negb (Z.land (dwFileAttributes d) FILE_ATTRIBUTE_DIRECTORY =? 0)
  && (String.eqb (cFileName d) "." || String.eqb (cFileName d) "..").

(** The loop [while (result == NULL)] of readDirectory.  Each turn that does
    not leave the loop takes one report off the search handle, so the loop
    is structural in it. *)
Fixpoint readDirectoryLoop (h : list FindNext) (last : WIN32_FIND_DATA)
  (succeeded : bool) : string * WinDirData :=
  let result := if negb (isDotArc last) then Some (cFileName last) else None in
  match h with
  | [] =>
    (* FindNextFile fails with ERROR_NO_MORE_FILES *)
    (default EmptyString result, mkWinDirData [] last false)
  | NextEntry d' :: h' =>
    match result with
    | Some r => (r, mkWinDirData h' d' succeeded)
    | None => readDirectoryLoop h' d' succeeded
    end
  | NextError e :: h' =>
    if e =? ERROR_NO_MORE_FILES
    then (default EmptyString result, mkWinDirData h' last false)
    else match result with
         | Some r => (r, mkWinDirData h' last succeeded)
         | None => readDirectoryLoop h' last succeeded
         end
  end.

(** readDirectory, on an open directory stream ([None] is the null pointer
    of a closed one). *)
Definition readDirectory (pData : option WinDirData)
  : Res string * option WinDirData :=
  match pData with
  | None => (Raise (SysErr "Stream is closed" ERROR_INVALID_HANDLE), None)
  | Some d =>
    if negb (fFindSucceeded d) then (Ok EmptyString, Some d)
    else let '(r, d') :=
           readDirectoryLoop (hFind d) (lastFind d) (fFindSucceeded d) in
         (Ok r, Some d')
  end.

(** ** The ML side: words, volatile cells and the C++ heap *)

(** ML values as this file sees them.  [Volatile c] is the address of a
    volatile word, an ML cell that holds a C++ pointer (made by
    MakeVolatileWord, read by [*(WinStream** )(strm->WordP())]). *)
#[warnings="-register-all"]
Inductive PolyWord : Type :=
  | Tagged (n : Z)
  | Volatile (cell : Z)
  | PolyString (s : string)
  | PolyBytes (l : list byte)
  | PolyTuple (l : list PolyWord).

(** Everything the entry point works on: the file system, the C++ objects
    by address (0 is the null pointer), the volatile words, the three
    standard streams and the scheduler turn the task is in.  Objects and
    cells are allocated at [nextAddr]. *)
Record World : Type := mkWorld {
  files : gmap string KFile;
  dirs : gmap string (WIN32_FIND_DATA * list FindNext);
  streams : gmap Z WinStreamObj;
  dirData : gmap Z WinDirData;
  volatiles : gmap Z Z;
  standardInput : Z;
  standardOutput : Z;
  standardError : Z;
  nextAddr : Z;
  turn : nat
}.

Definition set_streams (m : gmap Z WinStreamObj) (w : World) : World :=
  mkWorld (files w) (dirs w) m (dirData w) (volatiles w) (standardInput w)
          (standardOutput w) (standardError w) (nextAddr w) (turn w).
Definition set_dirData (m : gmap Z WinDirData) (w : World) : World :=
  mkWorld (files w) (dirs w) (streams w) m (volatiles w) (standardInput w)
          (standardOutput w) (standardError w) (nextAddr w) (turn w).
Definition set_volatiles (m : gmap Z Z) (w : World) : World :=
  mkWorld (files w) (dirs w) (streams w) (dirData w) m (standardInput w)
          (standardOutput w) (standardError w) (nextAddr w) (turn w).
Definition set_nextAddr (a : Z) (w : World) : World :=
  mkWorld (files w) (dirs w) (streams w) (dirData w) (volatiles w)
          (standardInput w) (standardOutput w) (standardError w) a (turn w).
Definition set_turn (t : nat) (w : World) : World :=
  mkWorld (files w) (dirs w) (streams w) (dirData w) (volatiles w)
          (standardInput w) (standardOutput w) (standardError w) (nextAddr w) t.

(** [*(T** )(word->WordP())]: the pointer a volatile word holds. *)
Definition pointerIn (w : World) (word : PolyWord) : Z :=
  match word with
  | Volatile c => default 0 (volatiles w !! c)
  | _ => 0
  end.

(** MakeVolatileWord: a new cell that holds [p]. *)
Definition MakeVolatileWord (w : World) (p : Z) : PolyWord * World :=
  let c := nextAddr w in
  (Volatile c, set_nextAddr (c + 1) (set_volatiles (<[c := p]> (volatiles w)) w)).

(** [new T]: the object is placed at a fresh address. *)
Definition newStream (w : World) (o : WinStreamObj) : Z * World :=
  let p := nextAddr w in
  (p, set_nextAddr (p + 1) (set_streams (<[p := o]> (streams w)) w)).

Definition STREAMCLOSED : Z := ERROR_INVALID_HANDLE.
Definition NOMEMORY : Z := ERROR_NOT_ENOUGH_MEMORY.

(** getPolyUnsigned on a tagged word; it raises Size on a negative one. *)
Definition getPolyUnsigned (word : PolyWord) : Res nat :=
  match word with
  | Tagged n => if n <? 0 then Raise Size else Ok (Z.to_nat n)
  | _ => Raise Size
  end.

(** The operations of the entry point, one per case label of its switch. *)
Inductive IoOp : Type :=
  | OpStdIn | OpStdOut | OpStdErr
  | OpOpenTextIn | OpOpenBinIn | OpOpenTextOut | OpOpenBinOut
  | OpClose | OpReadTextArray | OpReadBinArray | OpReadTextString
  | OpWriteText | OpWriteBin | OpOpenTextAppend | OpOpenBinAppend
  | OpBufferSize | OpCanInput | OpAvail | OpGetPos | OpSetPos | OpEndPos
  | OpFileKind | OpPollTest | OpPollForever | OpPollTimed | OpPollNow
  | OpReadBinString | OpWaitInput | OpCanOutput | OpWaitOutput | OpFileDescr
  | OpOpenDir | OpReadDir | OpCloseDir | OpRewindDir | OpGetCwd | OpMkDir
  | OpRmDir | OpIsDir | OpIsLink | OpReadLink | OpFullPath | OpModTime
  | OpFileSize | OpSetTime | OpDeleteFile | OpRename | OpAccess | OpTempName
  | OpFileId | OpStreamId.

(** The case labels of [switch (c)] in IO_dispatch_c. *)
Definition dispatchTable : list (Z * IoOp) :=
  [ (0, OpStdIn); (1, OpStdOut); (2, OpStdErr); (3, OpOpenTextIn);
    (4, OpOpenBinIn); (5, OpOpenTextOut); (6, OpOpenBinOut);
    (13, OpOpenTextAppend); (14, OpOpenBinAppend); (7, OpClose);
    (8, OpReadTextArray); (9, OpReadBinArray); (10, OpReadTextString);
    (11, OpWriteText); (12, OpWriteBin); (15, OpBufferSize);
    (16, OpCanInput); (17, OpAvail); (18, OpGetPos); (19, OpSetPos);
    (20, OpEndPos); (21, OpFileKind); (22, OpPollTest); (23, OpPollForever);
    (24, OpPollTimed); (25, OpPollNow); (26, OpReadBinString);
    (27, OpWaitInput); (28, OpCanOutput); (29, OpWaitOutput);
    (30, OpFileDescr); (50, OpOpenDir); (51, OpReadDir); (52, OpCloseDir);
    (53, OpRewindDir); (54, OpGetCwd); (55, OpMkDir); (56, OpRmDir);
    (57, OpIsDir); (58, OpIsLink); (59, OpReadLink); (60, OpFullPath);
    (61, OpModTime); (62, OpFileSize); (63, OpSetTime); (64, OpDeleteFile);
    (65, OpRename); (66, OpAccess); (67, OpTempName); (68, OpFileId);
    (69, OpStreamId) ].

Fixpoint caseOf (c : Z) (table : list (Z * IoOp)) : option IoOp :=
  match table with
  | [] => None
  | (k, op) :: table => if c =? k then Some op else caseOf c table
  end.

(** sprintf ("%d", c) of an unsigned: the 32 bits read as an int. *)
Definition sprintf_d (c : Z) : string :=
  let c := c mod 2 ^ 32 in
  let i := if c <? 2 ^ 31 then c else c - 2 ^ 32 in
  match i with
  | Z0 => "0"
  | Zpos p => NilEmpty.string_of_uint (Pos.to_uint p)
  | Zneg p => String "-" (NilEmpty.string_of_uint (Pos.to_uint p))
  end.

(** ** The entry point and the functions it calls *)

Section Runtime.

(** The collaborators this file calls but does not define: the scheduler's
    test for asynchronous events in a given turn, the [poll] method and the
    base class's [isAvailable] of io_internal.h, the system clock, and the
    one-shot operating system calls behind the remaining operations. *)
Variable TestAnyEvents : nat -> option Exn.
Variable poll : nat -> WinStreamObj -> Z -> Z.
Variable systemTime : nat -> Z.
Variable WinStream_isAvailable : CrtFile -> bool.
Variable external : IoOp -> World -> PolyWord -> PolyWord -> Res PolyWord * World.

(** WinStream::waitUntilAvailable *)
Fixpoint WinStream_waitUntilAvailable (fuel : nat) (f : CrtFile)
  : option CrtFile :=
  match fuel with
  | O => None
  | S fuel =>
    if WinStream_isAvailable f then Some f
    else WinStream_waitUntilAvailable fuel (pipePause f)
  end.

(** The virtual calls [strm->isAvailable], [strm->waitUntilAvailable],
    [strm->readStream], [strm->closeEntry], [strm->getPos] and
    [strm->setPos], by the class of the object. *)
Definition obj_isAvailable (fuel : nat) (o : WinStreamObj)
  : option (Res bool * WinStreamObj) :=
  match o with
  | PlainStream f => Some (Ok (WinStream_isAvailable f), o)
  | CopyInStream f => Some (Ok (WinCopyInStream_isAvailable f), o)
  | InStream s =>
    match isAvailable fuel s with
    | None => None
    | Some (r, s) => Some (r, InStream s)
    end
  end.

Definition obj_waitUntilAvailable (fuel : nat) (o : WinStreamObj)
  : option (Res unit * WinStreamObj) :=
  match o with
  | PlainStream f =>
    match WinStream_waitUntilAvailable fuel f with
    | None => None
    | Some f => Some (Ok tt, PlainStream f)
    end
  | CopyInStream f =>
    match WinCopyInStream_waitUntilAvailable fuel f with
    | None => None
    | Some f => Some (Ok tt, CopyInStream f)
    end
  | InStream s =>
    match waitUntilAvailable fuel s with
    | None => None
    | Some (r, s) => Some (r, InStream s)
    end
  end.

Definition obj_readStream (o : WinStreamObj) (len : nat)
  : Res (list byte) * WinStreamObj :=
  match o with
  | PlainStream f =>
    let '(r, f) := WinStream_readStream f len in (r, PlainStream f)
  | CopyInStream f =>
    let '(r, f) := WinStream_readStream f len in (r, CopyInStream f)
  | InStream s =>
    let '(r, s) := readStream s len in (r, InStream s)
  end.

Definition obj_closeEntry (o : WinStreamObj) : Res unit :=
  match o with
  | PlainStream f => WinStream_closeEntry f
  | CopyInStream f => WinStream_closeEntry f
  | InStream s => fst (WinInStream_closeEntry s)
  end.

(** WinStream::unimplemented *)
Definition unimplemented {A : Type} : Res A :=
  Raise (SysErr "Position error" ERROR_NOT_SUPPORTED).

(** Modelled from the spec: the base class's random access functions are
    declared in io_internal.h; position get and set are only valid on a
    seekable input stream and otherwise fail as unsupported. *)
Definition obj_getPos (o : WinStreamObj) : Res Z :=
  match o with
  | InStream s => getPos s
  | _ => unimplemented
  end.

Definition obj_setPos (fuel : nat) (o : WinStreamObj) (pos : Z)
  : option (Res unit * WinStreamObj) :=
  match o with
  | InStream s =>
    match setPos fuel s pos with
    | None => None
    | Some (r, s) => Some (r, InStream s)
    end
  | _ => Some (unimplemented, o)
  end.

Definition closed {A : Type} : Res A :=
  Raise (SysErr "Stream is closed" STREAMCLOSED).

Definition putStream (p : Z) (o : WinStreamObj) (w : World) : World :=
  set_streams (<[p := o]> (streams w)) w.

(** openWinFile, for OPENREAD (the other modes go through the C runtime
    and are part of [external]).  The object of a failed open is
    unreachable and left out of the heap. *)
Definition openWinFile (w : World) (filename : PolyWord) (isBinary : bool)
  : Res PolyWord * World :=
  match filename with
  | PolyString cFileName =>
    match openEntry (files w) cFileName (negb isBinary) with
    | Raise e => (Raise e, w)
    | Ok s =>
      let '(p, w) := newStream w (InStream s) in
      let '(v, w) := MakeVolatileWord w p in
      (Ok v, w)
    end
  | _ => (Raise (SysErr "Insufficient memory" NOMEMORY), w)
  end.

(** readString.  A word that points to no object is taken as the cleared
    word of a closed stream. *)
Definition readString (fuel : nat) (w : World) (stream args : PolyWord)
  : option (Res PolyWord * World) :=
  match getPolyUnsigned args with
  | Raise e => Some (Raise e, w)
  | Ok length =>
    let strm := match stream with
                | Tagged 0 => standardInput w
                | _ => pointerIn w stream
                end in
    match (if strm =? 0 then None else streams w !! strm) with
    | None => Some (closed, w)
    | Some o =>
      match TestAnyEvents (turn w) with
      | Some e => Some (Raise e, w)
      | None =>
        match obj_waitUntilAvailable fuel o with
        | None => None
        | Some (Raise e, o) => Some (Raise e, putStream strm o w)
        | Some (Ok _, o) =>
          let length := if 102400 <? Z.of_nat length
                        then Z.to_nat 102400 else length in
          match obj_readStream o length with
          | (Raise e, o) => Some (Raise e, putStream strm o w)
          | (Ok buff, o) => Some (Ok (PolyBytes buff), putStream strm o w)
          end
        end
      end
    end
  end.

(** The [for] loop of pollDescriptors over the descriptors [idx]; the
    result is [haveResult].  The vector [results] is not touched by it. *)
Fixpoint pollLoop (now : nat) (w : World) (strmVec : list PolyWord)
  (bitVec : list PolyWord) (idx : list nat) (haveResult : bool) : Res bool :=
  match idx with
  | [] => Ok haveResult
  | i :: idx =>
    let strm := pointerIn w (default (Tagged 0) (strmVec !! i)) in
    match (if strm =? 0 then None else streams w !! strm) with
    | None => closed
    | Some o =>
      let bits := match bitVec !! i with Some (Tagged b) => b | _ => 0 end in
      let res := poll now o bits in
      pollLoop now w strmVec bitVec idx
               (if res =? 0 then haveResult else true)
    end
  end.

Definition fieldsOf (v : PolyWord) : list PolyWord :=
  match v with PolyTuple l => l | _ => [] end.

(** pollDescriptors.  One unit of [fuel] is one pass from the label
    TryAgain; the second component is the scheduler turn at the end, so
    the difference to [now] is the number of ThreadPause calls.  [None]:
    the task was still polling when the fuel ran out. *)
Fixpoint pollDescriptors (fuel : nat) (now : nat) (w : World)
  (args : PolyWord) (blockType : Z) : option (Res PolyWord) * nat :=
  match fuel with
  | O => (None, now)
  | S fuel =>
    let strmVec := fieldsOf (default (PolyTuple []) (fieldsOf args !! 0%nat)) in
    let bitVec := fieldsOf (default (PolyTuple []) (fieldsOf args !! 1%nat)) in
    let nDesc := length strmVec in
    match TestAnyEvents now with
    | Some e => (Some (Raise e), now)
    | None =>
      let results := repeat 0 nDesc in
      match pollLoop now w strmVec bitVec (seq 0 nDesc) false with
      | Raise e => (Some (Raise e), now)
      | Ok haveResult =>
        let resVec := PolyTuple (map Tagged results) in
        if haveResult then (Some (Ok resVec), now)
        else if blockType =? 0 then
          let ftTime := match fieldsOf args !! 2%nat with
                        | Some (Tagged t) => t
                        | _ => 0
                        end in
          if ftTime <=? systemTime now then (Some (Ok resVec), now)
          else pollDescriptors fuel (S now) w args blockType
        else if blockType =? 1 then
          pollDescriptors fuel (S now) w args blockType
        else (Some (Ok resVec), now)
      end
    end
  end.

(** FindFirstFile on "dirname\*": the first entry and the search
    handle, or the error. *)
Definition FindFirstFile (w : World) (dirName : string)
  : (WIN32_FIND_DATA * list FindNext) + Z :=
  match dirs w !! dirName with
  | Some r => inl r
  | None => inr ERROR_PATH_NOT_FOUND
  end.

(** openDirectory (the WinDirData of a failed open is unreachable and
    left out of the heap). *)
Definition openDirectory (w : World) (dirname : PolyWord)
  : Res PolyWord * World :=
  match dirname with
  | PolyString name =>
    match FindFirstFile w name with
    | inr e => (Raise (SysErr "FindFirstFile failed" e), w)
    | inl (first, h) =>
      let p := nextAddr w in
      let w := set_nextAddr (p + 1)
                 (set_dirData (<[p := mkWinDirData h first true]> (dirData w)) w) in
      let '(v, w) := MakeVolatileWord w p in
      (Ok v, w)
    end
  | _ => (Raise (SysErr "Insufficient memory" NOMEMORY), w)
  end.

(** The directory object a volatile word points to. *)
Definition dirOf (w : World) (stream : PolyWord) : option WinDirData :=
  let pData := pointerIn w stream in
  if pData =? 0 then None else dirData w !! pData.

(** readDirectory, on the heap. *)
Definition readDirectoryW (w : World) (stream : PolyWord)
  : Res PolyWord * World :=
  match readDirectory (dirOf w stream) with
  | (Ok name, Some d) =>
    (Ok (PolyString name),
     set_dirData (<[pointerIn w stream := d]> (dirData w)) w)
  | (Ok name, None) => (Ok (PolyString name), w)
  | (Raise e, _) => (Raise e, w)
  end.

Definition clearCell (strm : PolyWord) (w : World) : World :=
  match strm with
  | Volatile c => set_volatiles (<[c := 0]> (volatiles w)) w
  | _ => w
  end.

(** closeDirectory *)
Definition closeDirectory (w : World) (stream : PolyWord)
  : Res PolyWord * World :=
  let pData := pointerIn w stream in
  if pData =? 0 then (Ok (Tagged 0), w)
  else (Ok (Tagged 0),
        clearCell stream (set_dirData (delete pData (dirData w)) w)).

(** rewindDirectory *)
Definition rewindDirectory (w : World) (stream dirname : PolyWord)
  : Res PolyWord * World :=
  let pData := pointerIn w stream in
  match dirOf w stream, dirname with
  | None, _ => (closed, w)
  | Some d, PolyString name =>
    match FindFirstFile w name with
    | inr e => (Raise (SysErr "FindFirstFile failed" e), w)
    | inl (first, h) =>
      (Ok (Tagged 0),
       set_dirData (<[pData := mkWinDirData h first true]> (dirData w)) w)
    end
  | Some d, _ => (Raise (SysErr "Insufficient memory" NOMEMORY), w)
  end.

(** The stream object a volatile word points to; [None] when the word
    holds the null pointer of a closed stream. *)
Definition streamOf (w : World) (strm : PolyWord) : option WinStreamObj :=
  let stream := pointerIn w strm in
  if stream =? 0 then None else streams w !! stream.

(** Case 7 of IO_dispatch_c: close file. *)
Definition closeFile (w : World) (strm : PolyWord) : Res PolyWord * World :=
  match strm with
  | Tagged _ => (Ok (Tagged 0), w)
  | _ =>
    let stream := pointerIn w strm in
    if negb (stream =? 0) && negb (stream =? standardInput w)
       && negb (stream =? standardOutput w)
       && negb (stream =? standardError w)
    then
      match from_option obj_closeEntry (Ok tt) (streams w !! stream) with
      | Raise e => (Raise e, w)
      | Ok _ =>
        (Ok (Tagged 0),
         clearCell strm (set_streams (delete stream (streams w)) w))
      end
    else (Ok (Tagged 0), w)
  end.

(** IO_dispatch_c; [c] is the operation code as get_C_unsigned returns
    it. *)
Definition IO_dispatch_c (fuel : nat) (w : World) (args strm : PolyWord)
  (c : Z) : option (Res PolyWord * World) :=
  match caseOf c dispatchTable with
  | None =>
    Some (Raise (Fail ("Unknown io function: " ++ sprintf_d c)), w)
  | Some op =>
    match op with
    | OpStdIn =>
      let '(v, w) := MakeVolatileWord w (standardInput w) in Some (Ok v, w)
    | OpStdOut =>
      let '(v, w) := MakeVolatileWord w (standardOutput w) in Some (Ok v, w)
    | OpStdErr =>
      let '(v, w) := MakeVolatileWord w (standardError w) in Some (Ok v, w)
    | OpOpenTextIn => Some (openWinFile w args false)
    | OpOpenBinIn => Some (openWinFile w args true)
    | OpClose => Some (closeFile w strm)
    | OpReadTextString | OpReadBinString => readString fuel w strm args
    | OpBufferSize => Some (Ok (Tagged 4096), w)
    | OpCanInput =>
      match streamOf w strm with
      | None => Some (closed, w)
      | Some o =>
        match obj_isAvailable fuel o with
        | None => None
        | Some (Raise e, o) => Some (Raise e, putStream (pointerIn w strm) o w)
        | Some (Ok b, o) =>
          Some (Ok (Tagged (if b then 1 else 0)),
                putStream (pointerIn w strm) o w)
        end
      end
    | OpGetPos =>
      match streamOf w strm with
      | None => Some (closed, w)
      | Some o =>
        match obj_getPos o with
        | Raise e => Some (Raise e, w)
        | Ok pos => Some (Ok (Tagged pos), w)
        end
      end
    | OpSetPos =>
      match streamOf w strm with
      | None => Some (closed, w)
      | Some o =>
        match getPolyUnsigned args with
        | Raise e => Some (Raise e, w)
        | Ok position =>
          match obj_setPos fuel o (Z.of_nat position) with
          | None => None
          | Some (Raise e, o) =>
            Some (Raise e, putStream (pointerIn w strm) o w)
          | Some (Ok _, o) =>
            Some (Ok (Tagged 0), putStream (pointerIn w strm) o w)
          end
        end
      end
    | OpPollForever =>
      let '(r, now) := pollDescriptors fuel (turn w) w args 1 in
      option_map (fun r => (r, set_turn now w)) r
    | OpPollTimed =>
      let '(r, now) := pollDescriptors fuel (turn w) w args 0 in
      option_map (fun r => (r, set_turn now w)) r
    | OpPollNow =>
      let '(r, now) := pollDescriptors fuel (turn w) w args 2 in
      option_map (fun r => (r, set_turn now w)) r
    | OpWaitInput =>
      match streamOf w strm with
      | None => Some (closed, w)
      | Some o =>
        match TestAnyEvents (turn w) with
        | Some e => Some (Raise e, w)
        | None =>
          match obj_waitUntilAvailable fuel o with
          | None => None
          | Some (Raise e, o) =>
            Some (Raise e, putStream (pointerIn w strm) o w)
          | Some (Ok _, o) =>
            Some (Ok (Tagged 0), putStream (pointerIn w strm) o w)
          end
        end
      end
    | OpOpenDir => Some (openDirectory w args)
    | OpReadDir => Some (readDirectoryW w strm)
    | OpCloseDir => Some (closeDirectory w strm)
    | OpRewindDir => Some (rewindDirectory w strm args)
    | OpReadLink =>
      Some (Raise (SysErr "Symbolic links are not implemented" 0), w)
    | OpFileId => Some (Ok (Tagged (-1)), w)
    | _ => Some (external op w args strm)
    end
  end.

End Runtime.

(** ** Callers of readDirectory *)

(** [n] readDirectory calls one after the other on the same directory
    stream: the results in call order and the stream afterwards. *)
Fixpoint readDirectoryN (n : nat) (pData : option WinDirData)
  : list (Res string) * option WinDirData :=
  match n with
  | O => ([], pData)
  | S n =>
    let '(r, pData) := readDirectory pData in
    let '(rs, pData) := readDirectoryN n pData in
    (r :: rs, pData)
  end.

(** The same through the word of the stream, on the heap. *)
Fixpoint readDirectoryWN (n : nat) (w : World) (stream : PolyWord)
  : list (Res PolyWord) * World :=
  match n with
  | O => ([], w)
  | S n =>
    let '(r, w) := readDirectoryW w stream in
    let '(rs, w) := readDirectoryWN n w stream in
    (r :: rs, w)
  end.

(** ** readArray *)

(** The ML byte array [base] after [got] has been stored from [offset] on.
    readArray does not check the bounds of the array: this is what it does
    when [offset + length got] is within the array, as its caller
    guarantees. *)
Definition storeAt (base : list byte) (offset : nat) (got : list byte)
  : list byte :=
  take offset base ++ got ++ drop (offset + length got) base.

Section ReadArray.
Variable TestAnyEvents : nat -> option Exn.
Variable WinStream_isAvailable : CrtFile -> bool.

(** readArray; [args] is the triple of the array, the offset and the
    length.  The result is the number of bytes read together with the
    array afterwards.  When readStream raises, what it had stored before is
    not part of the result. *)
Definition readArray (fuel : nat) (w : World) (stream args : PolyWord)
  : option (Res (PolyWord * list byte) * World) :=
  let strm := pointerIn w stream in
  match streamOf w stream with
  | None => Some (closed, w)
  | Some o =>
    match TestAnyEvents (turn w) with
    | Some e => Some (Raise e, w)
    | None =>
      match obj_waitUntilAvailable WinStream_isAvailable fuel o with
      | None => None
      | Some (Raise e, o) => Some (Raise e, putStream strm o w)
      | Some (Ok _, o) =>
        let base := match fieldsOf args !! 0%nat with
                    | Some (PolyBytes l) => l
                    | _ => []
                    end in
        match getPolyUnsigned (default (Tagged 0) (fieldsOf args !! 1%nat)) with
        | Raise e => Some (Raise e, putStream strm o w)
        | Ok offset =>
          match getPolyUnsigned (default (Tagged 0) (fieldsOf args !! 2%nat)) with
          | Raise e => Some (Raise e, putStream strm o w)
          | Ok length =>
            match obj_readStream o length with
            | (Raise e, o) => Some (Raise e, putStream strm o w)
            | (Ok got, o) =>
              Some (Ok (Tagged (Z.of_nat (List.length got)),
                        storeAt base offset got),
                    putStream strm o w)
            end
          end
        end
      end
    end
  end.

End ReadArray.

(** ** Opening through the C runtime: WinStream::openEntry *)

Inductive openMode : Type := OPENREAD | OPENWRITE.

(** The open flags of the C runtime (fcntl.h). *)
Definition O_RDONLY : Z := 0.
Definition O_WRONLY : Z := 1.
Definition O_APPEND : Z := 8.
Definition O_CREAT : Z := 256.
Definition O_TRUNC : Z := 512.
Definition O_BINARY : Z := 32768.

(** The value of [oMode] that WinStream::openEntry hands to _topen. *)
Definition oModeOf (mode : openMode) (isAppend isBinary : bool) : Z :=
  let oMode :=
    match mode with
    | OPENREAD => O_RDONLY
    | OPENWRITE =>
      let oMode := Z.lor O_WRONLY O_CREAT in
      if isAppend then Z.lor oMode O_APPEND else Z.lor oMode O_TRUNC
    end in
  if isBinary then Z.lor oMode O_BINARY else oMode.

(** WinStream::openEntry; [topen] is _topen, which returns the descriptor
    or, below zero, has set errno to its second component.  The result is
    [ioDesc]. *)
Definition WinStream_openEntry (topen : string -> Z -> Z * Z) (name : string)
  (mode : openMode) (isAppend isBinary : bool) : Res Z :=
  let '(stream, errno) := topen name (oModeOf mode isAppend isBinary) in
  if stream <? 0 then Raise (SysErr "Cannot open" errno) else Ok stream.

(** ** File names: modTime, fileSize and fileAccess *)

(** The loop of modTime and fileSize over the C string at [cFileName],
    from its first character to its terminating NUL, which raises at a star
    or a question mark: whether it raises.  The C string holds the
    characters of the ML string followed by a NUL, so the loop ends at the
    first NUL of the ML string or at its end. *)
Fixpoint hasWildcard (cFileName : string) : bool :=
  match cFileName with
  | EmptyString => false
  | String c rest =>
    if Ascii.eqb c "000" then false
    else if Ascii.eqb c "*" || Ascii.eqb c "?" then true
    else hasWildcard rest
  end.

(** The characters of the C string at [cFileName]: those before the first
    NUL. *)
Fixpoint cChars (cFileName : string) : list ascii :=
  match cFileName with
  | EmptyString => []
  | String c rest => if Ascii.eqb c "000" then [] else c :: cChars rest
  end.

(** What modTime and fileSize use of the WIN32_FIND_DATA that FindFirstFile
    fills in for a file name. *)
Record FindInfo : Type := mkFindInfo {
  ftLastWriteTime : Z;
  nFileSizeHigh : Z;
  nFileSizeLow : Z
}.

Section FileNames.
(** FindFirstFile (cFileName, &wFind) on the C string at [cFileName]: the
    data found, or GetLastError. *)
Variable FindFirstFileName : string -> FindInfo + Z.
(** GetFileAttributes (fileName); 0xffffffff when it fails. *)
Variable GetFileAttributes : string -> Z.

(** modTime: the FILETIME it hands to Make_arb_from_Filetime. *)
Definition modTime (filename : PolyWord) : Res Z :=
  match filename with
  | PolyString cFileName =>
    if hasWildcard cFileName
    then Raise (SysErr "Invalid filename" STREAMCLOSED)
    else match FindFirstFileName cFileName with
         | inr e => Raise (SysErr "FindFirstFile failed" e)
         | inl wFind => Ok (ftLastWriteTime wFind)
         end
  | _ => Raise (SysErr "Insufficient memory" NOMEMORY)
  end.

(** fileSize: the two words it hands to Make_arb_from_32bit_pair, the high
    one first. *)
Definition fileSize (filename : PolyWord) : Res (Z * Z) :=
  match filename with
  | PolyString cFileName =>
    if hasWildcard cFileName
    then Raise (SysErr "Invalid filename" STREAMCLOSED)
    else match FindFirstFileName cFileName with
         | inr e => Raise (SysErr "FindFirstFile failed" e)
         | inl wFind => Ok (nFileSizeHigh wFind, nFileSizeLow wFind)
         end
  | _ => Raise (SysErr "Insufficient memory" NOMEMORY)
  end.

Definition FILE_ATTRIBUTE_READONLY : Z := 1.
Definition FILE_ACCESS_READ : Z := 1.
Definition FILE_ACCESS_WRITE : Z := 2.
Definition FILE_ACCESS_EXECUTE : Z := 4.

(** fileAccess; [rts] is the value of get_C_int on the rights. *)
Definition fileAccess (name : PolyWord) (rts : Z) : Res Z :=
  match name with
  | PolyString fileName =>
    let dwRes := GetFileAttributes fileName in
    if dwRes =? 4294967295 then Ok 0
    else if negb (Z.land dwRes FILE_ATTRIBUTE_READONLY =? 0)
            && negb (Z.land rts FILE_ACCESS_WRITE =? 0)
         then Ok 0
         else Ok 1
  | _ => Raise (SysErr "Insufficient memory" NOMEMORY)
  end.

End FileNames.

(** ** Concrete files, pipes and worlds used by the examples *)

(** A scheduler that delivers no asynchronous event. *)
Definition noEvents : nat -> option Exn := fun _ => None.

(** No one-shot operating system call is available. *)
Definition noExternal
  : IoOp -> World -> PolyWord -> PolyWord -> Res PolyWord * World :=
  fun _ w _ _ => (Raise (SysErr "not available" 0), w).

Definition clockZero : nat -> Z := fun _ => 0.

Definition alwaysAvailable : CrtFile -> bool := fun _ => true.

Definition pipeWith (l : list byte) : CrtFile := mkCrtFile l [] None None false.

(** The READ bit of a poll request. *)
Definition POLL_BIT_IN : Z := 1.

(** A [poll] method: a pipe answers the READ bit when it is asked for it and
    has bytes waiting; nothing else is ever ready. *)
Definition pollPipe : nat -> WinStreamObj -> Z -> Z :=
  fun _ o bits =>
    match o with
    | CopyInStream f =>
      if WinCopyInStream_isAvailable f then Z.land bits POLL_BIT_IN else 0
    | _ => 0
    end.

Definition diskFile (l : list byte) (latency : nat) : KFile :=
  mkKFile FILE_TYPE_DISK l latency None.

(** Three pipes at 100, 101 and 102, of which only the second has input;
    the standard streams at 10, 11 and 12, reached through the cells 4, 5
    and 6. *)
Definition world3 : World :=
  mkWorld ∅ ∅
    {[ 10 := CopyInStream (pipeWith []);
       11 := PlainStream (pipeWith []);
       12 := PlainStream (pipeWith []);
       100 := CopyInStream (pipeWith []);
       101 := CopyInStream (pipeWith ["a"%byte]);
       102 := CopyInStream (pipeWith []) ]}
    ∅
    {[ 1 := 100; 2 := 101; 3 := 102; 4 := 10; 5 := 11; 6 := 12 ]}
    10 11 12 200 0.

Definition pollArgs3 : PolyWord :=
  PolyTuple [ PolyTuple [Volatile 1; Volatile 2; Volatile 3];
              PolyTuple [Tagged POLL_BIT_IN; Tagged POLL_BIT_IN; Tagged POLL_BIT_IN];
              Tagged 0 ].

(** The poll request with no descriptor. *)
Definition pollArgs0 : PolyWord :=
  PolyTuple [PolyTuple []; PolyTuple []; Tagged 0].

Definition bytes_abc : list byte := ["a"%byte; "b"%byte; "c"%byte].

(** A text file of four bytes, "a", CR, LF, "b". *)
Definition bytes_crlf : list byte := ["a"%byte; CR; "010"%byte; "b"%byte].

(** The stream on a three byte binary file after the first isAvailable has
    observed the completed read: three unread bytes, streamPosition 3. *)
Definition loaded_abc : WinInStream :=
  mkWinInStream (diskFile bytes_abc 0) (bytes_abc ++ repeat "000"%byte 4093)
                4096 3 0 false false (mkOVERLAPPED (IoSuccess 3) 3 0).

(** A directory with the current and parent arcs and the files a and b. *)
Definition entryDot : WIN32_FIND_DATA := mkFindData 16 ".".
Definition entryDotDot : WIN32_FIND_DATA := mkFindData 16 "..".
Definition entryA : WIN32_FIND_DATA := mkFindData 32 "a".
Definition entryB : WIN32_FIND_DATA := mkFindData 32 "b".
Definition dirAB : WinDirData :=
  mkWinDirData [NextEntry entryDotDot; NextEntry entryA; NextEntry entryB]
               entryDot true.

(** 4097 bytes, one more than a buffer load. *)
Definition bytes_4097 : list byte := repeat "x"%byte 4097.

(** Two buffer loads and one byte: 4096 times "a", 4096 times "b", "c". *)
Definition bytes_8193 : list byte :=
  repeat "a"%byte 4096 ++ repeat "b"%byte 4096 ++ ["c"%byte].

(** A file system with the files above. *)
Definition someFiles : gmap string KFile :=
  {[ "abc"%string := diskFile bytes_abc 0;
     "crlf"%string := diskFile bytes_crlf 1;
     "big"%string := diskFile bytes_4097 0;
     "bigger"%string := diskFile bytes_8193 0 ]}.

(** The stream on the three byte file at the end of the stream. *)
Definition ended_abc : WinInStream := set_endOfStream true loaded_abc.

(** A stream on the three byte file whose first read is in flight for two
    more pauses, and the same stream once the read has arrived and
    isAvailable has taken note of it. *)
Definition pending_abc : WinInStream :=
  mkWinInStream (diskFile bytes_abc 2) (repeat "000"%byte 4096)
                4096 0 0 false false (mkOVERLAPPED (IoPending 2 0) 0 0).
Definition arrived_abc : WinInStream :=
  mkWinInStream (diskFile bytes_abc 2) (bytes_abc ++ repeat "000"%byte 4093)
                4096 3 0 false false (mkOVERLAPPED (IoSuccess 3) 3 0).



(** A scheduler with an interrupt pending in every turn. *)
Definition interrupted : nat -> option Exn := fun _ => Some Interrupt.

(** An empty pipe into which nothing arrives during the first pause and the
    bytes "abc" during the second, and the world of the three pipes with
    this pipe as the first. *)
Definition pipeArriving : CrtFile :=
  mkCrtFile [] [[]; bytes_abc] None None false.
Definition world3_arriving : World :=
  putStream 100 (CopyInStream pipeArriving) world3.

(** A world whose file system has the directory "d" with the current and
    parent arcs and the files a and b, and the same world with a directory
    stream on it at 200, reached through the cell 201. *)
Definition worldDir : World :=
  mkWorld ∅
    {[ "d"%string :=
         (entryDot, [NextEntry entryDotDot; NextEntry entryA; NextEntry entryB]) ]}
    ∅ ∅ ∅ 10 11 12 200 0.
Definition worldDirOpen : World :=
  mkWorld ∅
    {[ "d"%string :=
         (entryDot, [NextEntry entryDotDot; NextEntry entryA; NextEntry entryB]) ]}
    ∅ {[ 200 := mkWinDirData [] entryB false ]} {[ 201 := 200 ]}
    10 11 12 202 0.

(** A pipe whose other end is closed: PeekNamedPipe fails and read fails
    with the error 109; the world of the three pipes with this pipe as the
    first. *)
Definition pipeBroken : CrtFile := mkCrtFile [] [] (Some 109) None true.
Definition world3_broken : World :=
  putStream 100 (CopyInStream pipeBroken) world3.

(** A buffered input stream on a pipe, and the world of the three pipes
    with this stream as the first. *)
Definition streamOnPipe : WinInStream :=
  mkWinInStream (mkKFile FILE_TYPE_PIPE bytes_abc 0 None)
                (bytes_abc ++ repeat "000"%byte 4093)
                4096 3 0 false false (mkOVERLAPPED (IoSuccess 3) 0 0).
Definition world3_onPipe : World :=
  putStream 100 (InStream streamOnPipe) world3.

(** A world with the files of [someFiles] and no open stream. *)
Definition worldFiles : World :=
  mkWorld someFiles ∅ ∅ ∅ ∅ 10 11 12 200 0.

(** The file name "a", NUL, "*": as a C string it is "a". *)
Definition name_a_nul_star : string :=
  String "a" (String "000" (String "*" EmptyString)).

(** ** States of the buffered input stream, as the proofs name them *)

Definition fileLen (s : WinInStream) : Z :=
  Z.of_nat (length (kData (hStream s))).

(** The first test of isAvailable. *)
Definition readyNow (s : WinInStream) : bool :=
  (currentInBuffer s <? currentPtr s)%nat || endOfStream s.

(** The stream after isAvailable has taken note of a completed read of [n]
    bytes. *)
Definition noteCompleted (n : nat) (s : WinInStream) : WinInStream :=
  skipCRs (set_currentInBuffer n
             (setOverlappedPos
                ((getOverlappedPos s + Z.of_nat n) mod 2 ^ 64) s)).

(** A state isAvailable has returned from: a further call, with nothing
    completed in between, returns within one turn of its loop and leaves
    the buffer state as it is. *)
Definition settled (s1 : WinInStream) : Prop :=
  exists r2 s2,
    isAvailable 1 s1 = Some (r2, s2)
    /\ currentInBuffer s2 = currentInBuffer s1
    /\ currentPtr s2 = currentPtr s1
    /\ endOfStream s2 = endOfStream s1.

(** The stream once the read in flight at [o] has completed. *)
Definition resolve (s : WinInStream) (o : Z) : WinInStream :=
  let '(st, buf) := complete (hStream s) o (buffSize s) (buffer s) in
  set_buffer buf (set_overlap (setInternal st (overlap s)) s).

(** A stream on a disk that answers: the file refuses no read, the buffer
    is not empty, file size and stream position are 64-bit values. *)
Definition sound (s : WinInStream) : Prop :=
  kFault (hStream s) = None /\ (0 < buffSize s)%nat
  /\ fileLen s < 2 ^ 64 /\ 0 <= getOverlappedPos s < 2 ^ 64.

(** The OVERLAPPED holds the read that beginReading issued at the stream
    position and that isAvailable has not taken note of yet. *)
Definition issued (s : WinInStream) : Prop :=
  match Internal (overlap s) with
  | IoPending _ o => o = getOverlappedPos s
  | IoSuccess n =>
    getOverlappedPos s < fileLen s
    /\ n = length (chunk (hStream s) (getOverlappedPos s) (buffSize s))
    /\ take n (buffer s) = chunk (hStream s) (getOverlappedPos s) (buffSize s)
  | IoFailed e => e = ERROR_HANDLE_EOF /\ fileLen s <= getOverlappedPos s
  end.

(** The bytes [a], ..., [b - 1] of the buffer. *)
Definition slice (buf : list byte) (a b : nat) : list byte :=
  take (b - a) (drop a buf).

(** A read was issued with the cursor at or past the filled part, and, as
    long as the file has bytes left, at the end of the buffer: isAvailable
    passes over what these reads bring. *)
Definition skipping (s : WinInStream) : Prop :=
  sound s /\ issued s
  /\ (currentInBuffer s <= currentPtr s)%nat
  /\ (getOverlappedPos s < fileLen s -> currentPtr s = buffSize s).

(** A read was issued at the stream position with the buffer empty. *)
Definition freshRead (s : WinInStream) : Prop :=
  sound s /\ issued s /\ currentInBuffer s = 0%nat /\ currentPtr s = 0%nat
  /\ (endOfStream s = true -> fileLen s <= getOverlappedPos s).

(** The buffer holds the bytes [c] of which those from [i] on are unread;
    the byte at [i] is one the stream returns. *)
Definition loaded (s : WinInStream) (c : list byte) (i : nat) : Prop :=
  currentInBuffer s = length c /\ currentPtr s = i /\ (i < length c)%nat
  /\ take (length c) (buffer s) = c /\ endOfStream s = false
  /\ Internal (overlap s) = IoSuccess (length c)
  /\ (isText s = true -> isCR (byteAt (buffer s) i) = false).

(** Where a stream on a file of content [c] that fits in one buffer load is
    between two reads, and what its reads are still to return: the read of
    the file was issued and not yet seen; the content is loaded and unread
    from [i] on, the stream position being past the end, at most [m]; or
    all has been returned and the stream is at the end of the file or on
    its way there. *)
Definition phase (c : list byte) (txt : bool) (m : Z) (s : WinInStream)
  (rest : list byte) : Prop :=
  (freshRead s /\ isText s = txt /\ getOverlappedPos s = 0
   /\ kData (hStream s) = c /\ (length c <= buffSize s)%nat
   /\ rest = textFilter txt c)
  \/ (exists i, loaded s c i /\ isText s = txt /\ sound s
                /\ kData (hStream s) = c
                /\ fileLen s <= getOverlappedPos s <= m
                /\ rest = textFilter txt (drop i c))
  \/ (readyNow s = true /\ rest = [])
  \/ (skipping s /\ fileLen s <= getOverlappedPos s /\ rest = []).

(** The buffer has the size the stream records, the filled part lies within
    it, and so does what a completed read reports. *)
Definition withinBuffer (s : WinInStream) : Prop :=
  length (buffer s) = buffSize s
  /\ (currentInBuffer s <= buffSize s)%nat
  /\ match Internal (overlap s) with
     | IoSuccess n => (n <= buffSize s)%nat
     | _ => True
     end.

(** Two worlds that differ at most in the stream object at address [q]. *)
Definition sameBut (q : Z) (w w' : World) : Prop :=
  files w' = files w /\ dirs w' = dirs w /\ dirData w' = dirData w
  /\ volatiles w' = volatiles w
  /\ standardInput w' = standardInput w
  /\ standardOutput w' = standardOutput w
  /\ standardError w' = standardError w
  /\ nextAddr w' = nextAddr w /\ turn w' = turn w
  /\ forall q', q' <> q -> streams w' !! q' = streams w !! q'.

(** The address readString reads from. *)
Definition targetOf (w : World) (stream : PolyWord) : Z :=
  match stream with
  | Tagged 0 => standardInput w
  | _ => pointerIn w stream
  end.

(** The names a directory stream is to return: those of the entries that
    are not the current or the parent arc. *)
Definition namesOf (entries : list WIN32_FIND_DATA) : list string :=
  map cFileName (filter (fun e => isDotArc e = false) entries).

(** A directory stream with the entry [first] in its buffer and a search
    handle that reports the entries [es] without an error. *)
Definition listing (first : WIN32_FIND_DATA) (es : list WIN32_FIND_DATA)
  : WinDirData :=
  mkWinDirData (map NextEntry es) first true.

(** A stream on a disk that answers, between two calls: a read in flight
    was issued at the stream position, and the only failure the OVERLAPPED
    records is the end of the file. *)
Definition healthy (s : WinInStream) : Prop :=
  sound s
  /\ match Internal (overlap s) with
     | IoPending _ o => o = getOverlappedPos s
     | IoSuccess _ => True
     | IoFailed e => e = ERROR_HANDLE_EOF
     end.

(** * Properties *)

(** ** Helper facts on the model *)

Lemma ovPos_setOverlappedPos pos s :
  getOverlappedPos (setOverlappedPos pos s) = pos mod 2 ^ 64.
Proof.
  unfold getOverlappedPos, setOverlappedPos, ovPos; simpl.
  change (2 ^ 64) with (2 ^ 32 * 2 ^ 32).
  rewrite Z.rem_mul_r by lia. lia.
Qed.

(** ** The multi-descriptor poll *)

Section PollFacts.
Variable TestAnyEvents : nat -> option Exn.
Variable poll : nat -> WinStreamObj -> Z -> Z.
Variable systemTime : nat -> Z.

(** Whatever the streams answer, a vector that pollDescriptors returns
    holds the zeros of the memset, one per descriptor. *)
Lemma pollDescriptors_zero_vector fuel : forall now w args blockType v now',
  pollDescriptors TestAnyEvents poll systemTime fuel now w args blockType
    = (Some (Ok v), now') ->
  v = PolyTuple
        (repeat (Tagged 0)
           (length (fieldsOf (default (PolyTuple []) (fieldsOf args !! 0%nat))))).
Proof.
  induction fuel as [|fuel IH]; intros now w args blockType v now' H;
    simpl in H; [discriminate|].
  destruct (TestAnyEvents now); [discriminate|].
  destruct (pollLoop _ _ _ _ _ _ _) as [haveResult|e]; [|discriminate].
  assert (Hmap : forall n, map Tagged (repeat 0 n) = repeat (Tagged 0) n)
    by (induction n; simpl; congruence).
  rewrite Hmap in H.
  destruct haveResult; [congruence|].
  destruct (blockType =? 0).
  - destruct (_ <=? _); [congruence|]. eapply IH; eassumption.
  - destruct (blockType =? 1); [|congruence]. eapply IH; eassumption.
Qed.

(** With no descriptor a pass of pollDescriptors under policy 1 ends in
    ThreadPause and the jump to TryAgain, or in the exception of an
    asynchronous event. *)
Lemma pollDescriptors_empty_block fuel : forall now w t r now',
  pollDescriptors TestAnyEvents poll systemTime fuel now w
    (PolyTuple [PolyTuple []; PolyTuple []; Tagged t]) 1 = (Some r, now') ->
  exists e, r = Raise e.
Proof.
  induction fuel as [|fuel IH]; intros now w t r now' H; simpl in H;
    [discriminate|].
  destruct (TestAnyEvents now) as [e|].
  - exists e. congruence.
  - eapply IH; eassumption.
Qed.
End PollFacts.

(** C1 (the code departs from the claim): three streams of which only the
    second is ready for READ, polled without blocking.  The second stream's
    [poll] answers READ, the loop notes that there is a result, and the
    vector returned is [0, 0, 0]: the answers are never stored in
    [results]. *)
Theorem pollDescriptors_three_streams_all_zero :
  pollPipe 0 (CopyInStream (pipeWith ["a"%byte])) POLL_BIT_IN = POLL_BIT_IN
  /\ pollLoop pollPipe 0 world3
       [Volatile 1; Volatile 2; Volatile 3]
       [Tagged POLL_BIT_IN; Tagged POLL_BIT_IN; Tagged POLL_BIT_IN]
       (seq 0 3) false = Ok true
  /\ pollDescriptors noEvents pollPipe clockZero 1 0 world3 pollArgs3 2
     = (Some (Ok (PolyTuple [Tagged 0; Tagged 0; Tagged 0])), 0%nat).
Proof. repeat split; vm_compute; reflexivity. Qed.

(** C3, as stated, fails: under policy 1 (block for ever) the poll of the
    empty request never returns, whatever the number of passes. *)
Lemma pollDescriptors_empty_forever_no_result :
  ~ (exists fuel r now,
       pollDescriptors noEvents pollPipe clockZero fuel 0 world3 pollArgs0 1
       = (Some r, now)).
Proof.
  intros (fuel & r & now & H).
  destruct (pollDescriptors_empty_block _ _ _ _ _ _ _ _ _ H) as [e He].
  subst r. revert H. generalize 0%nat at 1.
  induction fuel as [|fuel IH]; intros n H; simpl in H; [discriminate|].
  unfold pollArgs0 in H. simpl in H. eapply IH. exact H.
Qed.

(** C3 (amended): under policy 1 the poll of the empty request never returns
    a result vector.  Every pass finds nothing ready, pauses for one
    scheduler turn and starts again: with no asynchronous event, after
    [fuel] passes it has paused [fuel] times and is still polling; otherwise
    it can only end in the exception of an event.  Under policy 2 (no
    blocking) the empty request returns the empty vector in the turn it was
    made in. *)
Theorem pollDescriptors_empty_request
  (TestAnyEvents : nat -> option Exn) (poll : nat -> WinStreamObj -> Z -> Z)
  (systemTime : nat -> Z) (fuel now : nat) (w : World) (t : Z) :
  let args := PolyTuple [PolyTuple []; PolyTuple []; Tagged t] in
  (forall v now',
      pollDescriptors TestAnyEvents poll systemTime fuel now w args 1
      <> (Some (Ok v), now'))
  /\ pollDescriptors noEvents poll systemTime fuel now w args 1
     = (None, (now + fuel)%nat)
  /\ pollDescriptors noEvents poll systemTime (S fuel) now w args 2
     = (Some (Ok (PolyTuple [])), now).
Proof.
  cbv zeta. split; [|split].
  - intros v now' H.
    destruct (pollDescriptors_empty_block _ _ _ _ _ _ _ _ _ H) as [e He].
    discriminate.
  - revert now. induction fuel as [|fuel IH]; intros now; simpl.
    + f_equal. lia.
    + rewrite IH. f_equal. lia.
  - reflexivity.
Qed.

(** ** The entry point *)

Lemma caseOf_unknown c :
  ~ (0 <= c <= 30 \/ 50 <= c <= 69) -> caseOf c dispatchTable = None.
Proof.
  intros H. unfold dispatchTable, caseOf.
  repeat match goal with
         | |- context [c =? ?k] =>
           destruct (Z.eqb_spec c k); [exfalso; apply H; lia|]
         end.
  reflexivity.
Qed.

Lemma caseOf_known c op :
  caseOf c dispatchTable = Some op -> 0 <= c <= 30 \/ 50 <= c <= 69.
Proof.
  intros H.
  destruct (Z_le_dec 0 c); [|rewrite caseOf_unknown in H by lia; discriminate].
  destruct (Z_le_dec c 30); [lia|].
  destruct (Z_le_dec 50 c); [|rewrite caseOf_unknown in H by lia; discriminate].
  destruct (Z_le_dec c 69); [lia|].
  rewrite caseOf_unknown in H by lia; discriminate.
Qed.

Section DispatchFacts.
Variable TestAnyEvents : nat -> option Exn.
Variable poll : nat -> WinStreamObj -> Z -> Z.
Variable systemTime : nat -> Z.
Variable WinStream_isAvailable : CrtFile -> bool.
Variable external : IoOp -> World -> PolyWord -> PolyWord -> Res PolyWord * World.

(** C7: an operation code, an unsigned 32-bit value, that is none of the
    case labels (0 to 30 and 50 to 69) is refused as an operation the entry
    point does not support: it raises the exception Fail with the message
    "Unknown io function: " followed by the code printed with %d, and no
    other failure, and leaves the world, all stream state with it, as it
    was. *)
Theorem IO_dispatch_c_unknown_code fuel w args strm c :
  0 <= c < 2 ^ 32 -> ~ (0 <= c <= 30 \/ 50 <= c <= 69) ->
  IO_dispatch_c TestAnyEvents poll systemTime WinStream_isAvailable external
                fuel w args strm c
  = Some (Raise (Fail ("Unknown io function: " ++ sprintf_d c)), w).
Proof.
  intros _ H. unfold IO_dispatch_c.
  rewrite (caseOf_unknown c H). reflexivity.
Qed.

(** Closing through a word that points to a standard stream changes
    nothing. *)
Lemma closeFile_standard w strm :
  pointerIn w strm = standardInput w \/ pointerIn w strm = standardOutput w
  \/ pointerIn w strm = standardError w ->
  closeFile w strm = (Ok (Tagged 0), w).
Proof.
  intros H. unfold closeFile. destruct strm; try reflexivity;
    destruct H as [H|[H|H]]; rewrite H, Z.eqb_refl; simpl;
    rewrite ?andb_false_r; reflexivity.
Qed.

(** Whatever is closed, the objects at the three standard addresses and
    the words that point to them stay as they are. *)
Lemma closeFile_keeps_standard w strm r w' :
  closeFile w strm = (r, w') ->
  standardInput w' = standardInput w /\ standardOutput w' = standardOutput w
  /\ standardError w' = standardError w
  /\ forall p, p = standardInput w \/ p = standardOutput w
               \/ p = standardError w ->
       streams w' !! p = streams w !! p
       /\ forall c, volatiles w !! c = Some p -> p <> 0 ->
                    volatiles w' !! c = Some p.
Proof.
  unfold closeFile. intros H.
  assert (Hsame : (r, w') = (Ok (Tagged 0), w) ->
    standardInput w' = standardInput w /\ standardOutput w' = standardOutput w
    /\ standardError w' = standardError w
    /\ forall p, p = standardInput w \/ p = standardOutput w
                 \/ p = standardError w ->
         streams w' !! p = streams w !! p
         /\ forall c, volatiles w !! c = Some p -> p <> 0 ->
                      volatiles w' !! c = Some p).
  { intros E. inversion E; subst. repeat split; auto. }
  destruct strm as [n|c0|s|l|l]; simpl in H;
    try (apply Hsame; symmetry; exact H).
  destruct (volatiles w !! c0) as [q|] eqn:Hc0; simpl in H;
    [|apply Hsame; symmetry; exact H].
  destruct (q =? 0) eqn:E0; simpl in H; [apply Hsame; symmetry; exact H|].
  destruct (q =? standardInput w) eqn:E1; simpl in H;
    [apply Hsame; symmetry; exact H|].
  destruct (q =? standardOutput w) eqn:E2; simpl in H;
    [apply Hsame; symmetry; exact H|].
  destruct (q =? standardError w) eqn:E3; simpl in H;
    [apply Hsame; symmetry; exact H|].
  destruct (from_option _ _ _).
  2:{ inversion H; subst. repeat split; auto. }
  inversion H; subst; clear H Hsame. simpl.
  repeat split; try reflexivity.
  - apply lookup_delete_ne. destruct H as [-> | [-> | ->]]; lia.
  - intros c Hc Hp. rewrite lookup_insert_ne; [exact Hc|].
    intros ->. rewrite Hc0 in Hc. inversion Hc; subst.
    destruct H as [-> | [-> | ->]]; lia.
Qed.

(** C9: the close operation (code 7) on a word that points to the
    standard input, the standard output or the standard error returns 0
    and leaves the whole world as it was: the object is neither closed
    nor deleted and the word still points to it.  And whatever word is
    closed, the three standard objects and every word that points to one
    of them are kept: only other streams are released. *)
Theorem IO_dispatch_c_close_standard fuel w args strm :
  pointerIn w strm = standardInput w \/ pointerIn w strm = standardOutput w
  \/ pointerIn w strm = standardError w ->
  IO_dispatch_c TestAnyEvents poll systemTime WinStream_isAvailable external
                fuel w args strm 7 = Some (Ok (Tagged 0), w)
  /\ forall strm' r w',
       IO_dispatch_c TestAnyEvents poll systemTime WinStream_isAvailable external
                     fuel w args strm' 7 = Some (r, w') ->
       forall p, p = standardInput w \/ p = standardOutput w
                 \/ p = standardError w ->
         streams w' !! p = streams w !! p
         /\ forall c, volatiles w !! c = Some p -> p <> 0 ->
                      volatiles w' !! c = Some p.
Proof.
  intros H. unfold IO_dispatch_c. simpl. split.
  - rewrite (closeFile_standard _ _ H). reflexivity.
  - intros strm' r w' Hc p Hp. inversion Hc as [Hc'].
    destruct (closeFile_keeps_standard _ _ _ _ Hc') as (_ & _ & _ & Hk).
    exact (Hk p Hp).
Qed.
End DispatchFacts.

Lemma IO_dispatch_c_unknown_code_witness :
  0 <= 31 < 2 ^ 32 /\ ~ (0 <= 31 <= 30 \/ 50 <= 31 <= 69)
  /\ IO_dispatch_c noEvents pollPipe clockZero alwaysAvailable noExternal
                   1 world3 (Tagged 0) (Tagged 0) 31
     = Some (Raise (Fail "Unknown io function: 31"), world3).
Proof.
  split; [lia|]. split; [lia|].
  apply (IO_dispatch_c_unknown_code noEvents pollPipe clockZero
           alwaysAvailable noExternal 1 world3 (Tagged 0) (Tagged 0) 31);
    lia.
Defined.

Lemma IO_dispatch_c_close_standard_witness :
  (pointerIn world3 (Volatile 4) = standardInput world3
   \/ pointerIn world3 (Volatile 4) = standardOutput world3
   \/ pointerIn world3 (Volatile 4) = standardError world3)
  /\ IO_dispatch_c noEvents pollPipe clockZero alwaysAvailable noExternal
                   1 world3 (Tagged 0) (Volatile 4) 7
     = Some (Ok (Tagged 0), world3).
Proof.
  assert (H : pointerIn world3 (Volatile 4) = standardInput world3
              \/ pointerIn world3 (Volatile 4) = standardOutput world3
              \/ pointerIn world3 (Volatile 4) = standardError world3)
    by (left; reflexivity).
  split; [exact H|].
  exact (proj1 (IO_dispatch_c_close_standard noEvents pollPipe clockZero
                  alwaysAvailable noExternal 1 world3 (Tagged 0) (Volatile 4) H)).
Defined.

(** Closing a word that points to another stream does release it: the
    object is deleted and the word cleared. *)
Example IO_dispatch_c_close_other :
  exists w,
    IO_dispatch_c noEvents pollPipe clockZero alwaysAvailable noExternal
                  1 world3 (Tagged 0) (Volatile 2) 7 = Some (Ok (Tagged 0), w)
    /\ streams w !! 101 = None /\ volatiles w !! 2 = Some 0
    /\ streams world3 !! 101 = Some (CopyInStream (pipeWith ["a"%byte])).
Proof. eexists. repeat split; vm_compute; reflexivity. Qed.

(** ** readString *)

Lemma copyLoop_length txt buf inBuf len n : forall ptr base,
  (length base <= len)%nat ->
  (length (snd (copyLoop n txt buf inBuf len ptr base)) <= len)%nat.
Proof.
  induction n as [|n IH]; intros ptr base Hb; simpl; [exact Hb|].
  destruct (ptr <? inBuf)%nat; simpl; [|exact Hb].
  destruct (Nat.ltb_spec (length base) len); simpl; [|exact Hb].
  destruct (negb txt || negb (isCR (byteAt buf ptr))); apply IH; [|exact Hb].
  rewrite length_app. simpl. lia.
Qed.

Lemma readStream_length s len buff s' :
  readStream s len = (Ok buff, s') -> (length buff <= len)%nat.
Proof.
  unfold readStream. destruct (endOfStream s).
  - intros H. inversion H. simpl. lia.
  - pose proof (copyLoop_length (isText s) (buffer s) (currentInBuffer s) len
                  (currentInBuffer s - currentPtr s) (currentPtr s) []) as Hl.
    destruct (copyLoop _ _ _ _ _ _ _) as [ptr base]. simpl in Hl.
    specialize (Hl ltac:(lia)).
    destruct (_ =? _)%nat.
    + destruct (beginReading _) as [[[]|e] s1]; intros H; inversion H; subst;
        exact Hl.
    + intros H; inversion H; subst; exact Hl.
Qed.

Lemma WinStream_readStream_length f len buff f' :
  WinStream_readStream f len = (Ok buff, f') -> (length buff <= len)%nat.
Proof.
  unfold WinStream_readStream, crt_read. destruct (fdReadError f); simpl.
  - discriminate.
  - destruct (_ <? 0); [discriminate|]. intros H; inversion H; subst.
    rewrite length_take. lia.
Qed.

Lemma obj_readStream_length o len buff o' :
  obj_readStream o len = (Ok buff, o') -> (length buff <= len)%nat.
Proof.
  destruct o as [f|f|s]; simpl.
  - destruct (WinStream_readStream f len) as [r f1] eqn:E. intros H.
    inversion H; subst. eapply WinStream_readStream_length; eassumption.
  - destruct (WinStream_readStream f len) as [r f1] eqn:E. intros H.
    inversion H; subst. eapply WinStream_readStream_length; eassumption.
  - destruct (readStream s len) as [r s1] eqn:E. intros H.
    inversion H; subst. eapply readStream_length; eassumption.
Qed.

(** C10: readString, for text (code 10) and binary (code 26) alike, reads
    at most 102400 bytes in one call.  A requested length above 102400 is
    replaced by 102400 before the read, so the call behaves exactly as the
    request for 102400 bytes, and the string returned holds at most 102400
    bytes (and never more than requested). *)
Theorem readString_at_most_102400
  (TestAnyEvents : nat -> option Exn) (WinStream_isAvailable : CrtFile -> bool)
  (fuel : nat) (w : World) (stream : PolyWord) (n : Z) :
  (forall v w',
      readString TestAnyEvents WinStream_isAvailable fuel w stream (Tagged n)
      = Some (Ok v, w') ->
      exists buff, v = PolyBytes buff
                   /\ Z.of_nat (length buff) <= 102400
                   /\ Z.of_nat (length buff) <= n)
  /\ (102400 < n ->
      readString TestAnyEvents WinStream_isAvailable fuel w stream (Tagged n)
      = readString TestAnyEvents WinStream_isAvailable fuel w stream
                   (Tagged 102400)).
Proof.
  split.
  - intros v w'. unfold readString, getPolyUnsigned.
    destruct (Z.ltb_spec n 0) as [Hn|Hn]; [discriminate|].
    destruct (if _ =? 0 then None else _) as [o|]; [|discriminate].
    destruct (TestAnyEvents _); [discriminate|].
    destruct (obj_waitUntilAvailable _ _ _) as [[[[]|e] o1]|]; try discriminate.
    destruct (obj_readStream o1 _) as [[buff|e] o2] eqn:E; [|discriminate].
    intros Hr; inversion Hr; subst. exists buff. split; [reflexivity|].
    apply obj_readStream_length in E.
    destruct (Z.ltb_spec 102400 (Z.of_nat (Z.to_nat n))); lia.
  - intros Hn. unfold readString, getPolyUnsigned.
    destruct (Z.ltb_spec n 0) as [Hn0|Hn0]; [lia|].
    change (102400 <? 0) with false. cbv iota.
    remember (Z.to_nat 102400) as cap eqn:Hcap.
    remember (Z.to_nat n) as m eqn:Hm.
    destruct (Z.ltb_spec 102400 (Z.of_nat m)) as [Hc|Hc]; [|lia].
    destruct (Z.ltb_spec 102400 (Z.of_nat cap)) as [Hd|Hd]; [lia|].
    reflexivity.
Qed.

(** A pipe with 150000 bytes waiting, asked for 200000: readString
    returns 102400 of them, all taken from the pipe. *)
Example readString_truncates :
  let w := mkWorld ∅ ∅
             {[ 10 := CopyInStream
                        (pipeWith (repeat "x"%byte (Z.to_nat 150000))) ]}
             ∅ {[ 4 := 10 ]} 10 11 12 200 0 in
  match readString noEvents alwaysAvailable 1 w (Volatile 4) (Tagged 200000)
  with
  | Some (Ok (PolyBytes buff), _) =>
      (Z.of_nat (length buff) =? 102400)
      && forallb (fun b => Byte.eqb b "x"%byte) buff
  | _ => false
  end = true.
Proof. vm_compute. reflexivity. Qed.

(** ** Directory streams *)

(** The loop of readDirectory, turn by turn, as the code has it: the name
    is taken unless the entry is the current or parent arc, then
    FindNextFile is called. *)
Lemma readDirectoryLoop_unfold h last succeeded :
  readDirectoryLoop h last succeeded =
  let result := if negb (isDotArc last) then Some (cFileName last) else None in
  let '(ok, err, h', last') := FindNextFile h last in
  if ok || negb (err =? ERROR_NO_MORE_FILES) then
    match result with
    | Some r => (r, mkWinDirData h' last' succeeded)
    | None => readDirectoryLoop h' last' succeeded
    end
  else (default EmptyString result, mkWinDirData h' last' false).
Proof.
  destruct h as [|[d|e] h']; simpl; try reflexivity.
  destruct (e =? ERROR_NO_MORE_FILES); reflexivity.
Qed.

Lemma readDirectoryLoop_real h last succeeded r d' :
  readDirectoryLoop h last succeeded = (r, d') ->
  r = EmptyString
  \/ exists e, (e = last \/ NextEntry e ∈ h) /\ isDotArc e = false
               /\ cFileName e = r.
Proof.
  revert last. induction h as [|[d|err] h IH]; intros last; simpl.
  - destruct (isDotArc last) eqn:E; simpl; intros H; inversion H; subst.
    + left; reflexivity.
    + right. exists last. auto.
  - destruct (isDotArc last) eqn:E; simpl.
    + intros H. destruct (IH _ H) as [->|(e & He & Hd & Hn)];
        [left; reflexivity|].
      right. exists e. split; [|auto]. right. rewrite elem_of_cons.
      destruct He as [->|He]; [left; reflexivity|right; exact He].
    + intros H; inversion H; subst. right. exists last. auto.
  - destruct (err =? ERROR_NO_MORE_FILES).
    + destruct (isDotArc last) eqn:E; simpl; intros H; inversion H; subst.
      * left; reflexivity.
      * right. exists last. auto.
    + destruct (isDotArc last) eqn:E; simpl.
      * intros H. destruct (IH _ H) as [->|(e & He & Hd & Hn)];
          [left; reflexivity|].
        right. exists e. split; [|auto].
        destruct He as [->|He]; [left; reflexivity|].
        right. rewrite elem_of_cons. right; exact He.
      * intros H; inversion H; subst. right. exists last. auto.
Qed.

(** C8: reading a directory stream.  When the exhausted flag is set (the
    field fFindSucceeded is 0) the empty name is returned and the stream is
    unchanged.  Otherwise, when the staged entry is no pseudo-entry its name
    is returned, and the stream advances: a next match is staged, or, when
    advancing fails with "no more files", the flag is cleared for the next
    call (which then returns the empty name) while this call still returns
    the staged name.  A staged current or parent arc is skipped: the call
    answers as it would with the next match staged, or with the empty name
    when there is none.  The name returned is never that of a pseudo-entry:
    it is empty or the name of a staged or later entry that is not the
    current or parent arc. *)
Theorem readDirectory_contract (d : WinDirData) :
  (fFindSucceeded d = false ->
   readDirectory (Some d) = (Ok EmptyString, Some d))
  /\ (fFindSucceeded d = true -> isDotArc (lastFind d) = false ->
      match FindNextFile (hFind d) (lastFind d) with
      | (true, _, h', next) =>
        readDirectory (Some d)
        = (Ok (cFileName (lastFind d)), Some (mkWinDirData h' next true))
      | (false, err, h', _) =>
        if err =? ERROR_NO_MORE_FILES then
          readDirectory (Some d)
          = (Ok (cFileName (lastFind d)),
             Some (mkWinDirData h' (lastFind d) false))
          /\ readDirectory (Some (mkWinDirData h' (lastFind d) false))
             = (Ok EmptyString, Some (mkWinDirData h' (lastFind d) false))
        else
          readDirectory (Some d)
          = (Ok (cFileName (lastFind d)),
             Some (mkWinDirData h' (lastFind d) true))
      end)
  /\ (fFindSucceeded d = true -> isDotArc (lastFind d) = true ->
      match FindNextFile (hFind d) (lastFind d) with
      | (true, _, h', next) =>
        readDirectory (Some d) = readDirectory (Some (mkWinDirData h' next true))
      | (false, err, h', _) =>
        if err =? ERROR_NO_MORE_FILES then
          readDirectory (Some d)
          = (Ok EmptyString, Some (mkWinDirData h' (lastFind d) false))
        else
          readDirectory (Some d)
          = readDirectory (Some (mkWinDirData h' (lastFind d) true))
      end)
  /\ (forall r d', readDirectory (Some d) = (Ok r, Some d') ->
      r = EmptyString
      \/ exists e, (e = lastFind d \/ NextEntry e ∈ hFind d)
                   /\ isDotArc e = false /\ cFileName e = r).
Proof.
  destruct d as [h last flag]. simpl. repeat split.
  - intros ->. reflexivity.
  - intros -> Hdot. unfold readDirectory. simpl.
    rewrite readDirectoryLoop_unfold. rewrite Hdot. simpl.
    destruct (FindNextFile h last) as [[[ok err] h'] last'] eqn:E.
    destruct h as [|[d1|e1] h1]; simpl in E; inversion E; subst; simpl.
    + split; reflexivity.
    + reflexivity.
    + destruct (err =? ERROR_NO_MORE_FILES); simpl; [split|]; reflexivity.
  - intros -> Hdot. unfold readDirectory. simpl.
    rewrite readDirectoryLoop_unfold. rewrite Hdot. simpl.
    destruct (FindNextFile h last) as [[[ok err] h'] last'] eqn:E.
    destruct h as [|[d1|e1] h1]; simpl in E; inversion E; subst; simpl.
    + reflexivity.
    + reflexivity.
    + destruct (err =? ERROR_NO_MORE_FILES); simpl; reflexivity.
  - intros r d'. unfold readDirectory. simpl. destruct flag; simpl.
    + destruct (readDirectoryLoop h last true) as [r0 d0] eqn:E.
      intros H; inversion H; subst.
      eapply readDirectoryLoop_real; eassumption.
    + intros H; inversion H; subst. left; reflexivity.
Qed.

(** The directory of the files a and b: the reads yield "a", "b" and then
    the empty name again and again. *)
Example readDirectory_a_b :
  exists d1 d2,
    readDirectory (Some dirAB) = (Ok "a"%string, Some d1)
    /\ readDirectory (Some d1) = (Ok "b"%string, Some d2)
    /\ readDirectory (Some d2) = (Ok EmptyString, Some d2).
Proof. eexists. eexists. repeat split; reflexivity. Qed.

(** ** The readiness test of the buffered input stream *)

Lemma skipCR_stable txt buf inBuf n : forall ptr,
  (inBuf - ptr <= n)%nat ->
  forall m, skipCR m txt buf inBuf (skipCR n txt buf inBuf ptr)
            = skipCR n txt buf inBuf ptr.
Proof.
  induction n as [|n IH]; intros ptr Hn m; simpl.
  - destruct m; simpl; [reflexivity|].
    destruct (Nat.ltb_spec ptr inBuf); [lia|].
    rewrite andb_false_r. reflexivity.
  - destruct (txt && (ptr <? inBuf)%nat && isCR (byteAt buf ptr)) eqn:E.
    + apply IH. lia.
    + destruct m; simpl; [reflexivity|]. rewrite E. reflexivity.
Qed.

(** At the end of the stream isAvailable answers at once and changes
    nothing. *)
Lemma isAvailable_at_end fuel s :
  endOfStream s = true -> isAvailable (S fuel) s = Some (Ok true, s).
Proof. intros H. simpl. rewrite H, orb_true_r. reflexivity. Qed.

(** What a beginReading that raises leaves behind. *)
Lemma beginReading_raise s e s1 :
  beginReading s = (Raise e, s1) ->
  currentInBuffer s1 = currentInBuffer s /\ currentPtr s1 = currentPtr s
  /\ endOfStream s1 = endOfStream s
  /\ exists err, Internal (overlap s1) = IoFailed err
                 /\ (err =? ERROR_HANDLE_EOF) = false.
Proof.
  unfold beginReading, ReadFile.
  destruct (kFault (hStream s)) as [err|].
  - destruct (err =? ERROR_HANDLE_EOF) eqn:E1; [discriminate|].
    destruct (err =? ERROR_IO_PENDING); [discriminate|].
    intros H; inversion H; subst; simpl. repeat split; eauto.
  - destruct (kLatency (hStream s)); [|discriminate].
    unfold complete. destruct (_ <=? _); discriminate.
Qed.

(** The four ways through one turn of the loop of isAvailable. *)
Lemma isAvailable_ready fuel s :
  (currentInBuffer s <? currentPtr s)%nat || endOfStream s = true ->
  isAvailable (S fuel) s = Some (Ok true, s).
Proof. intros H. simpl. rewrite H. reflexivity. Qed.

Lemma isAvailable_pending fuel s k o :
  (currentInBuffer s <? currentPtr s)%nat || endOfStream s = false ->
  Internal (overlap s) = IoPending k o ->
  isAvailable (S fuel) s = Some (Ok false, s).
Proof.
  intros H HI. simpl. rewrite H. unfold GetOverlappedResult. rewrite HI.
  reflexivity.
Qed.

Lemma isAvailable_failed fuel s err :
  (currentInBuffer s <? currentPtr s)%nat || endOfStream s = false ->
  Internal (overlap s) = IoFailed err ->
  isAvailable (S fuel) s =
  if err =? ERROR_HANDLE_EOF then Some (Ok true, set_endOfStream true s)
  else if err =? ERROR_IO_INCOMPLETE then Some (Ok false, s)
  else Some (Raise (SysErr "GetOverlappedResult failed" err), s).
Proof.
  intros H HI. simpl. rewrite H. unfold GetOverlappedResult. rewrite HI.
  reflexivity.
Qed.

Lemma isAvailable_success fuel s n :
  (currentInBuffer s <? currentPtr s)%nat || endOfStream s = false ->
  Internal (overlap s) = IoSuccess n ->
  isAvailable (S fuel) s =
  if (currentPtr (noteCompleted n s) <? currentInBuffer (noteCompleted n s))%nat
  then Some (Ok true, noteCompleted n s)
  else match beginReading (noteCompleted n s) with
       | (Ok _, s2) => isAvailable fuel s2
       | (Raise e, s2) => Some (Raise e, s2)
       end.
Proof.
  intros H HI. simpl. rewrite H. unfold GetOverlappedResult. rewrite HI.
  reflexivity.
Qed.

Lemma noteCompleted_fields n s :
  currentInBuffer (noteCompleted n s) = n
  /\ currentPtr (noteCompleted n s)
     = skipCR (n - currentPtr s) (isText s) (buffer s) n (currentPtr s)
  /\ endOfStream (noteCompleted n s) = endOfStream s
  /\ Internal (overlap (noteCompleted n s)) = Internal (overlap s)
  /\ isText (noteCompleted n s) = isText s
  /\ buffer (noteCompleted n s) = buffer s
  /\ buffSize (noteCompleted n s) = buffSize s
  /\ hStream (noteCompleted n s) = hStream s
  /\ getOverlappedPos (noteCompleted n s)
     = (getOverlappedPos s + Z.of_nat n) mod 2 ^ 64.
Proof.
  repeat split.
  change (getOverlappedPos (noteCompleted n s))
    with (getOverlappedPos
            (setOverlappedPos ((getOverlappedPos s + Z.of_nat n) mod 2 ^ 64) s)).
  rewrite ovPos_setOverlappedPos. apply Z.mod_mod. lia.
Qed.

Lemma settled_ready s :
  (currentInBuffer s <? currentPtr s)%nat || endOfStream s = true -> settled s.
Proof.
  intros H. exists (Ok true), s. rewrite isAvailable_ready by exact H. auto.
Qed.

Lemma settled_failed s err :
  Internal (overlap s) = IoFailed err -> (err =? ERROR_HANDLE_EOF) = false ->
  settled s.
Proof.
  intros HI He.
  destruct ((currentInBuffer s <? currentPtr s)%nat || endOfStream s) eqn:E0;
    [apply settled_ready; exact E0|].
  unfold settled. rewrite (isAvailable_failed _ _ _ E0 HI), He.
  destruct (err =? ERROR_IO_INCOMPLETE); eauto 6.
Qed.

Lemma settled_loaded s n :
  (currentInBuffer s <? currentPtr s)%nat || endOfStream s = false ->
  Internal (overlap s) = IoSuccess n ->
  (currentPtr (noteCompleted n s) <? currentInBuffer (noteCompleted n s))%nat
  = true ->
  settled (noteCompleted n s).
Proof.
  intros E0 HI E1.
  destruct (noteCompleted_fields n s)
    as (Hf & Hc & He & Hi & Ht & Hb & _).
  apply orb_false_iff in E0. destruct E0 as [E0 E0'].
  assert (Hc2 : currentPtr (noteCompleted n (noteCompleted n s))
                = currentPtr (noteCompleted n s)).
  { destruct (noteCompleted_fields n (noteCompleted n s)) as (_ & Hc' & _).
    rewrite Hc', Ht, Hb. rewrite Hc. apply skipCR_stable. lia. }
  exists (Ok true), (noteCompleted n (noteCompleted n s)).
  rewrite (isAvailable_success 0 (noteCompleted n s) n).
  - rewrite Hc2.
    replace (currentInBuffer (noteCompleted n (noteCompleted n s)))
      with (currentInBuffer (noteCompleted n s))
      by reflexivity.
    rewrite E1. split; [reflexivity|]. split; [|split].
    + reflexivity.
    + reflexivity.
    + reflexivity.
  - rewrite He, E0', orb_false_r. apply Nat.ltb_ge.
    apply Nat.ltb_lt in E1. lia.
  - rewrite Hi. exact HI.
Qed.

(** C6: isAvailable twice in succession, with no read and no completion of
    the operating system in between.  Whatever the first call returned
    (true, false or an exception) and from whatever state, the second call
    returns, and leaves [currentInBuffer] (filled), [currentPtr] (cursor)
    and the end-of-stream flag as the first call left them. *)
Theorem isAvailable_idempotent (fuel : nat) (s : WinInStream)
  (r : Res bool) (s1 : WinInStream) :
  isAvailable fuel s = Some (r, s1) ->
  exists r2 s2,
    isAvailable 1 s1 = Some (r2, s2)
    /\ currentInBuffer s2 = currentInBuffer s1
    /\ currentPtr s2 = currentPtr s1
    /\ endOfStream s2 = endOfStream s1.
Proof.
  intros H. change (settled s1). revert s r s1 H.
  induction fuel as [|fuel IH]; intros s r s1 H; [discriminate|].
  destruct ((currentInBuffer s <? currentPtr s)%nat || endOfStream s) eqn:E0.
  { rewrite isAvailable_ready in H by exact E0.
    inversion H; subst. apply settled_ready. exact E0. }
  destruct (Internal (overlap s)) as [k o|n|err] eqn:EI.
  - rewrite (isAvailable_pending _ _ _ _ E0 EI) in H. inversion H; subst.
    exists (Ok false), s1. rewrite (isAvailable_pending _ _ _ _ E0 EI). auto.
  - rewrite (isAvailable_success _ _ _ E0 EI) in H.
    destruct (currentPtr (noteCompleted n s)
              <? currentInBuffer (noteCompleted n s))%nat eqn:E1.
    + inversion H; subst. apply settled_loaded; assumption.
    + destruct (beginReading (noteCompleted n s)) as [[[]|e] s2] eqn:EB.
      * eapply IH. exact H.
      * inversion H; subst.
        destruct (beginReading_raise _ _ _ EB) as (_ & _ & _ & err & Herr & Hne).
        eapply settled_failed; eassumption.
  - rewrite (isAvailable_failed _ _ _ E0 EI) in H.
    destruct (err =? ERROR_HANDLE_EOF) eqn:E1.
    + inversion H; subst. apply settled_ready. apply orb_true_r.
    + assert (Hs : s1 = s)
        by (destruct (err =? ERROR_IO_INCOMPLETE); inversion H; reflexivity).
      subst s1. eapply settled_failed; eassumption.
Qed.

Lemma isAvailable_idempotent_witness :
  isAvailable 1 loaded_abc
  = Some (Ok true, noteCompleted 3 loaded_abc)
  /\ exists r2 s2,
       isAvailable 1 (noteCompleted 3 loaded_abc) = Some (r2, s2)
       /\ currentInBuffer s2 = currentInBuffer (noteCompleted 3 loaded_abc)
       /\ currentPtr s2 = currentPtr (noteCompleted 3 loaded_abc)
       /\ endOfStream s2 = endOfStream (noteCompleted 3 loaded_abc).
Proof.
  assert (H : isAvailable 1 loaded_abc
              = Some (Ok true, noteCompleted 3 loaded_abc))
    by reflexivity.
  split; [exact H|].
  exact (isAvailable_idempotent 1 loaded_abc (Ok true)
           (noteCompleted 3 loaded_abc) H).
Defined.

(** C2 (the code departs from the claim).  A three byte binary file is
    opened and the first isAvailable observes the completed read: the
    stream holds three unread bytes (cursor 0 < filled 3), it is not at the
    end and streamPosition is 3.  The next isAvailable does return true,
    but not at once: its test is [currentInBuffer < currentPtr], which is
    false, so it asks GetOverlappedResult again, takes the completed read
    for a new one and advances streamPosition to 6 (getPos then answers 3
    where the first unread byte is at offset 0).  Only at the end of the
    stream does the call return without probing. *)
Theorem isAvailable_unread_bytes_probes_again :
  let fs : gmap string KFile := {[ "f"%string := diskFile bytes_abc 0 ]} in
  (exists s0, openEntry fs "f" false = Ok s0
              /\ isAvailable 1 s0 = Some (Ok true, loaded_abc))
  /\ (currentPtr loaded_abc < currentInBuffer loaded_abc)%nat
  /\ endOfStream loaded_abc = false
  /\ getOverlappedPos loaded_abc = 3
  /\ getPos loaded_abc = Ok 0
  /\ (currentInBuffer loaded_abc <? currentPtr loaded_abc)%nat = false
  /\ GetOverlappedResult (overlap loaded_abc) = (true, 0, 3%nat)
  /\ exists s',
       isAvailable 1 loaded_abc = Some (Ok true, s')
       /\ currentInBuffer s' = 3%nat /\ currentPtr s' = 0%nat
       /\ endOfStream s' = false
       /\ getOverlappedPos s' = 6
       /\ getPos s' = Ok 3.
Proof.
  cbv zeta. split.
  { eexists. split; [vm_compute; reflexivity|]. vm_compute; reflexivity. }
  split. { unfold loaded_abc; simpl; lia. }
  split. { reflexivity. }
  split. { vm_compute; reflexivity. }
  split. { vm_compute; reflexivity. }
  split. { vm_compute; reflexivity. }
  split. { vm_compute; reflexivity. }
  eexists. split. { vm_compute; reflexivity. }
  split. { vm_compute; reflexivity. }
  split. { vm_compute; reflexivity. }
  split. { vm_compute; reflexivity. }
  split; [vm_compute; reflexivity|]. vm_compute; reflexivity.
Qed.

(** ** Waiting for input: fuel, pauses and the turns of the loop *)

Lemma waitUntilAvailable_S fuel s :
  waitUntilAvailable (S fuel) s =
  match isAvailable (S fuel) s with
  | None => None
  | Some (Raise e, s) => Some (Raise e, s)
  | Some (Ok true, s) => Some (Ok tt, s)
  | Some (Ok false, s) => waitUntilAvailable fuel (ThreadPauseForIO s)
  end.
Proof. reflexivity. Qed.

Lemma isAvailable_mono fuel : forall s r fuel',
  isAvailable fuel s = Some r -> (fuel <= fuel')%nat ->
  isAvailable fuel' s = Some r.
Proof.
  induction fuel as [|fuel IH]; intros s r fuel' H Hle; [discriminate|].
  destruct fuel' as [|fuel']; [lia|].
  simpl in H |- *.
  destruct ((currentInBuffer s <? currentPtr s)%nat || endOfStream s);
    [exact H|].
  destruct (GetOverlappedResult (overlap s)) as [[[] err] n]; [|exact H].
  destruct (_ <? _)%nat; [exact H|].
  destruct (beginReading _) as [[[]|e] s2]; [|exact H].
  apply IH; [exact H|lia].
Qed.

Lemma waitUntilAvailable_mono fuel : forall s r fuel',
  waitUntilAvailable fuel s = Some r -> (fuel <= fuel')%nat ->
  waitUntilAvailable fuel' s = Some r.
Proof.
  induction fuel as [|fuel IH]; intros s r fuel' H Hle; [discriminate|].
  destruct fuel' as [|fuel']; [lia|].
  rewrite waitUntilAvailable_S in H |- *.
  destruct (isAvailable (S fuel) s) as [[r1 s1]|] eqn:E; [|discriminate].
  rewrite (isAvailable_mono _ _ _ (S fuel') E) by lia.
  destruct r1 as [[]|e]; try exact H.
  apply IH; [exact H|lia].
Qed.

Lemma readWhenAvailable_mono fuel s len r fuel' :
  readWhenAvailable fuel s len = Some r -> (fuel <= fuel')%nat ->
  readWhenAvailable fuel' s len = Some r.
Proof.
  unfold readWhenAvailable. intros H Hle.
  destruct (waitUntilAvailable fuel s) as [r1|] eqn:E; [|discriminate].
  rewrite (waitUntilAvailable_mono _ _ _ fuel' E Hle). exact H.
Qed.

(** When one turn of the loop of isAvailable on [s] goes on with [s2],
    waiting on [s] ends as waiting on [s2] does. *)
Lemma waitUntilAvailable_turn s s2 fuel r :
  (forall f, isAvailable (S f) s = isAvailable f s2) ->
  waitUntilAvailable fuel s2 = Some r ->
  waitUntilAvailable (S fuel) s = Some r.
Proof.
  intros Hturn H. destruct fuel as [|fuel]; [discriminate|].
  rewrite waitUntilAvailable_S in H |- *. rewrite Hturn.
  destruct (isAvailable (S fuel) s2) as [[[[]|e] s3]|]; try exact H.
  eapply waitUntilAvailable_mono; [exact H|lia].
Qed.

(** Waiting on a read in flight: after the pauses it takes, the wait goes
    on with the read completed. *)
Lemma waitUntilAvailable_pending k : forall s o fuel,
  readyNow s = false -> Internal (overlap s) = IoPending k o ->
  waitUntilAvailable (S k + fuel) s = waitUntilAvailable fuel (resolve s o).
Proof.
  induction k as [|k IH]; intros s o fuel Hr HI.
  - change (S 0 + fuel)%nat with (S fuel). rewrite waitUntilAvailable_S.
    rewrite (isAvailable_pending _ _ _ _ Hr HI).
    unfold ThreadPauseForIO, progress, resolve. rewrite HI.
    destruct (complete _ _ _ _). reflexivity.
  - change (S (S k) + fuel)%nat with (S (S k + fuel)).
    rewrite waitUntilAvailable_S.
    rewrite (isAvailable_pending _ _ _ _ Hr HI).
    unfold ThreadPauseForIO, progress. rewrite HI.
    rewrite (IH _ o fuel); [reflexivity|exact Hr|reflexivity].
Qed.

(** A stream that is ready stays as it is: waiting returns at once and a
    read returns no byte. *)
Lemma waitUntilAvailable_ready fuel s :
  readyNow s = true -> waitUntilAvailable (S fuel) s = Some (Ok tt, s).
Proof.
  intros H. rewrite waitUntilAvailable_S, isAvailable_ready by exact H.
  reflexivity.
Qed.

Lemma readStream_ready s len :
  readyNow s = true -> readStream s len = (Ok [], s).
Proof.
  unfold readyNow, readStream. intros H.
  destruct (endOfStream s) eqn:He; [reflexivity|].
  rewrite orb_false_r in H. apply Nat.ltb_lt in H.
  replace (currentInBuffer s - currentPtr s)%nat with 0%nat by lia.
  simpl. unfold skipCRs. simpl.
  replace (currentInBuffer s - currentPtr s)%nat with 0%nat by lia.
  simpl. destruct (Nat.eqb_spec (currentInBuffer s) (currentPtr s)); [lia|].
  destruct s; reflexivity.
Qed.

Lemma readWhenAvailable_ready fuel s len :
  readyNow s = true -> readWhenAvailable (S fuel) s len = Some (Ok [], s).
Proof.
  intros H. unfold readWhenAvailable.
  rewrite waitUntilAvailable_ready by exact H.
  rewrite readStream_ready by exact H. reflexivity.
Qed.

(** ** Reads issued on a disk that answers *)

Lemma chunk_length f off n :
  length (chunk f off n) = (n `min` (length (kData f) - Z.to_nat off))%nat.
Proof. unfold chunk. rewrite length_take, length_drop. reflexivity. Qed.

Lemma beginReading_sound s :
  sound s ->
  exists s2,
    beginReading s = (Ok tt, s2)
    /\ sound s2 /\ issued s2
    /\ hStream s2 = hStream s /\ buffSize s2 = buffSize s
    /\ isText s2 = isText s
    /\ currentInBuffer s2 = currentInBuffer s
    /\ currentPtr s2 = currentPtr s
    /\ getOverlappedPos s2 = getOverlappedPos s
    /\ (endOfStream s = false -> endOfStream s2 = true ->
        fileLen s <= getOverlappedPos s).
Proof.
  intros (Hf & Hb & Hl & Hp1 & Hp2).
  unfold beginReading, ReadFile. rewrite Hf.
  destruct (kLatency (hStream s)) as [|k].
  - unfold complete.
    destruct (Z.leb_spec (Z.of_nat (length (kData (hStream s))))
                         (ovPos (overlap s))) as [Hle|Hlt].
    + eexists. split; [reflexivity|].
      repeat split; try assumption; try reflexivity.
      intros _ _. exact Hle.
    + eexists. split; [reflexivity|].
      repeat split; try assumption; try reflexivity.
      * simpl. rewrite take_app_length. reflexivity.
      * simpl. intros H1 H2. congruence.
  - eexists. split; [reflexivity|].
    repeat split; try assumption; try reflexivity.
    simpl. intros H1 H2. congruence.
Qed.

Lemma resolve_sound s k :
  sound s -> Internal (overlap s) = IoPending k (getOverlappedPos s) ->
  let s' := resolve s (getOverlappedPos s) in
  sound s' /\ issued s'
  /\ (forall k' o', Internal (overlap s') <> IoPending k' o')
  /\ hStream s' = hStream s /\ buffSize s' = buffSize s
  /\ isText s' = isText s
  /\ currentInBuffer s' = currentInBuffer s
  /\ currentPtr s' = currentPtr s
  /\ endOfStream s' = endOfStream s
  /\ getOverlappedPos s' = getOverlappedPos s.
Proof.
  intros (Hf & Hb & Hl & Hp1 & Hp2) HI. unfold resolve, complete. cbv zeta.
  destruct (Z.leb_spec (Z.of_nat (length (kData (hStream s))))
                       (getOverlappedPos s)) as [Hle|Hlt].
  - repeat split; try assumption; try reflexivity. discriminate.
  - repeat split; try assumption; try reflexivity; try discriminate.
    simpl. rewrite take_app_length. reflexivity.
Qed.

(** Passing over what the reads bring ends: at the latest at the end of the
    file the stream is ready, with no byte to return. *)
Lemma skipping_wait m : forall s,
  skipping s ->
  (Z.to_nat (fileLen s - getOverlappedPos s) <= m)%nat ->
  exists fuel s', waitUntilAvailable fuel s = Some (Ok tt, s')
                  /\ readyNow s' = true.
Proof.
  induction m as [m IH] using lt_wf_ind.
  assert (NP : forall s,
    skipping s ->
    (Z.to_nat (fileLen s - getOverlappedPos s) <= m)%nat ->
    (forall k o, Internal (overlap s) <> IoPending k o) ->
    exists fuel s', waitUntilAvailable fuel s = Some (Ok tt, s')
                    /\ readyNow s' = true).
  { intros s (Hs & Hi & Hle & Hend) Hm Hnp.
    destruct (readyNow s) eqn:Hr.
    { exists 1%nat, s. rewrite waitUntilAvailable_ready by exact Hr. auto. }
    unfold issued in Hi.
    destruct (Internal (overlap s)) as [k o|n|err] eqn:HI.
    - exfalso. eapply Hnp. reflexivity.
    - destruct Hi as (Hlt & Hn & Hbuf).
      destruct Hs as (Hf & Hb & Hl & Hp).
      specialize (Hend Hlt).
      assert (Hn1 : (1 <= n <= buffSize s)%nat).
      { rewrite Hn, chunk_length. unfold fileLen in Hlt. lia. }
      assert (Hn2 : Z.of_nat n <= fileLen s - getOverlappedPos s).
      { rewrite Hn, chunk_length. unfold fileLen in *. lia. }
      destruct (noteCompleted_fields n s)
        as (Nf & Nc & Ne & Ni & Nt & Nb & Ns & Nh & Np).
      assert (Nc' : currentPtr (noteCompleted n s) = currentPtr s).
      { rewrite Nc. replace (n - currentPtr s)%nat with 0%nat by lia.
        reflexivity. }
      assert (Np' : getOverlappedPos (noteCompleted n s)
                    = getOverlappedPos s + Z.of_nat n).
      { rewrite Np. apply Z.mod_small. lia. }
      destruct (beginReading_sound (noteCompleted n s))
        as (s2 & EB & Hs2 & Hi2 & Hh2 & Hb2 & Ht2 & Hf2 & Hc2 & Hp2 & _).
      { unfold sound, fileLen. rewrite Nh, Ns, Np'. unfold fileLen in *.
        repeat split; try assumption; lia. }
      assert (Hsk2 : skipping s2).
      { split; [exact Hs2|]. split; [exact Hi2|]. split.
        - rewrite Hf2, Hc2, Nf, Nc'. lia.
        - intros _. rewrite Hc2, Nc', Hb2, Ns. exact Hend. }
      assert (Hm2 : (Z.to_nat (fileLen s2 - getOverlappedPos s2) < m)%nat).
      { unfold fileLen in *. rewrite Hh2, Hp2, Nh, Np'. lia. }
      destruct (IH _ Hm2 s2 Hsk2 (Nat.le_refl _)) as (fuel & s' & Hw & Hr').
      exists (S fuel), s'. split; [|exact Hr'].
      eapply waitUntilAvailable_turn; [|exact Hw].
      intros f. rewrite (isAvailable_success _ _ _ Hr HI).
      rewrite Nf, Nc'.
      destruct (Nat.ltb_spec (currentPtr s) n); [lia|].
      rewrite EB. reflexivity.
    - destruct Hi as [-> Hge].
      exists 1%nat, (set_endOfStream true s).
      rewrite waitUntilAvailable_S, (isAvailable_failed _ _ _ Hr HI).
      split; [reflexivity|]. unfold readyNow. apply orb_true_r. }
  intros s Hsk Hm.
  destruct (readyNow s) eqn:Hr.
  { exists 1%nat, s. rewrite waitUntilAvailable_ready by exact Hr. auto. }
  destruct (Internal (overlap s)) as [k o|n|err] eqn:HI.
  - destruct Hsk as (Hs & Hi & Hle & Hend).
    assert (Ho : o = getOverlappedPos s) by (unfold issued in Hi; rewrite HI in Hi; exact Hi).
    subst o.
    destruct (resolve_sound s k Hs HI)
      as (Rs & Ri & Rnp & Rh & Rb & Rt & Rf & Rc & Re & Rp).
    assert (Hskr : skipping (resolve s (getOverlappedPos s))).
    { split; [exact Rs|]. split; [exact Ri|]. split.
      - rewrite Rf, Rc. exact Hle.
      - rewrite Rp, Rc, Rb. unfold fileLen in *. rewrite Rh. exact Hend. }
    assert (Hmr : (Z.to_nat (fileLen (resolve s (getOverlappedPos s))
                             - getOverlappedPos (resolve s (getOverlappedPos s)))
                   <= m)%nat).
    { unfold fileLen in *. rewrite Rh, Rp. exact Hm. }
    destruct (NP _ Hskr Hmr Rnp) as (fuel & s' & Hw & Hr').
    exists (S k + fuel)%nat, s'. split; [|exact Hr'].
    rewrite (waitUntilAvailable_pending k s _ fuel Hr HI). exact Hw.
  - apply NP; [exact Hsk|exact Hm|]. intros k o. rewrite HI. discriminate.
  - apply NP; [exact Hsk|exact Hm|]. intros k o. rewrite HI. discriminate.
Qed.

(** ** The copy loop and the skipping of carriage returns, on lists *)

Lemma slice_nil buf a : slice buf a a = [].
Proof. unfold slice. rewrite Nat.sub_diag. reflexivity. Qed.

Lemma slice_step buf a b :
  (a < length buf)%nat -> (a < b)%nat ->
  slice buf a b = byteAt buf a :: slice buf (S a) b.
Proof.
  intros Ha Hab. unfold slice, byteAt.
  destruct (lookup_lt_is_Some_2 buf a Ha) as [x Hx].
  rewrite (drop_S _ _ _ Hx).
  replace (b - a)%nat with (S (b - S a)) by lia. simpl.
  rewrite (nth_lookup_Some _ _ _ _ Hx). reflexivity.
Qed.

Lemma slice_app buf a b c :
  (a <= b)%nat -> (b <= c)%nat -> slice buf a c = slice buf a b ++ slice buf b c.
Proof.
  intros Hab Hbc. unfold slice.
  replace (c - a)%nat with ((b - a) + (c - b))%nat by lia.
  rewrite <- take_take_drop, drop_drop.
  replace (a + (b - a))%nat with b by lia. reflexivity.
Qed.

Lemma slice_take buf n a b :
  (b <= n)%nat -> slice (take n buf) a b = slice buf a b.
Proof.
  intros Hb. unfold slice. rewrite skipn_firstn_comm.
  rewrite take_take. f_equal. lia.
Qed.

Lemma slice_all c a : slice c a (length c) = drop a c.
Proof. unfold slice. rewrite <- length_drop. apply firstn_all. Qed.

Lemma textFilter_app txt l1 l2 :
  textFilter txt (l1 ++ l2) = textFilter txt l1 ++ textFilter txt l2.
Proof. unfold textFilter. destruct txt; [apply filter_app|reflexivity]. Qed.

Lemma textFilter_length txt l : (length (textFilter txt l) <= length l)%nat.
Proof. unfold textFilter. destruct txt; [apply length_filter|lia]. Qed.

Lemma isCR_in_buffer buf a : isCR (byteAt buf a) = true -> (a < length buf)%nat.
Proof.
  intros H. destruct (Nat.lt_ge_cases a (length buf)) as [Hlt|Hge];
    [exact Hlt|].
  unfold byteAt in H. rewrite nth_overflow in H by exact Hge. discriminate.
Qed.

(** Where the loop over carriage returns stops. *)
Lemma skipCR_spec txt buf inBuf n : forall ptr,
  (inBuf - ptr <= n)%nat ->
  let p := skipCR n txt buf inBuf ptr in
  (ptr <= p)%nat /\ (p <= ptr `max` inBuf)%nat
  /\ textFilter txt (slice buf ptr p) = []
  /\ (txt = false -> p = ptr)
  /\ ((p < inBuf)%nat -> txt = true -> isCR (byteAt buf p) = false).
Proof.
  assert (Hnil : forall p, textFilter txt (slice buf p p) = [])
    by (intros p; rewrite slice_nil; destruct txt; reflexivity).
  induction n as [|n IH]; intros ptr Hn; simpl.
  { rewrite Hnil. repeat split; try lia; intros; lia. }
  destruct (txt && (ptr <? inBuf)%nat && isCR (byteAt buf ptr)) eqn:E.
  - apply andb_true_iff in E. destruct E as [E Ecr].
    apply andb_true_iff in E. destruct E as [-> Hlt].
    apply Nat.ltb_lt in Hlt.
    destruct (IH (S ptr)) as (H1 & H2 & H3 & H4 & H5); [lia|].
    split; [lia|]. split; [lia|]. split; [|split; [discriminate|exact H5]].
    rewrite slice_step by (try apply isCR_in_buffer; auto; lia).
    simpl in H3 |- *. rewrite filter_cons.
    destruct (decide (isCR (byteAt buf ptr) = false)) as [Hd|_];
      [congruence|exact H3].
  - rewrite Hnil. split; [lia|]. split; [lia|]. split; [reflexivity|].
    split; [reflexivity|]. intros Hlt ->. simpl in E.
    apply Nat.ltb_lt in Hlt. rewrite Hlt in E. exact E.
Qed.

(** What the copy loop of readStream stores and where it stops. *)
Lemma copyLoop_spec txt buf inBuf len n : forall ptr base,
  (inBuf - ptr <= n)%nat -> (inBuf <= length buf)%nat ->
  exists p out,
    copyLoop n txt buf inBuf len ptr base = (p, out)
    /\ (ptr <= p)%nat /\ (p <= ptr `max` inBuf)%nat
    /\ out = base ++ textFilter txt (slice buf ptr p)
    /\ ((p < inBuf)%nat -> (len <= length out)%nat).
Proof.
  assert (Hstop : forall (ptr : nat) (base : list byte),
    ((ptr < inBuf)%nat -> (len <= length base)%nat) ->
    exists p out,
      (ptr, base) = (p, out)
      /\ (ptr <= p)%nat /\ (p <= ptr `max` inBuf)%nat
      /\ out = base ++ textFilter txt (slice buf ptr p)
      /\ ((p < inBuf)%nat -> (len <= length out)%nat)).
  { intros ptr base H. exists ptr, base. rewrite slice_nil.
    split; [reflexivity|]. split; [lia|]. split; [lia|]. split; [|exact H].
    destruct txt; simpl; rewrite app_nil_r; reflexivity. }
  induction n as [|n IH]; intros ptr base Hn Hbuf; simpl.
  { apply Hstop. intros; lia. }
  destruct (Nat.ltb_spec ptr inBuf) as [Hlt|Hge]; simpl;
    [|apply Hstop; intros; lia].
  destruct (Nat.ltb_spec (length base) len) as [Hl|Hl]; simpl;
    [|apply Hstop; intros; lia].
  destruct (negb txt || negb (isCR (byteAt buf ptr))) eqn:Ekeep.
  - destruct (IH (S ptr) (base ++ [byteAt buf ptr])) as
      (p & out & E & H1 & H2 & H3 & H4); [lia|lia|].
    exists p, out. rewrite E.
    split; [reflexivity|]. split; [lia|]. split; [lia|]. split; [|exact H4].
    rewrite H3, (slice_step buf ptr p) by lia.
    rewrite <- app_assoc. f_equal. unfold textFilter.
    destruct txt; [|reflexivity]. simpl in Ekeep.
    rewrite filter_cons.
    destruct (decide (isCR (byteAt buf ptr) = false)) as [_|Hd];
      [reflexivity|].
    destruct (isCR (byteAt buf ptr)); [discriminate|congruence].
  - destruct (IH (S ptr) base) as (p & out & E & H1 & H2 & H3 & H4);
      [lia|lia|].
    exists p, out. rewrite E.
    split; [reflexivity|]. split; [lia|]. split; [lia|]. split; [|exact H4].
    rewrite H3, (slice_step buf ptr p) by lia.
    f_equal. unfold textFilter.
    destruct txt; [|discriminate]. simpl in Ekeep.
    rewrite filter_cons.
    destruct (decide (isCR (byteAt buf ptr) = false)) as [Hd|_];
      [|reflexivity].
    rewrite Hd in Ekeep. discriminate.
Qed.

(** ** Reading from a loaded buffer *)

Lemma loaded_buffer_length s c i :
  loaded s c i -> (length c <= length (buffer s))%nat.
Proof.
  intros (_ & _ & _ & Hb & _).
  apply (f_equal length) in Hb. rewrite length_take in Hb. lia.
Qed.

(** The unread bytes of a loaded buffer, cut where the copy loop stopped at
    [p] and the skipping of carriage returns at [p2]. *)
Lemma loaded_unread txt buf c i p p2 :
  take (length c) buf = c ->
  (i <= p)%nat -> (p <= p2)%nat -> (p2 <= length c)%nat ->
  textFilter txt (slice buf p p2) = [] ->
  textFilter txt (drop i c)
  = textFilter txt (slice buf i p) ++ textFilter txt (drop p2 c).
Proof.
  intros Hb Hip Hpp Hpc Hskip.
  rewrite <- (slice_all c i), <- (slice_all c p2).
  rewrite <- Hb at 1 3. rewrite !slice_take by lia.
  rewrite (slice_app buf i p (length c)) by lia.
  rewrite (slice_app buf p p2 (length c)) by lia.
  rewrite !textFilter_app, Hskip. reflexivity.
Qed.

Lemma readStream_loaded s c i k :
  sound s -> loaded s c i ->
  exists s',
    readStream s k = (Ok (take k (textFilter (isText s) (drop i c))), s')
    /\ sound s' /\ hStream s' = hStream s /\ buffSize s' = buffSize s
    /\ isText s' = isText s /\ getOverlappedPos s' = getOverlappedPos s
    /\ ((exists i', loaded s' c i'
                    /\ textFilter (isText s) (drop i' c)
                       = drop k (textFilter (isText s) (drop i c)))
        \/ (drop k (textFilter (isText s) (drop i c)) = []
            /\ issued s' /\ currentInBuffer s' = 0%nat
            /\ currentPtr s' = 0%nat)).
Proof.
  intros Hs Hl. pose proof (loaded_buffer_length _ _ _ Hl) as Hlen.
  destruct Hl as (Hf & Hc & Hi & Hb & He & HI & Hcr).
  unfold readStream. rewrite He, Hf, Hc.
  destruct (copyLoop_spec (isText s) (buffer s) (length c) k (length c - i) i [])
    as (p & out & E & Hp1 & Hp2 & Hout & Hfull); [lia|exact Hlen|].
  pose proof (copyLoop_length (isText s) (buffer s) (length c) k
                (length c - i) i []) as Hk.
  rewrite E in Hk |- *. simpl in Hk. specialize (Hk ltac:(lia)).
  simpl in Hout.
  set (s1 := set_currentPtr p s).
  destruct (skipCR_spec (isText s) (buffer s) (length c) (length c - p) p)
    as (Hq1 & Hq2 & Hq3 & Hq4 & Hq5); [lia|].
  set (p2 := skipCR (length c - p) (isText s) (buffer s) (length c) p) in *.
  assert (Hs1 : currentPtr (skipCRs s1) = p2).
  { unfold skipCRs, s1. simpl. rewrite Hf. reflexivity. }
  assert (Hf1 : currentInBuffer (skipCRs s1) = length c) by exact Hf.
  pose proof (loaded_unread (isText s) (buffer s) c i p p2 Hb
                ltac:(lia) ltac:(lia) ltac:(lia) Hq3) as Hun.
  rewrite <- Hout in Hun.
  rewrite Hf1, Hs1.
  destruct (Nat.eqb_spec (length c) p2) as [Heq|Hne].
  - (* the buffer is exhausted: a new read is started *)
    assert (Hall : textFilter (isText s) (drop i c) = out).
    { rewrite Hun, <- Heq, drop_all.
      destruct (isText s); simpl; rewrite app_nil_r; reflexivity. }
    destruct (beginReading_sound
                (set_currentPtr 0 (set_currentInBuffer 0 (skipCRs s1))))
      as (s2 & EB & Hs2 & Hi2 & Hh2 & Hb2 & Ht2 & Hf2 & Hc2 & Hp2' & _).
    { exact Hs. }
    rewrite EB. exists s2. rewrite Hall.
    rewrite take_ge by exact Hk.
    split; [reflexivity|]. split; [exact Hs2|].
    split; [exact Hh2|]. split; [exact Hb2|]. split; [exact Ht2|].
    split; [exact Hp2'|]. right.
    split; [apply drop_ge; exact Hk|]. auto.
  - (* bytes remain *)
    assert (Hfull' : length out = k) by (apply Nat.le_antisymm; [exact Hk|apply Hfull; lia]).
    exists (skipCRs s1). rewrite Hun.
    rewrite take_app_length' by (symmetry; exact Hfull').
    split; [reflexivity|]. split; [exact Hs|].
    split; [reflexivity|]. split; [reflexivity|]. split; [reflexivity|].
    split; [reflexivity|]. left. exists p2.
    split.
    + unfold loaded. rewrite Hf1, Hs1.
      split; [reflexivity|]. split; [reflexivity|]. split; [lia|].
      split; [exact Hb|]. split; [exact He|]. split; [exact HI|].
      intros Ht. apply Hq5; [lia|exact Ht].
    + rewrite drop_app_length' by (symmetry; exact Hfull'). reflexivity.
Qed.

(** ** The first wait after a read was issued with the buffer empty *)

Lemma chunk_past_end f off n :
  0 <= off -> Z.of_nat (length (kData f)) <= off -> chunk f off n = [].
Proof.
  intros H0 H. unfold chunk. rewrite drop_ge by lia. apply take_nil.
Qed.

(** Waiting on a read issued with the buffer empty ends, either with the bytes the read brought
    loaded and the cursor on the first of them that is no carriage return,
    or, when the read brought nothing that the stream returns, with the
    stream ready and no byte to return. *)
Lemma freshRead_wait s :
  freshRead s ->
  let c := chunk (hStream s) (getOverlappedPos s) (buffSize s) in
  exists fuel s',
    waitUntilAvailable fuel s = Some (Ok tt, s')
    /\ ((exists i, loaded s' c i
                   /\ textFilter (isText s) (take i c) = []
                   /\ sound s' /\ hStream s' = hStream s
                   /\ buffSize s' = buffSize s /\ isText s' = isText s
                   /\ getOverlappedPos s'
                      = getOverlappedPos s + Z.of_nat (length c))
        \/ (readyNow s' = true /\ textFilter (isText s) c = [])).
Proof.
  cbv zeta.
  assert (NP : forall s,
    freshRead s -> (forall k o, Internal (overlap s) <> IoPending k o) ->
    exists fuel s',
      waitUntilAvailable fuel s = Some (Ok tt, s')
      /\ ((exists i,
              loaded s' (chunk (hStream s) (getOverlappedPos s) (buffSize s)) i
              /\ textFilter (isText s)
                   (take i (chunk (hStream s) (getOverlappedPos s) (buffSize s)))
                 = []
              /\ sound s' /\ hStream s' = hStream s
              /\ buffSize s' = buffSize s /\ isText s' = isText s
              /\ getOverlappedPos s'
                 = getOverlappedPos s
                   + Z.of_nat (length (chunk (hStream s) (getOverlappedPos s)
                                             (buffSize s))))
          \/ (readyNow s' = true
              /\ textFilter (isText s)
                   (chunk (hStream s) (getOverlappedPos s) (buffSize s)) = []))).
  { clear s. intros s (Hs & Hi & Hf & Hc & Hend) Hnp.
    assert (Hnil : fileLen s <= getOverlappedPos s ->
                   textFilter (isText s)
                     (chunk (hStream s) (getOverlappedPos s) (buffSize s)) = []).
    { intros Hge. rewrite chunk_past_end; [destruct (isText s); reflexivity| |].
      - apply Hs. - exact Hge. }
    destruct (readyNow s) eqn:Hr.
    { exists 1%nat, s. rewrite waitUntilAvailable_ready by exact Hr.
      split; [reflexivity|]. right. split; [exact Hr|]. apply Hnil, Hend.
      unfold readyNow in Hr. rewrite Hf, Hc in Hr. exact Hr. }
    unfold issued in Hi.
    destruct (Internal (overlap s)) as [k o|n|err] eqn:HI.
    - exfalso. eapply Hnp. reflexivity.
    - destruct Hi as (Hlt & Hn & Hbuf).
      set (c := chunk (hStream s) (getOverlappedPos s) (buffSize s)) in *.
      destruct Hs as (Hfault & Hb & Hl & Hp).
      assert (Hn1 : (1 <= n <= buffSize s)%nat).
      { rewrite Hn. unfold c. rewrite chunk_length. unfold fileLen in *. lia. }
      assert (Hn2 : Z.of_nat n <= fileLen s - getOverlappedPos s).
      { rewrite Hn. unfold c. rewrite chunk_length. unfold fileLen in *. lia. }
      destruct (noteCompleted_fields n s)
        as (Nf & Nc & Ne & Ni & Nt & Nb & Ns & Nh & Np).
      assert (Np' : getOverlappedPos (noteCompleted n s)
                    = getOverlappedPos s + Z.of_nat n).
      { rewrite Np. apply Z.mod_small. lia. }
      assert (Hs1 : sound (noteCompleted n s)).
      { unfold sound, fileLen. rewrite Nh, Ns, Np'. unfold fileLen in *.
        repeat split; try assumption; lia. }
      rewrite Hc in Nc. rewrite Nat.sub_0_r in Nc.
      destruct (skipCR_spec (isText s) (buffer s) n n 0)
        as (Hq1 & Hq2 & Hq3 & Hq4 & Hq5); [lia|].
      rewrite <- Nc in Hq1, Hq2, Hq3, Hq4, Hq5.
      set (i := currentPtr (noteCompleted n s)) in *.
      assert (Hsub : forall j, (j <= n)%nat -> slice (buffer s) 0 j = take j c).
      { intros j Hj. rewrite <- Hbuf, <- (slice_take _ n) by lia.
        unfold slice. rewrite drop_0, Nat.sub_0_r. reflexivity. }
      destruct (Nat.ltb (currentPtr (noteCompleted n s))
                        (currentInBuffer (noteCompleted n s))) eqn:E1.
      + (* bytes to return *)
        apply Nat.ltb_lt in E1. rewrite Nf in E1. fold i in E1.
        exists 1%nat, (noteCompleted n s).
        rewrite waitUntilAvailable_S, (isAvailable_success _ _ _ Hr HI).
        rewrite Nf. fold i.
        destruct (Nat.ltb_spec i n) as [_|Hge]; [|lia].
        split; [reflexivity|]. left. exists i.
        split.
        { unfold loaded. rewrite <- Hn, Nf, Nb, Ne, Ni, Nt.
          split; [reflexivity|]. split; [reflexivity|]. split; [exact E1|].
          split; [exact Hbuf|]. split.
          - unfold readyNow in Hr. apply orb_false_iff in Hr. apply Hr.
          - split; [exact HI|]. intros Ht. apply Hq5; [exact E1|exact Ht]. }
        split. { rewrite <- Hsub by lia. exact Hq3. }
        split; [exact Hs1|]. split; [exact Nh|]. split; [exact Ns|].
        split; [exact Nt|]. rewrite Np', Hn. reflexivity.
      + (* nothing but carriage returns: the next read is started *)
        apply Nat.ltb_ge in E1. rewrite Nf in E1. fold i in E1.
        assert (Hi_n : i = n) by lia.
        assert (Hcr : textFilter (isText s) c = []).
        { rewrite <- (take_ge c n) by lia. rewrite <- Hsub by lia.
          rewrite <- Hi_n. exact Hq3. }
        destruct (beginReading_sound (noteCompleted n s) Hs1)
          as (s2 & EB & Hs2 & Hi2 & Hh2 & Hb2 & Ht2 & Hf2 & Hc2 & Hp2 & _).
        assert (Hsk2 : skipping s2).
        { split; [exact Hs2|]. split; [exact Hi2|]. split.
          - rewrite Hf2, Hc2, Nf. fold i. lia.
          - intros Hlt2. rewrite Hc2, Hb2, Ns. fold i. rewrite Hi_n.
            unfold fileLen in Hlt2. rewrite Hh2, Hp2, Nh, Np' in Hlt2.
            rewrite Hn. unfold c. rewrite chunk_length. rewrite Hn in Hlt2.
            unfold c in Hlt2. rewrite chunk_length in Hlt2. lia. }
        destruct (skipping_wait _ s2 Hsk2 (Nat.le_refl _))
          as (fuel & s' & Hw & Hr').
        exists (S fuel), s'. split.
        * eapply waitUntilAvailable_turn; [|exact Hw].
          intros f. rewrite (isAvailable_success _ _ _ Hr HI).
          rewrite Nf. fold i.
          destruct (Nat.ltb_spec i n); [lia|]. rewrite EB. reflexivity.
        * right. split; [exact Hr'|exact Hcr].
    - destruct Hi as [-> Hge].
      exists 1%nat, (set_endOfStream true s).
      rewrite waitUntilAvailable_S, (isAvailable_failed _ _ _ Hr HI).
      split; [reflexivity|]. right. split; [apply orb_true_r|].
      apply Hnil, Hge. }
  intros Hfr.
  destruct (Internal (overlap s)) as [k o|n|err] eqn:HI.
  - destruct (readyNow s) eqn:Hr.
    { destruct Hfr as (Hs & Hi & Hf & Hc & Hend).
      exists 1%nat, s. rewrite waitUntilAvailable_ready by exact Hr.
      split; [reflexivity|]. right. split; [exact Hr|].
      unfold readyNow in Hr. rewrite Hf, Hc in Hr.
      rewrite chunk_past_end; [destruct (isText s); reflexivity| |].
      - apply Hs. - apply Hend. exact Hr. }
    destruct Hfr as (Hs & Hi & Hf & Hc & Hend).
    assert (Ho : o = getOverlappedPos s)
      by (unfold issued in Hi; rewrite HI in Hi; exact Hi).
    subst o.
    destruct (resolve_sound s k Hs HI)
      as (Rs & Ri & Rnp & Rh & Rb & Rt & Rf & Rc & Re & Rp).
    destruct (NP (resolve s (getOverlappedPos s))) as (fuel & s' & Hw & Hres).
    + split; [exact Rs|]. split; [exact Ri|].
      rewrite Rf, Rc, Re, Rp. unfold fileLen in *. rewrite Rh.
      split; [exact Hf|]. split; [exact Hc|exact Hend].
    + exact Rnp.
    + exists (S k + fuel)%nat, s'.
      rewrite (waitUntilAvailable_pending k s _ fuel Hr HI).
      split; [exact Hw|]. rewrite Rh, Rp, Rb, Rt in Hres. exact Hres.
  - apply NP; [exact Hfr|]. intros k o. rewrite HI. discriminate.
  - apply NP; [exact Hfr|]. intros k o. rewrite HI. discriminate.
Qed.

(** ** Random access *)

Lemma waitForEvent_done k : forall s o,
  Internal (overlap s) = IoPending k o ->
  exists sw, waitForEvent (S (S k)) s = Some sw
             /\ hStream sw = hStream s /\ buffSize sw = buffSize s
             /\ isText sw = isText s.
Proof.
  induction k as [|k IH]; intros s o HI.
  - exists (resolve s o). simpl. unfold eventTimesOut. rewrite HI.
    unfold ThreadPauseForIO, progress, resolve, complete. rewrite HI.
    destruct (_ <=? _); simpl; auto.
  - destruct (IH (ThreadPauseForIO s) o) as (sw & Hw & Hh & Hb & Ht).
    { unfold ThreadPauseForIO, progress. rewrite HI. reflexivity. }
    exists sw. split.
    + change (waitForEvent (S (S (S k))) s)
        with (if eventTimesOut (overlap s)
              then waitForEvent (S (S k)) (ThreadPauseForIO s) else Some s).
      unfold eventTimesOut at 1. rewrite HI. exact Hw.
    + rewrite Hh, Hb, Ht. unfold ThreadPauseForIO, progress. rewrite HI.
      auto.
Qed.

Lemma waitForEvent_ends s :
  exists fuel sw, waitForEvent fuel s = Some sw
                  /\ hStream sw = hStream s /\ buffSize sw = buffSize s
                  /\ isText sw = isText s.
Proof.
  destruct (Internal (overlap s)) as [k o|n|err] eqn:HI.
  - destruct (waitForEvent_done k s o HI) as (sw & H). eauto.
  - exists 1%nat, s. simpl. unfold eventTimesOut. rewrite HI. auto.
  - exists 1%nat, s. simpl. unfold eventTimesOut. rewrite HI. auto.
Qed.

(** C5: on a seekable stream (a disk file that answers) and for a valid
    offset [p], getPos returns streamPosition - filled + cursor, in 64-bit
    arithmetic and so exactly that whenever it is a 64-bit value; setPos
    (p) returns, getPos right after it returns exactly [p], and the next
    read of [len] bytes returns the bytes of the file from offset [p] on:
    the first [len] of what the buffer load at [p] holds, without its
    carriage returns on a text stream. *)
Theorem setPos_getPos_read (s : WinInStream) (p : Z) (len : nat) :
  kType (hStream s) = FILE_TYPE_DISK -> kFault (hStream s) = None ->
  (0 < buffSize s)%nat -> fileLen s < 2 ^ 64 -> 0 <= p < 2 ^ 64 ->
  let v := getOverlappedPos s - Z.of_nat (currentInBuffer s)
           + Z.of_nat (currentPtr s) in
  getPos s = Ok (v mod 2 ^ 64)
  /\ (0 <= v < 2 ^ 64 -> getPos s = Ok v)
  /\ exists fuel s1,
       setPos fuel s p = Some (Ok tt, s1)
       /\ getPos s1 = Ok p
       /\ exists fuel2 s2,
            readWhenAvailable fuel2 s1 len
            = Some (Ok (take len (textFilter (isText s)
                                    (take (buffSize s)
                                       (drop (Z.to_nat p) (kData (hStream s)))))),
                    s2).
Proof.
  intros Hdisk Hfault Hbs Hlen Hp. cbv zeta.
  assert (Hget : forall t, kType (hStream t) = FILE_TYPE_DISK ->
            getPos t = Ok ((getOverlappedPos t - Z.of_nat (currentInBuffer t)
                            + Z.of_nat (currentPtr t)) mod 2 ^ 64)).
  { intros t Ht. unfold getPos. rewrite Ht. reflexivity. }
  split; [apply Hget; exact Hdisk|].
  split. { intros Hv. rewrite Hget by exact Hdisk. rewrite Z.mod_small by exact Hv. reflexivity. }
  destruct (waitForEvent_ends s) as (fuel & sw & Hw & Hh & Hb & Ht).
  set (t := set_endOfStream false
              (set_currentPtr 0 (set_currentInBuffer 0 (setOverlappedPos p sw)))).
  assert (Htp : getOverlappedPos t = p).
  { change (getOverlappedPos t) with (getOverlappedPos (setOverlappedPos p sw)).
    rewrite ovPos_setOverlappedPos. apply Z.mod_small. exact Hp. }
  assert (Hst : sound t).
  { unfold sound, fileLen. rewrite Htp.
    change (hStream t) with (hStream sw). change (buffSize t) with (buffSize sw).
    rewrite Hh, Hb. auto. }
  destruct (beginReading_sound t Hst)
    as (s1 & EB & Hs1 & Hi1 & Hh1 & Hb1 & Ht1 & Hf1 & Hc1 & Hp1 & He1).
  exists fuel, s1. split.
  { unfold setPos. rewrite Hdisk. simpl. rewrite Hw. fold t. rewrite EB.
    reflexivity. }
  split.
  { rewrite Hget.
    - rewrite Hf1, Hc1, Hp1, Htp. simpl. rewrite Z.sub_0_r, Z.add_0_r.
      rewrite Z.mod_small by exact Hp. reflexivity.
    - rewrite Hh1. change (hStream t) with (hStream sw). rewrite Hh.
      exact Hdisk. }
  assert (Hfr : freshRead s1).
  { split; [exact Hs1|]. split; [exact Hi1|]. split; [exact Hf1|].
    split; [exact Hc1|]. intros He. unfold fileLen. rewrite Hh1, Hp1.
    apply He1; [reflexivity|exact He]. }
  destruct (freshRead_wait s1 Hfr) as (fuel2 & s' & Hw2 & Hcase).
  rewrite Hh1, Hb1, Ht1, Hp1, Htp in Hcase.
  change (hStream t) with (hStream sw) in Hcase.
  change (buffSize t) with (buffSize sw) in Hcase.
  change (isText t) with (isText sw) in Hcase.
  rewrite Hh, Hb, Ht in Hcase. unfold chunk in Hcase.
  set (c := take (buffSize s) (drop (Z.to_nat p) (kData (hStream s)))) in *.
  unfold readWhenAvailable.
  destruct Hcase as [(i & Hl & Hskip & Hs' & Hh' & Hb' & Ht' & Hp')|[Hr Hnil]].
  - destruct (readStream_loaded s' c i len Hs' Hl) as (s2 & ER & _).
    exists fuel2, s2. rewrite Hw2, ER. rewrite Ht'.
    replace (textFilter (isText s) c)
      with (textFilter (isText s) (drop i c)); [reflexivity|].
    rewrite <- (take_drop i c) at 2. rewrite textFilter_app, Hskip.
    reflexivity.
  - exists fuel2, s'. rewrite Hw2, (readStream_ready _ _ Hr), Hnil.
    rewrite take_nil. reflexivity.
Qed.

Lemma setPos_getPos_read_witness :
  kType (hStream loaded_abc) = FILE_TYPE_DISK
  /\ kFault (hStream loaded_abc) = None
  /\ (0 < buffSize loaded_abc)%nat /\ fileLen loaded_abc < 2 ^ 64
  /\ 0 <= 1 < 2 ^ 64
  /\ exists fuel s1,
       setPos fuel loaded_abc 1 = Some (Ok tt, s1)
       /\ getPos s1 = Ok 1
       /\ exists fuel2 s2,
            readWhenAvailable fuel2 s1 5
            = Some (Ok (take 5 (textFilter (isText loaded_abc)
                                  (take (buffSize loaded_abc)
                                     (drop (Z.to_nat 1)
                                           (kData (hStream loaded_abc)))))),
                    s2).
Proof.
  assert (H1 : kType (hStream loaded_abc) = FILE_TYPE_DISK) by reflexivity.
  assert (H2 : kFault (hStream loaded_abc) = None) by reflexivity.
  assert (H3 : (0 < buffSize loaded_abc)%nat) by (simpl; lia).
  assert (H4 : fileLen loaded_abc < 2 ^ 64) by (vm_compute; reflexivity).
  assert (H5 : 0 <= 1 < 2 ^ 64) by lia.
  split; [exact H1|]. split; [exact H2|]. split; [exact H3|].
  split; [exact H4|]. split; [exact H5|].
  exact (proj2 (proj2 (setPos_getPos_read loaded_abc 1 5 H1 H2 H3 H4 H5))).
Defined.

(** After setPos (1) on the three byte file the read returns "bc". *)
Example setPos_then_read_bc :
  exists s1 s2,
    setPos 1 loaded_abc 1 = Some (Ok tt, s1) /\ getPos s1 = Ok 1
    /\ readWhenAvailable 2 s1 5 = Some (Ok ["b"%byte; "c"%byte], s2).
Proof.
  eexists. eexists. split; [vm_compute; reflexivity|].
  split; vm_compute; reflexivity.
Qed.

(** ** Sequences of reads on a file that fits in one buffer load *)

Lemma skipCR_stay txt buf inBuf m p :
  (txt = true -> isCR (byteAt buf p) = false) ->
  skipCR m txt buf inBuf p = p.
Proof.
  intros H. destruct m; simpl; [reflexivity|].
  destruct txt; simpl; [|reflexivity].
  rewrite H by reflexivity. rewrite andb_false_r. reflexivity.
Qed.

Lemma readAll_mono lens : forall fuel s r fuel',
  readAll fuel s lens = Some r -> (fuel <= fuel')%nat ->
  readAll fuel' s lens = Some r.
Proof.
  induction lens as [|len lens IH]; intros fuel s r fuel' H Hle; simpl in *;
    [exact H|].
  destruct (readWhenAvailable fuel s len) as [[r1 s1]|] eqn:E; [|discriminate].
  rewrite (readWhenAvailable_mono _ _ _ _ fuel' E Hle).
  destruct r1 as [out|e]; [|exact H].
  destruct (readAll fuel s1 lens) as [r2|] eqn:E2; [|discriminate].
  rewrite (IH _ _ _ fuel' E2 Hle). exact H.
Qed.

(** A read of a loaded buffer. *)
Lemma phase_after_readStream c m s i len :
  sound s -> loaded s c i -> kData (hStream s) = c ->
  fileLen s <= getOverlappedPos s <= m ->
  exists s',
    readStream s len = (Ok (take len (textFilter (isText s) (drop i c))), s')
    /\ phase c (isText s) m s'
             (drop len (textFilter (isText s) (drop i c))).
Proof.
  intros Hs Hl Hc Hpos.
  destruct (readStream_loaded s c i len Hs Hl)
    as (s' & ER & Hs' & Hh' & Hb' & Ht' & Hp' & Hcase).
  exists s'. split; [exact ER|].
  destruct Hcase as [(i' & Hl' & Hrest)|(Hnil & Hi' & Hf' & Hc')].
  - right. left. exists i'. split; [exact Hl'|]. split; [exact Ht'|].
    split; [exact Hs'|]. unfold fileLen. rewrite Hh', Hp'. auto.
  - right. right. right. rewrite Hnil.
    split; [|split; [|reflexivity]].
    + split; [exact Hs'|]. split; [exact Hi'|]. split; [lia|].
      unfold fileLen. rewrite Hh', Hp'. unfold fileLen in Hpos. lia.
    + unfold fileLen. rewrite Hh', Hp'. apply Hpos.
Qed.

(** One read, whatever the phase. *)
Lemma phase_step c txt m s rest len :
  phase c txt m s rest -> 0 <= m -> m + Z.of_nat (length c) < 2 ^ 64 ->
  exists fuel s',
    readWhenAvailable fuel s len = Some (Ok (take len rest), s')
    /\ phase c txt (m + Z.of_nat (length c)) s' (drop len rest).
Proof.
  intros Hph Hm0 Hm. unfold readWhenAvailable.
  destruct Hph as [(Hfr & Htxt & Hp0 & Hc & Hfit & ->)
                  |[(i & Hl & Htxt & Hs & Hc & Hpos & ->)
                   |[(Hr & ->)|(Hsk & Hge & ->)]]].
  - (* the read of the file is in flight or just completed *)
    destruct (freshRead_wait s Hfr) as (fuel & s1 & Hw & Hcase).
    unfold chunk in Hcase. rewrite Hp0, Hc, Htxt in Hcase. simpl in Hcase.
    rewrite (take_ge c) in Hcase by exact Hfit.
    destruct Hcase as [(i & Hl & Hskip & Hs1 & Hh1 & Hb1 & Ht1 & Hp1)|[Hr Hnil]].
    + destruct (phase_after_readStream c (m + Z.of_nat (length c)) s1 i len
                  Hs1 Hl) as (s2 & ER & Hph2).
      * rewrite Hh1. exact Hc.
      * unfold fileLen. rewrite Hh1, Hc, Hp1. lia.
      * exists fuel, s2. rewrite Hw, ER. rewrite Ht1 in Hph2 |- *.
        assert (Hall : textFilter txt (drop i c) = textFilter txt c).
        { rewrite <- (take_drop i c) at 2. rewrite textFilter_app, Hskip.
          reflexivity. }
        rewrite Hall in Hph2 |- *. auto.
    + exists fuel, s1. rewrite Hw, (readStream_ready _ _ Hr), Hnil.
      rewrite take_nil, drop_nil. split; [reflexivity|].
      right; right; left; auto.
  - (* unread bytes in the buffer: isAvailable notes the completed read
       once more, which moves the stream position only *)
    destruct Hl as (Hf & Hcur & Hi & Hb & He & HI & Hcr).
    assert (Hr : readyNow s = false).
    { unfold readyNow. rewrite He, orb_false_r, Hf, Hcur.
      apply Nat.ltb_ge. lia. }
    destruct (noteCompleted_fields (length c) s)
      as (Nf & Nc & Ne & Ni & Nt & Nb & Ns & Nh & Np).
    rewrite Hcur, (skipCR_stay _ _ _ _ _ Hcr) in Nc.
    assert (Np' : getOverlappedPos (noteCompleted (length c) s)
                  = getOverlappedPos s + Z.of_nat (length c)).
    { rewrite Np. apply Z.mod_small. destruct Hs as (_ & _ & _ & Hp). lia. }
    assert (Hs1 : sound (noteCompleted (length c) s)).
    { destruct Hs as (Hfault & Hbs & Hlen & Hp).
      unfold sound, fileLen. rewrite Nh, Ns, Np'. unfold fileLen in *.
      repeat split; try assumption; lia. }
    assert (Hl1 : loaded (noteCompleted (length c) s) c i).
    { unfold loaded. rewrite Nf, Nc, Nb, Ne, Ni, Nt. auto 10. }
    destruct (phase_after_readStream c (m + Z.of_nat (length c))
                (noteCompleted (length c) s) i len Hs1 Hl1)
      as (s2 & ER & Hph2).
    + rewrite Nh. exact Hc.
    + unfold fileLen in *. rewrite Nh, Np'. lia.
    + exists 1%nat, s2.
      rewrite waitUntilAvailable_S, (isAvailable_success _ _ _ Hr HI).
      rewrite Nf, Nc.
      destruct (Nat.ltb_spec i (length c)) as [_|Hge]; [|lia].
      rewrite ER. rewrite Nt, Htxt in Hph2 |- *. auto.
  - (* all returned, the stream is ready *)
    exists 1%nat, s. rewrite waitUntilAvailable_ready by exact Hr.
    rewrite (readStream_ready _ _ Hr), take_nil, drop_nil.
    split; [reflexivity|]. right; right; left; auto.
  - (* all returned, the read past the end is on its way *)
    destruct (skipping_wait _ s Hsk (Nat.le_refl _)) as (fuel & s' & Hw & Hr').
    exists fuel, s'. rewrite Hw, (readStream_ready _ _ Hr'), take_nil, drop_nil.
    split; [reflexivity|]. right; right; left; auto.
Qed.

(** A sequence of reads, whatever the phase: together they return the first
    bytes of what was still to return, as many as were asked for. *)
Lemma phase_readAll c txt lens : forall m s rest,
  phase c txt m s rest -> 0 <= m ->
  m + Z.of_nat (length lens) * Z.of_nat (length c) < 2 ^ 64 ->
  exists fuel outs s',
    readAll fuel s lens = Some (Ok outs, s')
    /\ concat outs = take (sum_list lens) rest.
Proof.
  induction lens as [|len lens IH]; intros m s rest Hph Hm0 Hm.
  - exists 0%nat, [], s. split; reflexivity.
  - simpl length in Hm.
    destruct (phase_step c txt m s rest len Hph Hm0) as (f1 & s1 & E1 & Hph1);
      [nia|].
    destruct (IH (m + Z.of_nat (length c)) s1 (drop len rest) Hph1)
      as (f2 & outs & s2 & E2 & Hcat); [lia|nia|].
    exists (f1 `max` f2)%nat, (take len rest :: outs), s2. split.
    + simpl.
      rewrite (readWhenAvailable_mono _ _ _ _ (f1 `max` f2)%nat E1) by lia.
      rewrite (readAll_mono _ _ _ _ (f1 `max` f2)%nat E2) by lia.
      reflexivity.
    + simpl. rewrite Hcat. apply take_take_drop.
Qed.

(** C4 (amended): for every file content of at most 4096 bytes (one buffer
    load) that is read without an error of the operating system, and every
    sequence of at most 2^51 read calls whose requested lengths add up to
    the length of the content, the reads return, and their results one
    after the other are the content, without its carriage returns when the
    stream is a text stream. *)
Theorem readAll_one_buffer (fs : gmap string KFile) (name : string)
  (f : KFile) (txt : bool) (lens : list nat) :
  fs !! name = Some f -> kFault f = None ->
  (length (kData f) <= 4096)%nat ->
  sum_list lens = length (kData f) ->
  Z.of_nat (length lens) <= 2 ^ 51 ->
  exists s0 fuel outs s',
    openEntry fs name txt = Ok s0
    /\ readAll fuel s0 lens = Some (Ok outs, s')
    /\ concat outs = textFilter txt (kData f).
Proof.
  intros Hfs Hfault Hfit Hsum Hcalls.
  unfold openEntry, CreateFile. rewrite Hfs.
  set (si := mkWinInStream f (repeat "000"%byte 4096) 4096 0 0 false txt
                           (mkOVERLAPPED (IoSuccess 0) 0 0)).
  change (beginReading _) with (beginReading si).
  assert (Hsi : sound si).
  { unfold sound, fileLen. simpl.
    change (getOverlappedPos si) with 0.
    repeat split; try assumption; lia. }
  destruct (beginReading_sound si Hsi)
    as (s0 & EB & Hs0 & Hi0 & Hh0 & Hb0 & Ht0 & Hf0 & Hc0 & Hp0 & He0).
  rewrite EB.
  assert (Hph : phase (kData f) txt 0 s0 (textFilter txt (kData f))).
  { left. split.
    - split; [exact Hs0|]. split; [exact Hi0|]. split; [exact Hf0|].
      split; [exact Hc0|]. intros He. unfold fileLen. rewrite Hh0, Hp0.
      apply He0; [reflexivity|exact He].
    - split; [exact Ht0|]. split; [exact Hp0|]. split; [rewrite Hh0; reflexivity|].
      split; [rewrite Hb0; exact Hfit|reflexivity]. }
  destruct (phase_readAll (kData f) txt lens 0 s0 _ Hph)
    as (fuel & outs & s' & ER & Hcat); [lia|nia|].
  exists s0, fuel, outs, s'. split; [reflexivity|]. split; [exact ER|].
  rewrite Hcat. apply take_ge. rewrite Hsum. apply textFilter_length.
Qed.

Lemma readAll_one_buffer_witness :
  someFiles !! "crlf"%string = Some (diskFile bytes_crlf 1)
  /\ kFault (diskFile bytes_crlf 1) = None
  /\ (length (kData (diskFile bytes_crlf 1)) <= 4096)%nat
  /\ sum_list [1; 1; 2]%nat = length (kData (diskFile bytes_crlf 1))
  /\ Z.of_nat (length [1; 1; 2]%nat) <= 2 ^ 51
  /\ exists s0 fuel outs s',
       openEntry someFiles "crlf" true = Ok s0
       /\ readAll fuel s0 [1; 1; 2]%nat = Some (Ok outs, s')
       /\ concat outs = textFilter true (kData (diskFile bytes_crlf 1)).
Proof.
  assert (H1 : someFiles !! "crlf"%string = Some (diskFile bytes_crlf 1))
    by (vm_compute; reflexivity).
  assert (H2 : kFault (diskFile bytes_crlf 1) = None) by reflexivity.
  assert (H3 : (length (kData (diskFile bytes_crlf 1)) <= 4096)%nat)
    by (simpl; lia).
  assert (H4 : sum_list [1; 1; 2]%nat = length (kData (diskFile bytes_crlf 1)))
    by reflexivity.
  assert (H5 : Z.of_nat (length [1; 1; 2]%nat) <= 2 ^ 51) by (simpl; lia).
  split; [exact H1|]. split; [exact H2|]. split; [exact H3|].
  split; [exact H4|]. split; [exact H5|].
  exact (readAll_one_buffer someFiles "crlf" (diskFile bytes_crlf 1) true
           [1; 1; 2]%nat H1 H2 H3 H4 H5).
Defined.

(** The text file "a", CR, LF, "b" read in three calls. *)
Example readAll_crlf :
  exists s0 s',
    openEntry someFiles "crlf" true = Ok s0
    /\ readAll 3 s0 [1; 1; 2]%nat
       = Some (Ok [["a"%byte]; ["010"%byte]; ["b"%byte]], s').
Proof.
  eexists. eexists. split; [vm_compute; reflexivity|]. vm_compute. reflexivity.
Qed.

(** C4, as stated, fails: a binary file of 4097 bytes and one read of 4097
    bytes.  The requested length is the length of the content, and the read
    returns the 4096 bytes of the first buffer load only. *)
Lemma readAll_4097_bytes_is_short :
  exists s0 out s',
    openEntry someFiles "big" false = Ok s0
    /\ sum_list [4097%nat] = length bytes_4097
    /\ readAll 2 s0 [4097%nat] = Some (Ok [out], s')
    /\ out = take 4096 bytes_4097
    /\ concat [out] <> textFilter false bytes_4097.
Proof.
  eexists. eexists. eexists.
  split; [vm_compute; reflexivity|].
  split; [reflexivity|].
  split; [vm_compute; reflexivity|].
  split; [vm_compute; reflexivity|].
  intros H. apply (f_equal length) in H. vm_compute in H. discriminate.
Qed.

(** What the second probe of isAvailable (see C2) does to a longer file:
    two buffer loads and a byte, read in calls of 1, 4095, 4096 and 1 bytes.
    The call that finds unread bytes in the buffer moves the stream position
    on by a second buffer load, so the read that follows the first load is
    issued at offset 8192 and the second load is never returned. *)
Example readAll_skips_second_load :
  exists s0 outs s',
    openEntry someFiles "bigger" false = Ok s0
    /\ sum_list [1; 4095; 4096; 1]%nat = length bytes_8193
    /\ readAll 2 s0 [1; 4095; 4096; 1]%nat = Some (Ok outs, s')
    /\ concat outs = repeat "a"%byte 4096 ++ ["c"%byte].
Proof.
  eexists. eexists. eexists.
  split; [vm_compute; reflexivity|].
  split; [vm_compute; reflexivity|].
  split; [vm_compute; reflexivity|].
  vm_compute. reflexivity.
Qed.

(** * Further properties of the code *)

(** ** What readStream returns *)

Lemma copyLoop_noCR buf inBuf len n : forall ptr base,
  Forall (fun b => isCR b = false) base ->
  Forall (fun b => isCR b = false)
         (snd (copyLoop n true buf inBuf len ptr base)).
Proof.
  induction n as [|n IH]; intros ptr base Hb; simpl; [exact Hb|].
  destruct ((ptr <? inBuf)%nat && (length base <? len)%nat); [|exact Hb].
  destruct (isCR (byteAt buf ptr)) eqn:E; simpl.
  - apply IH. exact Hb.
  - apply IH. apply Forall_app. split; [exact Hb|].
    constructor; [exact E|constructor].
Qed.

(** X1: whatever the state, the bytes readStream stores are at most [len]
    and, on a text stream, hold no carriage return; at the end of the stream
    it stores nothing and leaves the stream as it is; otherwise, with the
    filled part inside the buffer, it stores the first [len] of the unread
    bytes [buffer[currentPtr .. currentInBuffer)], without their carriage
    returns on a text stream. *)
Theorem readStream_returns_unread_prefix (s : WinInStream) (len : nat)
  (out : list byte) (s' : WinInStream) :
  readStream s len = (Ok out, s') ->
  (length out <= len)%nat
  /\ (isText s = true -> Forall (fun b => b <> CR) out)
  /\ (endOfStream s = true -> out = [] /\ s' = s)
  /\ (endOfStream s = false ->
      (currentInBuffer s <= length (buffer s))%nat ->
      out = take len (textFilter (isText s)
                        (slice (buffer s) (currentPtr s) (currentInBuffer s)))).
Proof.
  intros H. split; [eapply readStream_length; exact H|].
  unfold readStream in H.
  destruct (endOfStream s) eqn:He.
  { inversion H; subst. repeat split; try constructor; discriminate. }
  pose proof (copyLoop_noCR (buffer s) (currentInBuffer s) len
                (currentInBuffer s - currentPtr s) (currentPtr s) []
                (Forall_nil_2 _)) as Hcr.
  pose proof (copyLoop_length (isText s) (buffer s) (currentInBuffer s) len
                (currentInBuffer s - currentPtr s) (currentPtr s) []) as Hk.
  assert (Hout : forall p base,
            copyLoop (currentInBuffer s - currentPtr s) (isText s) (buffer s)
                     (currentInBuffer s) len (currentPtr s) [] = (p, base) ->
            base = out).
  { intros p base E. rewrite E in H.
    destruct (_ =? _)%nat.
    - destruct (beginReading _) as [[[]|e] s2]; inversion H; reflexivity.
    - inversion H; reflexivity. }
  split; [|split; [discriminate|]].
  - intros Ht. rewrite Ht in Hout.
    destruct (copyLoop _ true _ _ _ _ _) as [p base] eqn:E.
    rewrite <- (Hout p base eq_refl). simpl in Hcr.
    eapply Forall_impl; [exact Hcr|].
    intros b Hb ->. vm_compute in Hb. discriminate.
  - intros _ Hbuf.
    destruct (copyLoop_spec (isText s) (buffer s) (currentInBuffer s) len
                (currentInBuffer s - currentPtr s) (currentPtr s) [])
      as (p & base & E & Hp1 & Hp2 & Hbase & Hfull); [lia|exact Hbuf|].
    rewrite E in Hk. simpl in Hk, Hbase. specialize (Hk ltac:(lia)).
    rewrite <- (Hout p base E).
    destruct (Nat.lt_ge_cases p (currentInBuffer s)) as [Hlt|Hge].
    + rewrite (slice_app (buffer s) (currentPtr s) p (currentInBuffer s))
        by lia.
      rewrite textFilter_app, <- Hbase.
      rewrite take_app_length'; [reflexivity|]. specialize (Hfull Hlt). lia.
    + assert (Hsl : slice (buffer s) (currentPtr s) (currentInBuffer s)
                    = slice (buffer s) (currentPtr s) p).
      { unfold slice. destruct (Nat.le_gt_cases (currentPtr s) (currentInBuffer s)).
        - replace p with (currentInBuffer s) by lia. reflexivity.
        - replace (currentInBuffer s - currentPtr s)%nat with 0%nat by lia.
          replace (p - currentPtr s)%nat with 0%nat by lia. reflexivity. }
      rewrite Hsl, <- Hbase. symmetry. apply take_ge. exact Hk.
Qed.

Lemma readStream_returns_unread_prefix_witness :
  readStream loaded_abc 2 = (Ok ["a"%byte; "b"%byte], set_currentPtr 2 loaded_abc)
  /\ ["a"%byte; "b"%byte]
     = take 2 (textFilter (isText loaded_abc)
                 (slice (buffer loaded_abc) (currentPtr loaded_abc)
                        (currentInBuffer loaded_abc))).
Proof.
  assert (H : readStream loaded_abc 2
              = (Ok ["a"%byte; "b"%byte], set_currentPtr 2 loaded_abc))
    by (vm_compute; reflexivity).
  split; [exact H|].
  apply (proj2 (proj2 (proj2
           (readStream_returns_unread_prefix loaded_abc 2 _ _ H)))).
  - reflexivity.
  - vm_compute. lia.
Defined.

(** ** The end of the stream *)

(** X2: once [endOfStream] is set, the readiness test and the wait return
    at once, and every sequence of reads returns one empty string per call
    and leaves the stream exactly as it was: nothing but setPos takes a
    stream out of the end of the stream. *)
Theorem reads_at_end_of_stream (s : WinInStream) (fuel : nat)
  (lens : list nat) :
  endOfStream s = true ->
  isAvailable (S fuel) s = Some (Ok true, s)
  /\ waitUntilAvailable (S fuel) s = Some (Ok tt, s)
  /\ readAll (S fuel) s lens = Some (Ok (map (fun _ => []) lens), s).
Proof.
  intros He.
  assert (Hr : readyNow s = true) by (unfold readyNow; rewrite He; apply orb_true_r).
  split; [apply isAvailable_ready; exact Hr|].
  split; [apply waitUntilAvailable_ready; exact Hr|].
  induction lens as [|len lens IH]; [reflexivity|].
  simpl readAll. rewrite (readWhenAvailable_ready fuel s len Hr), IH.
  reflexivity.
Qed.

Lemma reads_at_end_of_stream_witness :
  endOfStream ended_abc = true
  /\ readAll 1 ended_abc [5; 0; 7]%nat = Some (Ok [[]; []; []], ended_abc).
Proof.
  assert (H : endOfStream ended_abc = true) by reflexivity.
  split; [exact H|].
  exact (proj2 (proj2 (reads_at_end_of_stream ended_abc 0 [5; 0; 7]%nat H))).
Defined.

(** ** Waiting, then testing *)

Lemma isAvailable_true_again fuel : forall s s1,
  isAvailable fuel s = Some (Ok true, s1) ->
  exists s2,
    isAvailable 1 s1 = Some (Ok true, s2)
    /\ currentInBuffer s2 = currentInBuffer s1
    /\ currentPtr s2 = currentPtr s1
    /\ endOfStream s2 = endOfStream s1.
Proof.
  induction fuel as [|fuel IH]; intros s s1 H; [discriminate|].
  destruct ((currentInBuffer s <? currentPtr s)%nat || endOfStream s) eqn:E0.
  { rewrite isAvailable_ready in H by exact E0.
    inversion H; subst. exists s1. rewrite isAvailable_ready by exact E0.
    auto. }
  destruct (Internal (overlap s)) as [k o|n|err] eqn:EI.
  - rewrite (isAvailable_pending _ _ _ _ E0 EI) in H. discriminate.
  - rewrite (isAvailable_success _ _ _ E0 EI) in H.
    destruct (currentPtr (noteCompleted n s)
              <? currentInBuffer (noteCompleted n s))%nat eqn:E1.
    + inversion H; subst. clear H.
      destruct (noteCompleted_fields n s)
        as (Hf & Hc & He & Hi & Ht & Hb & _).
      apply orb_false_iff in E0. destruct E0 as [E0 E0'].
      assert (Hc2 : currentPtr (noteCompleted n (noteCompleted n s))
                    = currentPtr (noteCompleted n s)).
      { destruct (noteCompleted_fields n (noteCompleted n s)) as (_ & Hc' & _).
        rewrite Hc', Ht, Hb. rewrite Hc. apply skipCR_stable. lia. }
      exists (noteCompleted n (noteCompleted n s)).
      rewrite (isAvailable_success 0 (noteCompleted n s) n).
      * rewrite Hc2.
        replace (currentInBuffer (noteCompleted n (noteCompleted n s)))
          with (currentInBuffer (noteCompleted n s))
          by reflexivity.
        rewrite E1. split; [reflexivity|]. split; [reflexivity|].
        split; reflexivity.
      * rewrite He, E0', orb_false_r. apply Nat.ltb_ge.
        apply Nat.ltb_lt in E1. lia.
      * rewrite Hi. exact EI.
    + destruct (beginReading (noteCompleted n s)) as [[[]|e] s2] eqn:EB.
      * eapply IH. exact H.
      * discriminate.
  - rewrite (isAvailable_failed _ _ _ E0 EI) in H.
    destruct (err =? ERROR_HANDLE_EOF) eqn:E1.
    + inversion H; subst. exists (set_endOfStream true s).
      rewrite isAvailable_ready by apply orb_true_r. auto.
    + destruct (err =? ERROR_IO_INCOMPLETE); discriminate.
Qed.

(** X3: when waitUntilAvailable has returned, the stream reports input
    available: isAvailable answers true within one turn of its loop, a
    second wait returns at once, without a pause, and both leave
    [currentInBuffer], [currentPtr] and the end-of-stream flag as the wait
    left them. *)
Theorem waitUntilAvailable_then_available (fuel : nat) (s s1 : WinInStream) :
  waitUntilAvailable fuel s = Some (Ok tt, s1) ->
  exists s2,
    isAvailable 1 s1 = Some (Ok true, s2)
    /\ waitUntilAvailable 1 s1 = Some (Ok tt, s2)
    /\ currentInBuffer s2 = currentInBuffer s1
    /\ currentPtr s2 = currentPtr s1
    /\ endOfStream s2 = endOfStream s1.
Proof.
  revert s. induction fuel as [|fuel IH]; intros s H; [discriminate|].
  rewrite waitUntilAvailable_S in H.
  destruct (isAvailable (S fuel) s) as [[[[]|e] s3]|] eqn:E;
    try discriminate.
  - inversion H; subst s3.
    destruct (isAvailable_true_again _ _ _ E) as (s2 & H2 & Hrest).
    exists s2. split; [exact H2|]. split; [|exact Hrest].
    rewrite waitUntilAvailable_S, H2. reflexivity.
  - eapply IH. exact H.
Qed.

Lemma waitUntilAvailable_then_available_witness :
  waitUntilAvailable 5 pending_abc = Some (Ok tt, arrived_abc)
  /\ exists s2, isAvailable 1 arrived_abc = Some (Ok true, s2)
                /\ waitUntilAvailable 1 arrived_abc = Some (Ok tt, s2)
                /\ currentInBuffer s2 = currentInBuffer arrived_abc
                /\ currentPtr s2 = currentPtr arrived_abc
                /\ endOfStream s2 = endOfStream arrived_abc.
Proof.
  assert (H : waitUntilAvailable 5 pending_abc = Some (Ok tt, arrived_abc))
    by (vm_compute; reflexivity).
  split; [exact H|].
  exact (waitUntilAvailable_then_available 5 pending_abc arrived_abc H).
Defined.

(** ** The stream never leaves its buffer *)

Lemma complete_within f o n buf st buf' :
  length buf = n -> complete f o n buf = (st, buf') ->
  length buf' = n
  /\ match st with IoSuccess k => (k <= n)%nat | _ => True end.
Proof.
  intros Hl. unfold complete.
  destruct (_ <=? _); intros H; inversion H; subst; [auto|].
  pose proof (chunk_length f o (length buf)) as Hc.
  rewrite length_app, length_drop. split; lia.
Qed.

Lemma beginReading_within s r s' :
  withinBuffer s -> beginReading s = (r, s') ->
  withinBuffer s' /\ buffSize s' = buffSize s
  /\ currentInBuffer s' = currentInBuffer s.
Proof.
  intros (Hl & Hf & Hi). unfold beginReading, ReadFile.
  destruct (kFault (hStream s)) as [err|].
  { destruct (err =? ERROR_HANDLE_EOF); [|destruct (err =? ERROR_IO_PENDING)];
      intros H; inversion H; subst; unfold withinBuffer; simpl; auto. }
  destruct (kLatency (hStream s)).
  - destruct (complete _ _ _ _) as [st buf'] eqn:E.
    destruct (complete_within _ _ _ _ _ _ Hl E) as [Hl' Hst].
    destruct st as [k o|k|e]; simpl.
    + intros H; inversion H; subst; unfold withinBuffer; simpl; auto.
    + intros H; inversion H; subst; unfold withinBuffer; simpl; auto.
    + destruct (e =? ERROR_HANDLE_EOF); [|destruct (e =? ERROR_IO_PENDING)];
        intros H; inversion H; subst; unfold withinBuffer; simpl; auto.
  - simpl. intros H; inversion H; subst; unfold withinBuffer; simpl; auto.
Qed.

Lemma ThreadPauseForIO_within s :
  withinBuffer s -> withinBuffer (ThreadPauseForIO s).
Proof.
  intros (Hl & Hf & Hi). unfold ThreadPauseForIO, progress.
  destruct (Internal (overlap s)) as [[|k] o|n|e] eqn:EI.
  - destruct (complete _ _ _ _) as [st buf'] eqn:E.
    destruct (complete_within _ _ _ _ _ _ Hl E) as [Hl' Hst].
    unfold withinBuffer; simpl; auto.
  - unfold withinBuffer; simpl; auto.
  - unfold withinBuffer; simpl. rewrite EI. auto.
  - unfold withinBuffer; simpl. rewrite EI. auto.
Qed.

Lemma noteCompleted_within n s :
  withinBuffer s -> Internal (overlap s) = IoSuccess n ->
  withinBuffer (noteCompleted n s).
Proof.
  intros (Hl & Hf & Hi) EI. rewrite EI in Hi.
  unfold withinBuffer; simpl. rewrite EI. auto.
Qed.

Lemma isAvailable_within fuel : forall s r s',
  withinBuffer s -> isAvailable fuel s = Some (r, s') -> withinBuffer s'.
Proof.
  induction fuel as [|fuel IH]; intros s r s' Hw H; [discriminate|].
  destruct ((currentInBuffer s <? currentPtr s)%nat || endOfStream s) eqn:E0.
  { rewrite isAvailable_ready in H by exact E0. inversion H; subst; exact Hw. }
  destruct (Internal (overlap s)) as [k o|n|err] eqn:EI.
  - rewrite (isAvailable_pending _ _ _ _ E0 EI) in H.
    inversion H; subst; exact Hw.
  - rewrite (isAvailable_success _ _ _ E0 EI) in H.
    pose proof (noteCompleted_within n s Hw EI) as Hn.
    destruct (_ <? _)%nat; [inversion H; subst; exact Hn|].
    destruct (beginReading (noteCompleted n s)) as [[[]|e] s2] eqn:EB.
    + eapply IH; [|exact H]. eapply beginReading_within; eassumption.
    + inversion H; subst. eapply beginReading_within; eassumption.
  - rewrite (isAvailable_failed _ _ _ E0 EI) in H.
    destruct (err =? ERROR_HANDLE_EOF);
      [|destruct (err =? ERROR_IO_INCOMPLETE)];
      inversion H; subst; exact Hw.
Qed.

Lemma waitUntilAvailable_within fuel : forall s r s',
  withinBuffer s -> waitUntilAvailable fuel s = Some (r, s') ->
  withinBuffer s'.
Proof.
  induction fuel as [|fuel IH]; intros s r s' Hw H; [discriminate|].
  rewrite waitUntilAvailable_S in H.
  destruct (isAvailable (S fuel) s) as [[r1 s1]|] eqn:E; [|discriminate].
  pose proof (isAvailable_within _ _ _ _ Hw E) as Hw1.
  destruct r1 as [[]|e].
  - inversion H; subst; exact Hw1.
  - eapply IH; [|exact H]. apply ThreadPauseForIO_within. exact Hw1.
  - inversion H; subst; exact Hw1.
Qed.

Lemma readStream_within s len r s' :
  withinBuffer s -> readStream s len = (r, s') -> withinBuffer s'.
Proof.
  intros Hw. unfold readStream.
  destruct (endOfStream s); [intros H; inversion H; subst; exact Hw|].
  destruct (copyLoop _ _ _ _ _ _ _) as [p base].
  destruct Hw as (Hl & Hf & Hi).
  destruct (_ =? _)%nat.
  - destruct (beginReading _) as [[[]|e] s2] eqn:EB; intros H;
      inversion H; subst;
      (eapply beginReading_within; [|exact EB]);
      unfold withinBuffer; simpl; (split; [exact Hl|split; [lia|exact Hi]]).
  - intros H; inversion H; subst. unfold withinBuffer; simpl. auto.
Qed.

Lemma waitForEvent_within fuel : forall s s',
  withinBuffer s -> waitForEvent fuel s = Some s' -> withinBuffer s'.
Proof.
  induction fuel as [|fuel IH]; intros s s' Hw H; [discriminate|].
  simpl in H. destruct (eventTimesOut (overlap s)).
  - eapply IH; [|exact H]. apply ThreadPauseForIO_within. exact Hw.
  - inversion H; subst; exact Hw.
Qed.

Lemma setPos_within fuel s pos r s' :
  withinBuffer s -> setPos fuel s pos = Some (r, s') -> withinBuffer s'.
Proof.
  intros Hw. unfold setPos.
  destruct (negb _); [intros H; inversion H; subst; exact Hw|].
  destruct (waitForEvent fuel s) as [s1|] eqn:E; [|discriminate].
  pose proof (waitForEvent_within _ _ _ Hw E) as (Hl & Hf & Hi).
  intros H. inversion H as [H1]. eapply beginReading_within; [|exact H1].
  unfold withinBuffer; simpl. split; [exact Hl|split; [lia|exact Hi]].
Qed.

Lemma readAll_within fuel lens : forall s r s',
  withinBuffer s -> readAll fuel s lens = Some (r, s') -> withinBuffer s'.
Proof.
  induction lens as [|len lens IH]; intros s r s' Hw H.
  - inversion H; subst; exact Hw.
  - simpl in H. unfold readWhenAvailable in H.
    destruct (waitUntilAvailable fuel s) as [[r1 s1]|] eqn:E; [|discriminate].
    pose proof (waitUntilAvailable_within _ _ _ _ Hw E) as Hw1.
    destruct r1 as [[]|e]; [|inversion H; subst; exact Hw1].
    destruct (readStream s1 len) as [r2 s2] eqn:E2.
    pose proof (readStream_within _ _ _ _ Hw1 E2) as Hw2.
    destruct r2 as [out|e]; [|inversion H; subst; exact Hw2].
    destruct (readAll fuel s2 lens) as [[r3 s3]|] eqn:E3; [|discriminate].
    pose proof (IH _ _ _ Hw2 E3) as Hw3.
    destruct r3; inversion H; subst; exact Hw3.
Qed.

(** X4: the buffer bounds are an invariant of the stream.  When the buffer
    has [buffSize] bytes, [currentInBuffer] is at most [buffSize] and a
    completed read reports at most [buffSize] bytes, the same holds after
    isAvailable, waitUntilAvailable, a pause of the scheduler, readStream,
    setPos and any sequence of reads, whatever they return (also when they
    raise): the copy loop of readStream never reads past the buffer. *)
Theorem withinBuffer_preserved (s : WinInStream) :
  withinBuffer s ->
  (forall fuel r s', isAvailable fuel s = Some (r, s') -> withinBuffer s')
  /\ (forall fuel r s',
        waitUntilAvailable fuel s = Some (r, s') -> withinBuffer s')
  /\ withinBuffer (ThreadPauseForIO s)
  /\ (forall len r s', readStream s len = (r, s') -> withinBuffer s')
  /\ (forall fuel pos r s',
        setPos fuel s pos = Some (r, s') -> withinBuffer s')
  /\ (forall fuel lens r s',
        readAll fuel s lens = Some (r, s') -> withinBuffer s').
Proof.
  intros Hw.
  split; [intros; eapply isAvailable_within; eassumption|].
  split; [intros; eapply waitUntilAvailable_within; eassumption|].
  split; [apply ThreadPauseForIO_within; exact Hw|].
  split; [intros; eapply readStream_within; eassumption|].
  split; [intros; eapply setPos_within; eassumption|].
  intros; eapply readAll_within; eassumption.
Qed.

Lemma withinBuffer_preserved_witness :
  withinBuffer pending_abc /\ withinBuffer (ThreadPauseForIO pending_abc).
Proof.
  assert (H : withinBuffer pending_abc).
  { unfold withinBuffer. split; [vm_compute; reflexivity|].
    split; [vm_compute; lia|exact I]. }
  split; [exact H|].
  exact (proj1 (proj2 (proj2 (withinBuffer_preserved pending_abc H)))).
Defined.

(** ** Opening *)



(** ** The first read of a file *)

(** A stream openEntry returns on a disk that answers is waiting for its
    first read, issued at position 0 with the buffer empty. *)
Lemma openEntry_freshRead fs name f txt :
  fs !! name = Some f -> kFault f = None ->
  Z.of_nat (length (kData f)) < 2 ^ 64 ->
  exists s0,
    openEntry fs name txt = Ok s0
    /\ freshRead s0 /\ hStream s0 = f /\ buffSize s0 = 4096%nat
    /\ isText s0 = txt /\ getOverlappedPos s0 = 0.
Proof.
  intros Hfs Hfault Hlen.
  unfold openEntry, CreateFile. rewrite Hfs.
  set (si := mkWinInStream f (repeat "000"%byte 4096) 4096 0 0 false txt
                           (mkOVERLAPPED (IoSuccess 0) 0 0)).
  change (beginReading _) with (beginReading si).
  assert (Hsi : sound si).
  { unfold sound, fileLen. simpl.
    change (getOverlappedPos si) with 0.
    repeat split; try assumption; lia. }
  destruct (beginReading_sound si Hsi)
    as (s0 & EB & Hs0 & Hi0 & Hh0 & Hb0 & Ht0 & Hf0 & Hc0 & Hp0 & He0).
  rewrite EB. exists s0. split; [reflexivity|].
  split.
  - split; [exact Hs0|]. split; [exact Hi0|]. split; [exact Hf0|].
    split; [exact Hc0|]. intros He. unfold fileLen. rewrite Hh0, Hp0.
    apply He0; [reflexivity|exact He].
  - split; [exact Hh0|]. split; [exact Hb0|]. split; [exact Ht0|exact Hp0].
Qed.

(** Waiting on such a stream and reading [k] bytes from it. *)
Lemma freshRead_first_read s k :
  freshRead s -> getOverlappedPos s = 0 ->
  exists fuel s1 s2,
    waitUntilAvailable fuel s = Some (Ok tt, s1)
    /\ readStream s1 k
       = (Ok (take k (textFilter (isText s)
                        (take (buffSize s) (kData (hStream s))))), s2).
Proof.
  intros Hfr Hpos.
  destruct (freshRead_wait s Hfr) as (fuel & s1 & Hw & Hcase).
  rewrite Hpos in Hcase.
  assert (Hc : chunk (hStream s) 0 (buffSize s)
               = take (buffSize s) (kData (hStream s))) by reflexivity.
  rewrite Hc in Hcase. clear Hc.
  set (c := take (buffSize s) (kData (hStream s))) in *.
  destruct Hcase as [(i & Hl & Hskip & Hs1 & _ & _ & Ht & _)|[Hr Hnil]].
  - destruct (readStream_loaded s1 c i k Hs1 Hl) as (s2 & ER & _).
    exists fuel, s1, s2. split; [exact Hw|]. rewrite ER, Ht.
    rewrite <- (take_drop i c) at 2. rewrite textFilter_app, Hskip.
    reflexivity.
  - exists fuel, s1, s1. split; [exact Hw|].
    rewrite (readStream_ready _ _ Hr), Hnil, take_nil. reflexivity.
Qed.

(** X6: the first read after opening.  For every file that exists and is
    read without an error of the operating system, of any size below 2^64,
    openEntry returns a stream and the first read of [k] bytes from it
    (wait, then readStream) returns the first [k] bytes of the first buffer
    load of 4096 bytes, without their carriage returns on a text stream. *)
Theorem open_then_first_read (fs : gmap string KFile) (name : string)
  (f : KFile) (txt : bool) (k : nat) :
  fs !! name = Some f -> kFault f = None ->
  Z.of_nat (length (kData f)) < 2 ^ 64 ->
  exists s0 fuel s',
    openEntry fs name txt = Ok s0
    /\ readWhenAvailable fuel s0 k
       = Some (Ok (take k (textFilter txt (take 4096 (kData f)))), s').
Proof.
  intros Hfs Hfault Hlen.
  destruct (openEntry_freshRead fs name f txt Hfs Hfault Hlen)
    as (s0 & EO & Hfr & Hh & Hb & Ht & Hp).
  destruct (freshRead_first_read s0 k Hfr Hp) as (fuel & s1 & s2 & Hw & ER).
  exists s0, fuel, s2. split; [exact EO|].
  unfold readWhenAvailable. rewrite Hw, ER, Hh, Hb, Ht. reflexivity.
Qed.

Lemma open_then_first_read_witness :
  exists s0 fuel s',
    openEntry someFiles "crlf" true = Ok s0
    /\ readWhenAvailable fuel s0 3
       = Some (Ok (take 3 (textFilter true (take 4096 bytes_crlf))), s').
Proof.
  apply (open_then_first_read someFiles "crlf" (diskFile bytes_crlf 1)
           true 3).
  - vm_compute. reflexivity.
  - reflexivity.
  - vm_compute. reflexivity.
Defined.

(** ** Closing, and what the entry point does with a closed stream *)



Lemma set_turn_same w : set_turn (turn w) w = w.
Proof. destruct w; reflexivity. Qed.

Section WorldFacts.
Variable TestAnyEvents : nat -> option Exn.
Variable poll : nat -> WinStreamObj -> Z -> Z.
Variable systemTime : nat -> Z.
Variable WinStream_isAvailable : CrtFile -> bool.
Variable external : IoOp -> World -> PolyWord -> PolyWord -> Res PolyWord * World.

(** readString through a word that holds the null pointer. *)
Lemma readString_closed fuel w stream args n :
  getPolyUnsigned args = Ok n -> targetOf w stream = 0 ->
  readString TestAnyEvents WinStream_isAvailable fuel w stream args
  = Some (closed, w).
Proof.
  intros Ha Hp. unfold readString. rewrite Ha.
  change (match stream with
          | Tagged 0 => standardInput w
          | _ => pointerIn w stream
          end) with (targetOf w stream).
  rewrite Hp. reflexivity.
Qed.

(** X7: closing a stream that is not a standard stream, through the word
    that points to it (code 7), when its closeEntry succeeds: the object is
    deleted and the word cleared, nothing else changes; a second close
    through the same word returns 0 and changes nothing; and the test for
    input (16), getPos (18), setPos (19) and the wait for input (27) through
    that word raise Stream is closed with ERROR_INVALID_HANDLE, as do the
    reads (10, 26) when their length argument is a valid unsigned, all
    leaving the world as it is. *)
Theorem IO_dispatch_c_use_after_close (fuel : nat) (w : World)
  (args : PolyWord) (cell p : Z) (o : WinStreamObj) :
  volatiles w !! cell = Some p -> p <> 0 ->
  p <> standardInput w -> p <> standardOutput w -> p <> standardError w ->
  streams w !! p = Some o -> obj_closeEntry o = Ok tt ->
  exists w1,
    IO_dispatch_c TestAnyEvents poll systemTime WinStream_isAvailable external
                  fuel w args (Volatile cell) 7 = Some (Ok (Tagged 0), w1)
    /\ streams w1 = delete p (streams w)
    /\ volatiles w1 = <[cell := 0]> (volatiles w)
    /\ sameBut p (set_volatiles (volatiles w1) w) w1
    /\ (forall args',
          IO_dispatch_c TestAnyEvents poll systemTime WinStream_isAvailable
                        external fuel w1 args' (Volatile cell) 7
          = Some (Ok (Tagged 0), w1))
    /\ (forall c args', In c [16; 18; 19; 27] ->
          IO_dispatch_c TestAnyEvents poll systemTime WinStream_isAvailable
                        external fuel w1 args' (Volatile cell) c
          = Some (Raise (SysErr "Stream is closed" ERROR_INVALID_HANDLE), w1))
    /\ (forall c args' n, In c [10; 26] -> getPolyUnsigned args' = Ok n ->
          IO_dispatch_c TestAnyEvents poll systemTime WinStream_isAvailable
                        external fuel w1 args' (Volatile cell) c
          = Some (Raise (SysErr "Stream is closed" ERROR_INVALID_HANDLE), w1)).
Proof.
  intros Hc Hp0 Hp1 Hp2 Hp3 Ho Hclose.
  set (w1 := clearCell (Volatile cell) (set_streams (delete p (streams w)) w)).
  assert (Hptr : pointerIn w (Volatile cell) = p)
    by (simpl; rewrite Hc; reflexivity).
  assert (Hptr1 : pointerIn w1 (Volatile cell) = 0)
    by (simpl; rewrite lookup_insert_eq; reflexivity).
  assert (Hs1 : streamOf w1 (Volatile cell) = None)
    by (unfold streamOf; rewrite Hptr1; reflexivity).
  exists w1. split.
  { unfold IO_dispatch_c.
    change (caseOf 7 dispatchTable) with (Some OpClose). cbv beta iota.
    unfold closeFile. rewrite Hptr.
    destruct (Z.eqb_spec p 0); [contradiction|].
    destruct (Z.eqb_spec p (standardInput w)); [contradiction|].
    destruct (Z.eqb_spec p (standardOutput w)); [contradiction|].
    destruct (Z.eqb_spec p (standardError w)); [contradiction|].
    simpl negb. simpl andb. cbv iota. rewrite Ho. simpl from_option.
    rewrite Hclose. reflexivity. }
  split; [reflexivity|]. split; [reflexivity|].
  split.
  { repeat split. intros q' Hq. simpl. apply lookup_delete_ne. congruence. }
  split.
  { intros args'. unfold IO_dispatch_c.
    change (caseOf 7 dispatchTable) with (Some OpClose). cbv beta iota.
    unfold closeFile. rewrite Hptr1. reflexivity. }
  split.
  { intros c args' Hin. unfold IO_dispatch_c.
    destruct Hin as [<- | [<- | [<- | [<- | []]]]].
    - change (caseOf 16 dispatchTable) with (Some OpCanInput).
      cbv beta iota. rewrite Hs1. reflexivity.
    - change (caseOf 18 dispatchTable) with (Some OpGetPos).
      cbv beta iota. rewrite Hs1. reflexivity.
    - change (caseOf 19 dispatchTable) with (Some OpSetPos).
      cbv beta iota. rewrite Hs1. reflexivity.
    - change (caseOf 27 dispatchTable) with (Some OpWaitInput).
      cbv beta iota. rewrite Hs1. reflexivity. }
  intros c args' n Hin Ha. unfold IO_dispatch_c.
  destruct Hin as [<- | [<- | []]].
  - change (caseOf 10 dispatchTable) with (Some OpReadTextString).
    cbv beta iota. apply (readString_closed _ _ _ _ n Ha). exact Hptr1.
  - change (caseOf 26 dispatchTable) with (Some OpReadBinString).
    cbv beta iota. apply (readString_closed _ _ _ _ n Ha). exact Hptr1.
Qed.
(** ** What a stream operation may change *)




(** ** Asynchronous events *)

(** X9: an asynchronous event that is pending when a blocking operation is
    entered is raised before anything is polled, waited for or read, and
    the world stays as it is: the three polls (23, 24, 25) whatever their
    request, the reads (10, 26) of a valid length from an open stream, and
    the wait for input (27) on an open stream. *)
Theorem IO_dispatch_c_pending_event (fuel : nat) (w : World)
  (args strm : PolyWord) (e : Exn) :
  TestAnyEvents (turn w) = Some e ->
  (forall c, In c [23; 24; 25] ->
     IO_dispatch_c TestAnyEvents poll systemTime WinStream_isAvailable
                   external (S fuel) w args strm c = Some (Raise e, w))
  /\ (forall c n o, In c [10; 26] ->
        getPolyUnsigned args = Ok n -> targetOf w strm <> 0 ->
        streams w !! targetOf w strm = Some o ->
        IO_dispatch_c TestAnyEvents poll systemTime WinStream_isAvailable
                      external fuel w args strm c = Some (Raise e, w))
  /\ (forall o, streamOf w strm = Some o ->
        IO_dispatch_c TestAnyEvents poll systemTime WinStream_isAvailable
                      external fuel w args strm 27 = Some (Raise e, w)).
Proof.
  intros He. split; [|split].
  - intros c Hin. unfold IO_dispatch_c.
    destruct Hin as [<- | [<- | [<- | []]]].
    + change (caseOf 23 dispatchTable) with (Some OpPollForever).
      cbv beta iota. simpl pollDescriptors. rewrite He. simpl.
      rewrite set_turn_same. reflexivity.
    + change (caseOf 24 dispatchTable) with (Some OpPollTimed).
      cbv beta iota. simpl pollDescriptors. rewrite He. simpl.
      rewrite set_turn_same. reflexivity.
    + change (caseOf 25 dispatchTable) with (Some OpPollNow).
      cbv beta iota. simpl pollDescriptors. rewrite He. simpl.
      rewrite set_turn_same. reflexivity.
  - intros c n o Hin Ha Hp Ho.
    assert (Hr : readString TestAnyEvents WinStream_isAvailable fuel w strm
                            args = Some (Raise e, w)).
    { unfold readString. rewrite Ha.
      change (match strm with
              | Tagged 0 => standardInput w
              | _ => pointerIn w strm
              end) with (targetOf w strm).
      destruct (Z.eqb_spec (targetOf w strm) 0); [contradiction|].
      rewrite Ho, He. reflexivity. }
    unfold IO_dispatch_c. destruct Hin as [<- | [<- | []]].
    + change (caseOf 10 dispatchTable) with (Some OpReadTextString).
      cbv beta iota. exact Hr.
    + change (caseOf 26 dispatchTable) with (Some OpReadBinString).
      cbv beta iota. exact Hr.
  - intros o Ho. unfold IO_dispatch_c.
    change (caseOf 27 dispatchTable) with (Some OpWaitInput).
    cbv beta iota. rewrite Ho, He. reflexivity.
Qed.
End WorldFacts.

Lemma IO_dispatch_c_use_after_close_witness :
  exists w1,
    IO_dispatch_c noEvents pollPipe clockZero alwaysAvailable noExternal
                  1 world3 (Tagged 0) (Volatile 2) 7 = Some (Ok (Tagged 0), w1)
    /\ IO_dispatch_c noEvents pollPipe clockZero alwaysAvailable noExternal
                     1 w1 (Tagged 5) (Volatile 2) 10
       = Some (Raise (SysErr "Stream is closed" ERROR_INVALID_HANDLE), w1).
Proof.
  destruct (IO_dispatch_c_use_after_close noEvents pollPipe clockZero
              alwaysAvailable noExternal 1 world3 (Tagged 0) 2 101
              (CopyInStream (pipeWith ["a"%byte])))
    as (w1 & H1 & _ & _ & _ & _ & _ & H2);
    [vm_compute; reflexivity | lia | vm_compute; lia | vm_compute; lia
    | vm_compute; lia | vm_compute; reflexivity | reflexivity |].
  exists w1. split; [exact H1|].
  apply (H2 10 (Tagged 5) 5%nat); [left; reflexivity|reflexivity].
Defined.


Lemma IO_dispatch_c_pending_event_witness :
  interrupted (turn world3) = Some Interrupt
  /\ IO_dispatch_c interrupted pollPipe clockZero alwaysAvailable noExternal
                   1 world3 pollArgs3 (Tagged 0) 23
     = Some (Raise Interrupt, world3).
Proof.
  assert (H : interrupted (turn world3) = Some Interrupt) by reflexivity.
  split; [exact H|].
  apply (proj1 (IO_dispatch_c_pending_event interrupted pollPipe clockZero
                  alwaysAvailable noExternal 0 world3 pollArgs3 (Tagged 0)
                  Interrupt H) 23).
  left. reflexivity.
Defined.

(** ** The policies of the multi-descriptor poll *)


Section PollPolicies.
Variable TestAnyEvents : nat -> option Exn.
Variable poll : nat -> WinStreamObj -> Z -> Z.
Variable systemTime : nat -> Z.






End PollPolicies.



(** ** Reading from a pipe *)

(** What the wait on a pipe returns: the pipe after the pauses it took,
    with what arrived during them added, and with bytes waiting. *)
Lemma WinCopyInStream_waitUntilAvailable_spec fuel : forall f f',
  fdPeekFails f = false ->
  WinCopyInStream_waitUntilAvailable fuel f = Some f' ->
  fdData f' <> [] /\ fdReadError f' = fdReadError f
  /\ fdCloseError f' = fdCloseError f /\ fdPeekFails f' = false
  /\ exists k, fdData f' = fdData f ++ concat (take k (fdArrivals f))
               /\ fdArrivals f' = drop k (fdArrivals f).
Proof.
  induction fuel as [|fuel IH]; intros f f' Hpk H; [discriminate|].
  simpl in H. unfold WinCopyInStream_isAvailable in H. rewrite Hpk in H.
  simpl in H. destruct (fdData f) as [|b l] eqn:Ed; simpl in H.
  - destruct (fdArrivals f) as [|a rest] eqn:Ea.
    + assert (Hsame : pipePause f = f) by (unfold pipePause; rewrite Ea; reflexivity).
      rewrite Hsame in H.
      destruct (IH f f' Hpk H) as (H1 & H2 & H3 & H4 & k & H5 & H6).
      repeat (split; [assumption|]). exists k.
      rewrite Ed, Ea in H5. rewrite Ea in H6. split; assumption.
    + assert (Hp : pipePause f
                   = mkCrtFile (fdData f ++ a) rest (fdReadError f)
                               (fdCloseError f) (fdPeekFails f))
        by (unfold pipePause; rewrite Ea; reflexivity).
      rewrite Hp in H.
      apply IH in H as (H1 & H2 & H3 & H4 & k & H5 & H6); [|exact Hpk].
      repeat (split; [assumption|]). exists (S k). simpl in H5, H6 |- *.
      rewrite H5, Ed. simpl. split; [reflexivity|exact H6].
  - inversion H; subst f'. rewrite Ed.
    split; [discriminate|]. split; [reflexivity|]. split; [reflexivity|].
    split; [exact Hpk|].
    exists 0%nat. simpl. rewrite app_nil_r. split; reflexivity.
Qed.

Section PipeFacts.
Variable TestAnyEvents : nat -> option Exn.
Variable WinStream_isAvailable : CrtFile -> bool.

(** X13: a read of at least one byte from an open pipe (a WinCopyInStream
    whose PeekNamedPipe and read do not fail), with no event pending: when
    the wait for input returns, readString returns at least one byte and at
    most the number asked for and 102400; the bytes are the first of those
    waiting in the pipe, the others stay in the pipe in order, and what was
    waiting is what the pipe held before followed by what arrived during
    the pauses of the wait.  Nothing else in the world changes. *)
Theorem readString_pipe (fuel : nat) (w : World) (stream args : PolyWord)
  (n : nat) (f f' : CrtFile) :
  getPolyUnsigned args = Ok n -> (1 <= n)%nat ->
  targetOf w stream <> 0 ->
  streams w !! targetOf w stream = Some (CopyInStream f) ->
  TestAnyEvents (turn w) = None ->
  fdPeekFails f = false -> fdReadError f = None ->
  WinCopyInStream_waitUntilAvailable fuel f = Some f' ->
  exists got rest,
    readString TestAnyEvents WinStream_isAvailable fuel w stream args
    = Some (Ok (PolyBytes got),
            putStream (targetOf w stream) (CopyInStream rest) w)
    /\ (1 <= length got)%nat /\ (length got <= n)%nat
    /\ Z.of_nat (length got) <= 102400
    /\ got ++ fdData rest = fdData f'
    /\ exists k, fdData f' = fdData f ++ concat (take k (fdArrivals f))
                 /\ fdArrivals rest = drop k (fdArrivals f).
Proof.
  intros Ha Hn Hp Ho Hev Hpk Hre Hw.
  destruct (WinCopyInStream_waitUntilAvailable_spec _ _ _ Hpk Hw)
    as (Hne & Hre' & _ & _ & k & Hk1 & Hk2).
  rewrite Hre in Hre'.
  remember (if 102400 <? Z.of_nat n then Z.to_nat 102400 else n) as len
    eqn:Elen.
  assert (Hlen : (1 <= len)%nat /\ (len <= n)%nat /\ Z.of_nat len <= 102400).
  { subst len. destruct (Z.ltb_spec 102400 (Z.of_nat n)); lia. }
  exists (take len (fdData f')),
         (mkCrtFile (drop len (fdData f')) (fdArrivals f') (fdReadError f')
                    (fdCloseError f') (fdPeekFails f')).
  split.
  { unfold readString. rewrite Ha.
    change (match stream with
            | Tagged 0 => standardInput w
            | _ => pointerIn w stream
            end) with (targetOf w stream).
    destruct (Z.eqb_spec (targetOf w stream) 0); [contradiction|].
    rewrite Ho, Hev. unfold obj_waitUntilAvailable. rewrite Hw.
    rewrite <- Elen. unfold obj_readStream, WinStream_readStream, crt_read.
    rewrite Hre'. 
    destruct (Z.ltb_spec (Z.of_nat (length (take len (fdData f')))) 0);
      [lia|]. reflexivity. }
  assert (Hd : (1 <= length (fdData f'))%nat)
    by (destruct (fdData f'); [contradiction|simpl; lia]).
  rewrite length_take. split; [lia|]. split; [lia|]. split; [lia|].
  split; [apply take_drop|]. exists k. split; [exact Hk1|exact Hk2].
Qed.
End PipeFacts.

Lemma readString_pipe_witness :
  exists got rest,
    readString noEvents alwaysAvailable 3 world3_arriving (Volatile 1)
               (Tagged 2)
    = Some (Ok (PolyBytes got),
            putStream (targetOf world3_arriving (Volatile 1))
                      (CopyInStream rest) world3_arriving)
    /\ (1 <= length got)%nat /\ (length got <= 2)%nat
    /\ Z.of_nat (length got) <= 102400
    /\ got ++ fdData rest = fdData (pipeWith bytes_abc)
    /\ exists k, fdData (pipeWith bytes_abc)
                 = fdData pipeArriving ++ concat (take k (fdArrivals pipeArriving))
                 /\ fdArrivals rest = drop k (fdArrivals pipeArriving).
Proof.
  apply (readString_pipe noEvents alwaysAvailable 3 world3_arriving
           (Volatile 1) (Tagged 2) 2 pipeArriving (pipeWith bytes_abc)).
  - reflexivity.
  - lia.
  - vm_compute. lia.
  - vm_compute. reflexivity.
  - reflexivity.
  - reflexivity.
  - reflexivity.
  - vm_compute. reflexivity.
Defined.

(** ** Going through a directory *)

Lemma namesOf_cons e es :
  namesOf (e :: es)
  = if isDotArc e then namesOf es else cFileName e :: namesOf es.
Proof.
  unfold namesOf. rewrite filter_cons.
  destruct (isDotArc e) eqn:E.
  - destruct (decide (true = false)); [discriminate|reflexivity].
  - destruct (decide (false = false)); [reflexivity|contradiction].
Qed.

Lemma readDirectory_exhausted d :
  fFindSucceeded d = false -> readDirectory (Some d) = (Ok EmptyString, Some d).
Proof. intros H. unfold readDirectory. rewrite H. reflexivity. Qed.

(** One call on a stream that has entries left: it returns the first name
    still to be returned and leaves the others, or it finds that none is
    left. *)
Lemma readDirectory_listing es : forall first,
  exists r d',
    readDirectory (Some (listing first es)) = (Ok r, Some d')
    /\ ((exists first' es',
           d' = listing first' es'
           /\ namesOf (first :: es) = r :: namesOf (first' :: es'))
        \/ (fFindSucceeded d' = false
            /\ (namesOf (first :: es) = [r]
                \/ (namesOf (first :: es) = [] /\ r = EmptyString)))).
Proof.
  unfold readDirectory, listing. simpl fFindSucceeded. simpl negb.
  cbv iota. simpl hFind. simpl lastFind.
  induction es as [|e es IH]; intros first.
  - simpl. eexists _, _. split; [reflexivity|]. right.
    split; [reflexivity|]. rewrite namesOf_cons.
    destruct (isDotArc first); simpl; [right|left]; auto.
  - rewrite namesOf_cons. simpl map. simpl readDirectoryLoop.
    destruct (isDotArc first); simpl negb; cbv iota.
    + apply IH.
    + eexists _, _. split; [reflexivity|]. left.
      exists e, es. split; reflexivity.
Qed.

Lemma take_repeat_min {A : Type} (x : A) : forall n m,
  take n (repeat x m) = repeat x (n `min` m).
Proof.
  induction n as [|n IH]; intros [|m]; simpl; try reflexivity.
  f_equal. apply IH.
Qed.

Lemma take_padded {A : Type} (x : A) (l : list A) : forall n m,
  (n <= m)%nat -> take n (l ++ repeat x m) = take n (l ++ repeat x n).
Proof.
  induction l as [|a l IH]; intros n m Hle; simpl.
  - rewrite !take_repeat_min. f_equal. lia.
  - destruct n as [|n]; simpl; [reflexivity|]. f_equal.
    rewrite (IH n m) by lia. symmetry. apply (IH n (S n)). lia.
Qed.

Lemma readDirectoryN_S n pData :
  readDirectoryN (S n) pData
  = let '(r, pData) := readDirectory pData in
    let '(rs, pData) := readDirectoryN n pData in
    (r :: rs, pData).
Proof. reflexivity. Qed.

Lemma readDirectoryN_exhausted n : forall d,
  fFindSucceeded d = false ->
  readDirectoryN n (Some d) = (repeat (Ok EmptyString) n, Some d).
Proof.
  induction n as [|n IH]; intros d H; [reflexivity|].
  rewrite readDirectoryN_S, (readDirectory_exhausted d H), (IH d H).
  reflexivity.
Qed.

(** X14: going through a directory.  On a directory stream whose search
    reports its entries without an error, the successive readDirectory
    calls return the names of the entries in the order of the search,
    without those of the current and the parent arc, each once, and after
    them the empty string, however often the call is repeated. *)
Theorem readDirectoryN_enumerates (n : nat) (first : WIN32_FIND_DATA)
  (es : list WIN32_FIND_DATA) :
  fst (readDirectoryN n (Some (listing first es)))
  = map Ok (take n (namesOf (first :: es) ++ repeat EmptyString n)).
Proof.
  revert first es. induction n as [|n IH]; intros first es; [reflexivity|].
  rewrite readDirectoryN_S.
  destruct (readDirectory_listing es first) as (r & d' & E & Hcase).
  rewrite E.
  assert (Hrep : forall m, map (@Ok string) (repeat EmptyString m)
                           = repeat (Ok EmptyString) m)
    by (induction m; simpl; congruence).
  destruct Hcase as [(first' & es' & -> & Hn)|[Hd Hn]].
  - specialize (IH first' es').
    destruct (readDirectoryN n (Some (listing first' es'))) as [rs p].
    simpl in IH. simpl fst. rewrite IH, Hn. simpl. f_equal. f_equal.
    symmetry.
    apply (take_padded EmptyString (namesOf (first' :: es')) n (S n)). lia.
  - rewrite (readDirectoryN_exhausted n d' Hd). simpl fst.
    destruct Hn as [Hn | [Hn ->]]; rewrite Hn.
    + cbn [app take map]. rewrite take_repeat_min, Hrep.
      replace (n `min` S n)%nat with n by lia. reflexivity.
    + cbn [app]. rewrite take_repeat_min, Hrep.
      replace (S n `min` S n)%nat with (S n) by lia. reflexivity.
Qed.

(** ** Directory streams on the heap *)

Lemma readDirectoryWN_S n w stream :
  readDirectoryWN (S n) w stream
  = let '(r, w) := readDirectoryW w stream in
    let '(rs, w) := readDirectoryWN n w stream in
    (r :: rs, w).
Proof. reflexivity. Qed.

Lemma dirOf_pointer w stream d :
  dirOf w stream = Some d ->
  pointerIn w stream <> 0 /\ dirData w !! pointerIn w stream = Some d.
Proof.
  unfold dirOf. destruct (Z.eqb_spec (pointerIn w stream) 0); [discriminate|].
  auto.
Qed.

(** One readDirectory through the word of the stream. *)
Lemma readDirectoryW_step w stream d r d' :
  dirOf w stream = Some d ->
  readDirectory (Some d) = (Ok r, Some d') ->
  exists w1,
    readDirectoryW w stream = (Ok (PolyString r), w1)
    /\ dirOf w1 stream = Some d'.
Proof.
  intros Hd Hr. destruct (dirOf_pointer _ _ _ Hd) as [Hp Hl].
  unfold readDirectoryW. rewrite Hd, Hr. eexists. split; [reflexivity|].
  unfold dirOf.
  change (pointerIn (set_dirData _ w) stream) with (pointerIn w stream).
  destruct (Z.eqb_spec (pointerIn w stream) 0); [contradiction|].
  simpl. apply lookup_insert_eq.
Qed.

Lemma readDirectoryWN_exhausted n : forall w stream d,
  dirOf w stream = Some d -> fFindSucceeded d = false ->
  fst (readDirectoryWN n w stream) = repeat (Ok (PolyString EmptyString)) n.
Proof.
  induction n as [|n IH]; intros w stream d Hd Hf; [reflexivity|].
  rewrite readDirectoryWN_S.
  destruct (readDirectoryW_step w stream d _ _ Hd
              (readDirectory_exhausted d Hf)) as (w1 & E & Hd1).
  rewrite E. specialize (IH w1 stream d Hd1 Hf).
  destruct (readDirectoryWN n w1 stream) as [rs w2]. simpl in IH |- *.
  rewrite IH. reflexivity.
Qed.

Lemma readDirectoryWN_listing n : forall w stream first es,
  dirOf w stream = Some (listing first es) ->
  fst (readDirectoryWN n w stream)
  = map (fun s => Ok (PolyString s))
        (take n (namesOf (first :: es) ++ repeat EmptyString n)).
Proof.
  induction n as [|n IH]; intros w stream first es Hd; [reflexivity|].
  rewrite readDirectoryWN_S.
  destruct (readDirectory_listing es first) as (r & d' & E & Hcase).
  destruct (readDirectoryW_step w stream _ _ _ Hd E) as (w1 & EW & Hd1).
  rewrite EW.
  assert (Hrep : forall m,
            map (fun s => @Ok PolyWord (PolyString s)) (repeat EmptyString m)
            = repeat (Ok (PolyString EmptyString)) m)
    by (induction m; simpl; congruence).
  destruct Hcase as [(first' & es' & -> & Hn)|[Hf Hn]].
  - specialize (IH w1 stream first' es' Hd1).
    destruct (readDirectoryWN n w1 stream) as [rs w2].
    simpl in IH. simpl fst. rewrite IH, Hn. simpl. f_equal. f_equal.
    symmetry.
    apply (take_padded EmptyString (namesOf (first' :: es')) n (S n)). lia.
  - pose proof (readDirectoryWN_exhausted n w1 stream d' Hd1 Hf) as Hex.
    destruct (readDirectoryWN n w1 stream) as [rs w2].
    simpl in Hex. simpl fst. rewrite Hex.
    destruct Hn as [Hn | [Hn ->]]; rewrite Hn.
    + cbn [app take map]. rewrite take_repeat_min, Hrep.
      replace (n `min` S n)%nat with n by lia. reflexivity.
    + cbn [app]. rewrite take_repeat_min, Hrep.
      replace (S n `min` S n)%nat with (S n) by lia. reflexivity.
Qed.

(** X15: opening and rewinding a directory.  When FindFirstFile finds the
    directory, openDirectory returns a new word whose stream starts at the
    first entry, and rewindDirectory puts an open stream, wherever it was,
    also one that had reached the end, into that same state; the reads
    that follow either of them return all the names of the directory from
    the first on, then the empty string. *)
Theorem directory_open_rewind_read (n : nat) (w : World) (name : string)
  (first : WIN32_FIND_DATA) (es : list WIN32_FIND_DATA) :
  dirs w !! name = Some (first, map NextEntry es) -> nextAddr w <> 0 ->
  (exists v w1,
     openDirectory w (PolyString name) = (Ok v, w1)
     /\ dirOf w1 v = Some (listing first es)
     /\ fst (readDirectoryWN n w1 v)
        = map (fun s => Ok (PolyString s))
              (take n (namesOf (first :: es) ++ repeat EmptyString n)))
  /\ (forall stream d, dirOf w stream = Some d ->
      exists w1,
        rewindDirectory w stream (PolyString name) = (Ok (Tagged 0), w1)
        /\ dirOf w1 stream = Some (listing first es)
        /\ fst (readDirectoryWN n w1 stream)
           = map (fun s => Ok (PolyString s))
                 (take n (namesOf (first :: es) ++ repeat EmptyString n))).
Proof.
  intros Hdir Hfresh. split.
  - unfold openDirectory, FindFirstFile. rewrite Hdir.
    eexists _, _. split; [reflexivity|].
    assert (Hd : forall v w1,
              v = Volatile (nextAddr w + 1) ->
              volatiles w1 !! (nextAddr w + 1) = Some (nextAddr w) ->
              dirData w1 !! nextAddr w = Some (listing first es) ->
              dirOf w1 v = Some (listing first es)).
    { intros v w1 -> Hv Hdd. unfold dirOf. simpl. rewrite Hv. simpl.
      destruct (Z.eqb_spec (nextAddr w) 0); [contradiction|exact Hdd]. }
    assert (Hopen : dirOf
              (set_nextAddr (nextAddr w + 1 + 1)
                 (set_volatiles
                    (<[nextAddr w + 1 := nextAddr w]>
                       (volatiles
                          (set_nextAddr (nextAddr w + 1)
                             (set_dirData
                                (<[nextAddr w := listing first es]> (dirData w))
                                w))))
                    (set_nextAddr (nextAddr w + 1)
                       (set_dirData
                          (<[nextAddr w := listing first es]> (dirData w)) w))))
              (Volatile (nextAddr w + 1)) = Some (listing first es)).
    { apply Hd; [reflexivity| |]; simpl; apply lookup_insert_eq. }
    split; [exact Hopen|].
    apply readDirectoryWN_listing. exact Hopen.
  - intros stream d Hd. destruct (dirOf_pointer _ _ _ Hd) as [Hp Hl].
    unfold rewindDirectory, FindFirstFile. rewrite Hd, Hdir.
    eexists. split; [reflexivity|].
    assert (Hre : dirOf (set_dirData
                           (<[pointerIn w stream := listing first es]>
                              (dirData w)) w) stream
                  = Some (listing first es)).
    { unfold dirOf.
      change (pointerIn (set_dirData _ w) stream) with (pointerIn w stream).
      destruct (Z.eqb_spec (pointerIn w stream) 0); [contradiction|].
      simpl. apply lookup_insert_eq. }
    split; [exact Hre|]. apply readDirectoryWN_listing. exact Hre.
Qed.

Lemma directory_open_rewind_read_witness :
  exists w1,
    rewindDirectory worldDirOpen (Volatile 201) (PolyString "d")
    = (Ok (Tagged 0), w1)
    /\ fst (readDirectoryWN 3 w1 (Volatile 201))
       = [Ok (PolyString "a"); Ok (PolyString "b"); Ok (PolyString "")].
Proof.
  destruct (directory_open_rewind_read 3 worldDirOpen "d" entryDot
              [entryDotDot; entryA; entryB])
    as [_ H]; [vm_compute; reflexivity|vm_compute; lia|].
  destruct (H (Volatile 201) (mkWinDirData [] entryB false))
    as (w1 & H1 & _ & H2); [vm_compute; reflexivity|].
  exists w1. split; [exact H1|]. rewrite H2. vm_compute. reflexivity.
Defined.

(** X16: closeDirectory never raises.  On an open directory stream it
    deletes the object and clears the word, leaving the stream objects as
    they are; after it, through the same word, a further closeDirectory
    returns 0 and changes nothing, and readDirectory and rewindDirectory
    raise Stream is closed with ERROR_INVALID_HANDLE. *)
Theorem closeDirectory_then_closed (w : World) (stream : PolyWord)
  (d : WinDirData) :
  dirOf w stream = Some d ->
  exists w1,
    closeDirectory w stream = (Ok (Tagged 0), w1)
    /\ dirOf w1 stream = None
    /\ dirData w1 = delete (pointerIn w stream) (dirData w)
    /\ streams w1 = streams w
    /\ closeDirectory w1 stream = (Ok (Tagged 0), w1)
    /\ readDirectoryW w1 stream
       = (Raise (SysErr "Stream is closed" ERROR_INVALID_HANDLE), w1)
    /\ forall dirname,
         rewindDirectory w1 stream dirname
         = (Raise (SysErr "Stream is closed" ERROR_INVALID_HANDLE), w1).
Proof.
  intros Hd. destruct (dirOf_pointer _ _ _ Hd) as [Hp Hl].
  destruct stream as [k|cell|s|l|l]; try (simpl in Hp; contradiction).
  set (w1 := clearCell (Volatile cell)
               (set_dirData (delete (pointerIn w (Volatile cell)) (dirData w)) w)).
  assert (Hp1 : pointerIn w1 (Volatile cell) = 0)
    by (simpl; rewrite lookup_insert_eq; reflexivity).
  assert (Hd1 : dirOf w1 (Volatile cell) = None)
    by (unfold dirOf; rewrite Hp1; reflexivity).
  exists w1. split.
  { unfold closeDirectory.
    destruct (Z.eqb_spec (pointerIn w (Volatile cell)) 0); [contradiction|].
    reflexivity. }
  split; [exact Hd1|]. split; [reflexivity|]. split; [reflexivity|].
  split; [unfold closeDirectory; rewrite Hp1; reflexivity|].
  split; [unfold readDirectoryW; rewrite Hd1; reflexivity|].
  intros dirname. unfold rewindDirectory. rewrite Hd1. reflexivity.
Qed.

Lemma closeDirectory_then_closed_witness :
  exists w1,
    closeDirectory worldDirOpen (Volatile 201) = (Ok (Tagged 0), w1)
    /\ readDirectoryW w1 (Volatile 201)
       = (Raise (SysErr "Stream is closed" ERROR_INVALID_HANDLE), w1).
Proof.
  destruct (closeDirectory_then_closed worldDirOpen (Volatile 201)
              (mkWinDirData [] entryB false))
    as (w1 & H1 & _ & _ & _ & _ & H2 & _); [vm_compute; reflexivity|].
  exists w1. split; [exact H1|exact H2].
Defined.

(** ** readArray and readString *)

Lemma storeAt_spec base offset got :
  (offset + length got <= length base)%nat ->
  length (storeAt base offset got) = length base
  /\ take offset (storeAt base offset got) = take offset base
  /\ take (length got) (drop offset (storeAt base offset got)) = got
  /\ drop (offset + length got) (storeAt base offset got)
     = drop (offset + length got) base.
Proof.
  intros Hin. unfold storeAt.
  assert (Ht : offset = length (take offset base))
    by (rewrite length_take; lia).
  split; [rewrite !length_app, <- Ht, length_drop; lia|].
  split; [apply take_app_length'; exact Ht|].
  split.
  - rewrite drop_app_length' by exact Ht.
    apply take_app_length'. reflexivity.
  - rewrite <- drop_drop. rewrite drop_app_length' by exact Ht.
    apply drop_app_length'. reflexivity.
Qed.

Section ReadArrayFacts.
Variable TestAnyEvents : nat -> option Exn.
Variable WinStream_isAvailable : CrtFile -> bool.

(** X17: readArray reads as readString does.  Through a word other than
    the legacy reference 0 to the standard input, and for a length of at
    most 102400, when readString returns the bytes [got], readArray with
    the same length returns their number, leaves the world as readString
    leaves it, and has stored [got] in the array from the offset on; when
    they fit in the array, its length and its bytes before and after them
    are as they were. *)
Theorem readArray_as_readString (fuel : nat) (w : World)
  (stream : PolyWord) (base : list byte) (offset n : Z)
  (got : list byte) (w' : World) :
  stream <> Tagged 0 -> 0 <= offset -> 0 <= n <= 102400 ->
  readString TestAnyEvents WinStream_isAvailable fuel w stream (Tagged n)
  = Some (Ok (PolyBytes got), w') ->
  readArray TestAnyEvents WinStream_isAvailable fuel w stream
            (PolyTuple [PolyBytes base; Tagged offset; Tagged n])
  = Some (Ok (Tagged (Z.of_nat (length got)),
              storeAt base (Z.to_nat offset) got), w')
  /\ ((Z.to_nat offset + length got <= length base)%nat ->
      length (storeAt base (Z.to_nat offset) got) = length base
      /\ take (Z.to_nat offset) (storeAt base (Z.to_nat offset) got)
         = take (Z.to_nat offset) base
      /\ take (length got)
              (drop (Z.to_nat offset) (storeAt base (Z.to_nat offset) got))
         = got
      /\ drop (Z.to_nat offset + length got)
              (storeAt base (Z.to_nat offset) got)
         = drop (Z.to_nat offset + length got) base).
Proof.
  intros Hs Hoff Hn H. split; [|apply storeAt_spec].
  unfold readString in H. unfold readArray, streamOf.
  assert (Ht : match stream with
               | Tagged 0 => standardInput w
               | _ => pointerIn w stream
               end = pointerIn w stream).
  { destruct stream as [k| | | |]; try reflexivity.
    destruct k; try reflexivity. contradiction. }
  rewrite Ht in H. clear Ht.
  assert (Hu : forall k, 0 <= k ->
                 getPolyUnsigned (Tagged k) = Ok (Z.to_nat k)).
  { intros k Hk. simpl. destruct (Z.ltb_spec k 0); [lia|reflexivity]. }
  rewrite (Hu n) in H by lia.
  destruct (if pointerIn w stream =? 0 then None
            else streams w !! pointerIn w stream) as [o|]; [|discriminate].
  destruct (TestAnyEvents (turn w)); [discriminate|].
  destruct (obj_waitUntilAvailable WinStream_isAvailable fuel o)
    as [[[[]|e] o1]|]; [|discriminate|discriminate].
  change (fieldsOf (PolyTuple [PolyBytes base; Tagged offset; Tagged n]) !! 0%nat)
    with (Some (PolyBytes base)).
  change (default (Tagged 0)
            (fieldsOf (PolyTuple [PolyBytes base; Tagged offset; Tagged n])
               !! 1%nat))
    with (Tagged offset).
  change (default (Tagged 0)
            (fieldsOf (PolyTuple [PolyBytes base; Tagged offset; Tagged n])
               !! 2%nat))
    with (Tagged n).
  rewrite (Hu offset Hoff), (Hu n) by lia.
  destruct (Z.ltb_spec 102400 (Z.of_nat (Z.to_nat n))) as [Hbig|_]; [lia|].
  destruct (obj_readStream o1 (Z.to_nat n)) as [[buff|e] o2];
    [|discriminate].
  inversion H; subst. reflexivity.
Qed.
End ReadArrayFacts.

Lemma readArray_as_readString_witness :
  readString noEvents alwaysAvailable 1 world3 (Volatile 2) (Tagged 1)
  = Some (Ok (PolyBytes ["a"%byte]),
          putStream 101 (CopyInStream (pipeWith [])) world3)
  /\ readArray noEvents alwaysAvailable 1 world3 (Volatile 2)
               (PolyTuple [PolyBytes bytes_abc; Tagged 2; Tagged 1])
     = Some (Ok (Tagged 1, ["a"%byte; "b"%byte; "a"%byte]),
             putStream 101 (CopyInStream (pipeWith [])) world3).
Proof.
  assert (H : readString noEvents alwaysAvailable 1 world3 (Volatile 2)
                         (Tagged 1)
              = Some (Ok (PolyBytes ["a"%byte]),
                      putStream 101 (CopyInStream (pipeWith [])) world3))
    by (vm_compute; reflexivity).
  split; [exact H|].
  apply (proj1 (readArray_as_readString noEvents alwaysAvailable 1 world3
                  (Volatile 2) bytes_abc 2 1 ["a"%byte] _
                  ltac:(discriminate) ltac:(lia) ltac:(lia) H)).
Defined.

(** ** The flags of an open through the C runtime *)

(** X18: the flags WinStream::openEntry hands to _topen.  A file opened
    for reading is never created, truncated or opened for writing; a file
    opened for writing is created if need be and either appended to or
    truncated, never both: appending does not truncate; the binary flag is
    set exactly when binary mode was asked for.  The open raises Cannot
    open exactly when _topen returns a negative descriptor. *)
Theorem WinStream_openEntry_flags (topen : string -> Z -> Z * Z)
  (name : string) (mode : openMode) (isAppend isBinary : bool) :
  let oMode := oModeOf mode isAppend isBinary in
  Z.testbit oMode 15 = isBinary
  /\ (mode = OPENREAD ->
      Z.land oMode (Z.lor O_WRONLY (Z.lor O_CREAT (Z.lor O_TRUNC O_APPEND)))
      = 0)
  /\ (mode = OPENWRITE ->
      Z.land oMode O_WRONLY = O_WRONLY /\ Z.land oMode O_CREAT = O_CREAT
      /\ Z.land oMode O_APPEND = (if isAppend then O_APPEND else 0)
      /\ Z.land oMode O_TRUNC = (if isAppend then 0 else O_TRUNC))
  /\ ((exists errno,
         WinStream_openEntry topen name mode isAppend isBinary
         = Raise (SysErr "Cannot open" errno))
      <-> fst (topen name oMode) < 0)
  /\ (0 <= fst (topen name oMode) ->
      WinStream_openEntry topen name mode isAppend isBinary
      = Ok (fst (topen name oMode))).
Proof.
  intros oMode.
  split; [destruct mode, isAppend, isBinary; reflexivity|].
  split; [intros ->; destruct isAppend, isBinary; reflexivity|].
  split; [intros ->; destruct isAppend, isBinary; repeat split|].
  unfold WinStream_openEntry. fold oMode.
  destruct (topen name oMode) as [stream errno]. simpl fst.
  destruct (Z.ltb_spec stream 0) as [Hneg|Hpos].
  - split; [|intros; lia]. split; [intros _; exact Hneg|].
    intros _. exists errno. reflexivity.
  - split; [|reflexivity]. split; [|lia]. intros [e He]. discriminate.
Qed.

(** ** File names with wildcards *)

Lemma hasWildcard_spec name :
  hasWildcard name = true
  <-> exists c, In c (cChars name) /\ (c = "*"%char \/ c = "?"%char).
Proof.
  induction name as [|c rest IH]; simpl.
  - split; [discriminate|]. intros (c & [] & _).
  - destruct (Ascii.eqb_spec c "000") as [->|Hz].
    { split; [discriminate|]. intros (c & [] & _). }
    destruct (Ascii.eqb_spec c "*") as [->|Hs].
    { simpl. split; [|reflexivity]. intros _. exists "*"%char.
      split; [left; reflexivity|left; reflexivity]. }
    destruct (Ascii.eqb_spec c "?") as [->|Hq].
    { simpl. split; [|reflexivity]. intros _. exists "?"%char.
      split; [left; reflexivity|right; reflexivity]. }
    simpl. rewrite IH. split.
    + intros (c' & Hin & Hc). exists c'. split; [right; exact Hin|exact Hc].
    + intros (c' & [-> | Hin] & Hc); [destruct Hc; contradiction|].
      exists c'. split; assumption.
Qed.

(** X19: modTime and fileSize never hand a pattern to FindFirstFile.  A
    file name whose C string, the characters before the first NUL, has a
    star or a question mark anywhere in it raises Invalid filename, with
    the code of a closed stream, whatever the file system holds; every
    other name, also one with a star or a question mark after a NUL, gets
    what FindFirstFile finds for it, or FindFirstFile failed with its
    error. *)
Theorem modTime_fileSize_wildcard (FindFirstFileName : string -> FindInfo + Z)
  (name : string) :
  ((exists c, In c (cChars name) /\ (c = "*"%char \/ c = "?"%char)) ->
   modTime FindFirstFileName (PolyString name)
   = Raise (SysErr "Invalid filename" ERROR_INVALID_HANDLE)
   /\ fileSize FindFirstFileName (PolyString name)
      = Raise (SysErr "Invalid filename" ERROR_INVALID_HANDLE))
  /\ ((forall c, In c (cChars name) -> c <> "*"%char /\ c <> "?"%char) ->
      modTime FindFirstFileName (PolyString name)
      = match FindFirstFileName name with
        | inl wFind => Ok (ftLastWriteTime wFind)
        | inr e => Raise (SysErr "FindFirstFile failed" e)
        end
      /\ fileSize FindFirstFileName (PolyString name)
         = match FindFirstFileName name with
           | inl wFind => Ok (nFileSizeHigh wFind, nFileSizeLow wFind)
           | inr e => Raise (SysErr "FindFirstFile failed" e)
           end).
Proof.
  split.
  - intros Hw. apply hasWildcard_spec in Hw.
    unfold modTime, fileSize. rewrite Hw. split; reflexivity.
  - intros Hno.
    assert (Hw : hasWildcard name = false).
    { destruct (hasWildcard name) eqn:E; [|reflexivity].
      apply hasWildcard_spec in E. destruct E as (c & Hin & Hc).
      destruct (Hno c Hin) as [H1 H2]. destruct Hc; contradiction. }
    unfold modTime, fileSize. rewrite Hw.
    destruct (FindFirstFileName name); split; reflexivity.
Qed.

(** A star after a NUL is not seen by the loop: the name goes to
    FindFirstFile; a star before it raises. *)
Example modTime_star_after_nul (FindFirstFileName : string -> FindInfo + Z) :
  modTime FindFirstFileName (PolyString name_a_nul_star)
  = match FindFirstFileName name_a_nul_star with
    | inl wFind => Ok (ftLastWriteTime wFind)
    | inr e => Raise (SysErr "FindFirstFile failed" e)
    end
  /\ modTime FindFirstFileName (PolyString "a*")
     = Raise (SysErr "Invalid filename" ERROR_INVALID_HANDLE).
Proof. split; reflexivity. Qed.

(** ** Access rights *)

Lemma land_pow2_eqb x k :
  0 <= k -> (Z.land x (2 ^ k) =? 0) = negb (Z.testbit x k).
Proof.
  intros Hk. destruct (Z.testbit x k) eqn:E; simpl.
  - apply Z.eqb_neq. intros H0.
    assert (Hb : Z.testbit (Z.land x (2 ^ k)) k = true)
      by (rewrite Z.land_spec, E, Z.pow2_bits_true by lia; reflexivity).
    rewrite H0, Z.bits_0 in Hb. discriminate.
  - apply Z.eqb_eq. apply Z.bits_inj'. intros n Hn.
    rewrite Z.land_spec, Z.bits_0.
    destruct (Z.eq_dec n k) as [->|Hne].
    + rewrite E. reflexivity.
    + rewrite Z.pow2_bits_false by lia. apply andb_false_r.
Qed.

(** X20: fileAccess.  For a name without attributes (GetFileAttributes
    fails) it returns 0 and does not raise.  For every other file it
    refuses, with 0, exactly the requests that hold the write right on a
    file that is read-only, and grants all others with 1: a request for
    the read and execute rights alone is granted whatever the attributes
    of the file. *)
Theorem fileAccess_rights (GetFileAttributes : string -> Z) (name : string)
  (rts : Z) :
  (GetFileAttributes name = 4294967295 ->
   fileAccess GetFileAttributes (PolyString name) rts = Ok 0)
  /\ (GetFileAttributes name <> 4294967295 ->
      fileAccess GetFileAttributes (PolyString name) rts
      = Ok (if Z.testbit (GetFileAttributes name) 0 && Z.testbit rts 1
            then 0 else 1)
      /\ (Z.testbit rts 1 = false ->
          fileAccess GetFileAttributes (PolyString name) rts = Ok 1)).
Proof.
  unfold fileAccess. split.
  - intros ->. reflexivity.
  - intros Hne.
    destruct (Z.eqb_spec (GetFileAttributes name) 4294967295);
      [contradiction|].
    change FILE_ATTRIBUTE_READONLY with (2 ^ 0).
    change FILE_ACCESS_WRITE with (2 ^ 1).
    rewrite !land_pow2_eqb by lia. rewrite !negb_involutive.
    split.
    + destruct (_ && _); reflexivity.
    + intros ->. rewrite andb_false_r. reflexivity.
Qed.

(** ** Reads on a disk that answers always return *)

Lemma issued_healthy s : sound s -> issued s -> healthy s.
Proof.
  intros Hs Hi. split; [exact Hs|]. unfold issued in Hi.
  destruct (Internal (overlap s)); [exact Hi|exact I|apply Hi].
Qed.

Lemma noteCompleted_sound n s : sound s -> sound (noteCompleted n s).
Proof.
  intros (Hf & Hb & Hl & Hp).
  destruct (noteCompleted_fields n s)
    as (_ & _ & _ & _ & _ & _ & Ns & Nh & Np).
  unfold sound, fileLen in *. rewrite Nh, Ns, Np.
  repeat split; try assumption; apply Z.mod_pos_bound; lia.
Qed.

Lemma noteCompleted_healthy n s :
  sound s -> Internal (overlap s) = IoSuccess n -> healthy (noteCompleted n s).
Proof.
  intros Hs HI. split; [apply noteCompleted_sound; exact Hs|].
  destruct (noteCompleted_fields n s) as (_ & _ & _ & Ni & _).
  rewrite Ni, HI. exact I.
Qed.

(** Waiting on a read that was issued and not yet seen ends. *)
Lemma issued_wait m : forall s,
  sound s -> issued s ->
  (Z.to_nat (fileLen s - getOverlappedPos s) <= m)%nat ->
  exists fuel s', waitUntilAvailable fuel s = Some (Ok tt, s') /\ healthy s'.
Proof.
  induction m as [m IH] using lt_wf_ind.
  assert (NP : forall s,
    sound s -> issued s ->
    (Z.to_nat (fileLen s - getOverlappedPos s) <= m)%nat ->
    (forall k o, Internal (overlap s) <> IoPending k o) ->
    exists fuel s', waitUntilAvailable fuel s = Some (Ok tt, s')
                    /\ healthy s').
  { intros s Hs Hi Hm Hnp.
    destruct (readyNow s) eqn:Hr.
    { exists 1%nat, s. rewrite waitUntilAvailable_ready by exact Hr.
      split; [reflexivity|apply issued_healthy; assumption]. }
    pose proof Hi as Hi'. unfold issued in Hi.
    destruct (Internal (overlap s)) as [k o|n|err] eqn:HI.
    - exfalso. eapply Hnp. reflexivity.
    - destruct Hi as (Hlt & Hn & Hbuf).
      pose proof Hs as (Hf & Hb & Hl & Hp).
      assert (Hn1 : (1 <= n <= buffSize s)%nat).
      { rewrite Hn, chunk_length. unfold fileLen in Hlt. lia. }
      assert (Hn2 : Z.of_nat n <= fileLen s - getOverlappedPos s).
      { rewrite Hn, chunk_length. unfold fileLen in *. lia. }
      destruct (noteCompleted_fields n s)
        as (Nf & Nc & Ne & Ni & Nt & Nb & Ns & Nh & Np).
      assert (Np' : getOverlappedPos (noteCompleted n s)
                    = getOverlappedPos s + Z.of_nat n).
      { rewrite Np. apply Z.mod_small. lia. }
      destruct (currentPtr (noteCompleted n s)
                <? currentInBuffer (noteCompleted n s))%nat eqn:E1.
      { exists 1%nat, (noteCompleted n s).
        rewrite waitUntilAvailable_S, (isAvailable_success _ _ _ Hr HI), E1.
        split; [reflexivity|apply noteCompleted_healthy; assumption]. }
      destruct (beginReading_sound (noteCompleted n s)
                  (noteCompleted_sound n s Hs))
        as (s2 & EB & Hs2 & Hi2 & Hh2 & Hb2 & Ht2 & Hf2 & Hc2 & Hp2 & _).
      assert (Hm2 : (Z.to_nat (fileLen s2 - getOverlappedPos s2) < m)%nat).
      { unfold fileLen in *. rewrite Hh2, Hp2, Nh, Np'. lia. }
      destruct (IH _ Hm2 s2 Hs2 Hi2 (Nat.le_refl _)) as (fuel & s' & Hw & Hh').
      exists (S fuel), s'. split; [|exact Hh'].
      eapply waitUntilAvailable_turn; [|exact Hw].
      intros f. rewrite (isAvailable_success _ _ _ Hr HI), E1, EB.
      reflexivity.
    - destruct Hi as [-> Hge].
      exists 1%nat, (set_endOfStream true s).
      rewrite waitUntilAvailable_S, (isAvailable_failed _ _ _ Hr HI).
      split; [reflexivity|]. split; [exact Hs|].
      change (Internal (overlap (set_endOfStream true s)))
        with (Internal (overlap s)).
      rewrite HI. reflexivity. }
  intros s Hs Hi Hm.
  destruct (readyNow s) eqn:Hr.
  { exists 1%nat, s. rewrite waitUntilAvailable_ready by exact Hr.
    split; [reflexivity|apply issued_healthy; assumption]. }
  destruct (Internal (overlap s)) as [k o|n|err] eqn:HI.
  - assert (Ho : o = getOverlappedPos s)
      by (unfold issued in Hi; rewrite HI in Hi; exact Hi).
    subst o.
    destruct (resolve_sound s k Hs HI)
      as (Rs & Ri & Rnp & Rh & Rb & Rt & Rf & Rc & Re & Rp).
    assert (Hmr : (Z.to_nat (fileLen (resolve s (getOverlappedPos s))
                             - getOverlappedPos (resolve s (getOverlappedPos s)))
                   <= m)%nat).
    { unfold fileLen in *. rewrite Rh, Rp. exact Hm. }
    destruct (NP _ Rs Ri Hmr Rnp) as (fuel & s' & Hw & Hh').
    exists (S k + fuel)%nat, s'. split; [|exact Hh'].
    rewrite (waitUntilAvailable_pending k s _ fuel Hr HI). exact Hw.
  - apply NP; try assumption. intros k o. rewrite HI. discriminate.
  - apply NP; try assumption. intros k o. rewrite HI. discriminate.
Qed.

(** Waiting ends from every state between two calls. *)
Lemma healthy_wait s :
  healthy s ->
  exists fuel s', waitUntilAvailable fuel s = Some (Ok tt, s') /\ healthy s'.
Proof.
  intros Hh. pose proof Hh as [Hs Hi].
  destruct (readyNow s) eqn:Hr.
  { exists 1%nat, s. rewrite waitUntilAvailable_ready by exact Hr. auto. }
  destruct (Internal (overlap s)) as [k o|n|err] eqn:HI.
  - subst o.
    destruct (resolve_sound s k Hs HI)
      as (Rs & Ri & Rnp & Rh & Rb & Rt & Rf & Rc & Re & Rp).
    destruct (issued_wait _ _ Rs Ri (Nat.le_refl _))
      as (fuel & s' & Hw & Hh').
    exists (S k + fuel)%nat, s'. split; [|exact Hh'].
    rewrite (waitUntilAvailable_pending k s _ fuel Hr HI). exact Hw.
  - destruct (currentPtr (noteCompleted n s)
              <? currentInBuffer (noteCompleted n s))%nat eqn:E1.
    { exists 1%nat, (noteCompleted n s).
      rewrite waitUntilAvailable_S, (isAvailable_success _ _ _ Hr HI), E1.
      split; [reflexivity|apply noteCompleted_healthy; assumption]. }
    destruct (beginReading_sound (noteCompleted n s)
                (noteCompleted_sound n s Hs))
      as (s2 & EB & Hs2 & Hi2 & _).
    destruct (issued_wait _ _ Hs2 Hi2 (Nat.le_refl _))
      as (fuel & s' & Hw & Hh').
    exists (S fuel), s'. split; [|exact Hh'].
    eapply waitUntilAvailable_turn; [|exact Hw].
    intros f. rewrite (isAvailable_success _ _ _ Hr HI), E1, EB.
    reflexivity.
  - subst err. exists 1%nat, (set_endOfStream true s).
    rewrite waitUntilAvailable_S, (isAvailable_failed _ _ _ Hr HI).
    split; [reflexivity|]. split; [exact Hs|].
    change (Internal (overlap (set_endOfStream true s)))
      with (Internal (overlap s)).
    rewrite HI. reflexivity.
Qed.

Lemma readStream_healthy s len :
  healthy s ->
  exists out s', readStream s len = (Ok out, s') /\ healthy s'
                 /\ (length out <= len)%nat.
Proof.
  intros Hh.
  assert (Hgoal : exists out s', readStream s len = (Ok out, s') /\ healthy s').
  { destruct Hh as [Hs Hi]. unfold readStream.
    destruct (endOfStream s); [exists [], s; split; [reflexivity|split; assumption]|].
    destruct (copyLoop _ _ _ _ _ _ _) as [p base].
    set (s1 := skipCRs (set_currentPtr p s)).
    destruct (currentInBuffer s1 =? currentPtr s1)%nat.
    - destruct (beginReading_sound
                  (set_currentPtr 0 (set_currentInBuffer 0 s1)))
        as (s2 & EB & Hs2 & Hi2 & _); [exact Hs|].
      rewrite EB. exists base, s2. split; [reflexivity|].
      apply issued_healthy; assumption.
    - exists base, s1. split; [reflexivity|]. split; [exact Hs|exact Hi]. }
  destruct Hgoal as (out & s' & E & Hh').
  exists out, s'. split; [exact E|]. split; [exact Hh'|].
  eapply readStream_length. exact E.
Qed.

Lemma healthy_readAll lens : forall s,
  healthy s ->
  exists fuel outs s',
    readAll fuel s lens = Some (Ok outs, s') /\ healthy s'
    /\ Forall2 (fun out len => (length out <= len)%nat) outs lens.
Proof.
  induction lens as [|len lens IH]; intros s Hh.
  - exists 0%nat, [], s. split; [reflexivity|]. split; [exact Hh|constructor].
  - destruct (healthy_wait s Hh) as (f1 & s1 & Hw & Hh1).
    destruct (readStream_healthy s1 len Hh1) as (out & s2 & ER & Hh2 & Hlen).
    destruct (IH s2 Hh2) as (f2 & outs & s3 & EA & Hh3 & Hall).
    exists (f1 `max` f2)%nat, (out :: outs), s3.
    split; [|split; [exact Hh3|constructor; assumption]].
    simpl. unfold readWhenAvailable.
    rewrite (waitUntilAvailable_mono _ _ _ (f1 `max` f2)%nat Hw) by lia.
    rewrite ER.
    rewrite (readAll_mono _ _ _ _ (f1 `max` f2)%nat EA) by lia.
    reflexivity.
Qed.

(** X21: on a disk file that is read without an error of the operating
    system, of any size below 2^64 and with any latency, reads never block
    for ever and never raise: openEntry returns a stream, and every
    sequence of reads from it (wait, then readStream) returns, one string
    per call, each of at most the length asked for. *)
Theorem reads_always_return (fs : gmap string KFile) (name : string)
  (f : KFile) (txt : bool) (lens : list nat) :
  fs !! name = Some f -> kFault f = None ->
  Z.of_nat (length (kData f)) < 2 ^ 64 ->
  exists s0 fuel outs s',
    openEntry fs name txt = Ok s0
    /\ readAll fuel s0 lens = Some (Ok outs, s')
    /\ Forall2 (fun out len => (length out <= len)%nat) outs lens.
Proof.
  intros Hfs Hfault Hlen.
  destruct (openEntry_freshRead fs name f txt Hfs Hfault Hlen)
    as (s0 & EO & (Hs & Hi & _) & _).
  destruct (healthy_readAll lens s0 (issued_healthy s0 Hs Hi))
    as (fuel & outs & s' & EA & _ & Hall).
  exists s0, fuel, outs, s'. split; [exact EO|]. split; [exact EA|exact Hall].
Qed.

Lemma reads_always_return_witness :
  exists s0 fuel outs s',
    openEntry someFiles "bigger" false = Ok s0
    /\ readAll fuel s0 [5; 0; 7]%nat = Some (Ok outs, s')
    /\ Forall2 (fun out len => (length out <= len)%nat) outs [5; 0; 7]%nat.
Proof.
  apply (reads_always_return someFiles "bigger" (diskFile bytes_8193 0)
           false [5; 0; 7]%nat).
  - vm_compute. reflexivity.
  - reflexivity.
  - vm_compute. reflexivity.
Defined.

(** ** Streams that cannot seek, and pipes that are closed *)

Lemma putStream_same w p o : streams w !! p = Some o -> putStream p o w = w.
Proof.
  intros H. unfold putStream. rewrite (insert_id _ _ _ H).
  destruct w; reflexivity.
Qed.

Section ErrorFacts.
Variable TestAnyEvents : nat -> option Exn.
Variable poll : nat -> WinStreamObj -> Z -> Z.
Variable systemTime : nat -> Z.
Variable WinStream_isAvailable : CrtFile -> bool.
Variable external : IoOp -> World -> PolyWord -> PolyWord -> Res PolyWord * World.

(** X22: getPos (18) and setPos (19) on a buffered input stream that is
    not on a disk file (a pipe, a console) raise Stream is not a file with
    ERROR_SEEK_ON_DEVICE and change nothing: setPos does not wait, does not
    discard the buffer and starts no read. *)
Theorem IO_dispatch_c_seek_on_device (fuel : nat) (w : World)
  (args strm : PolyWord) (s : WinInStream) :
  streamOf w strm = Some (InStream s) ->
  kType (hStream s) <> FILE_TYPE_DISK ->
  IO_dispatch_c TestAnyEvents poll systemTime WinStream_isAvailable external
                fuel w args strm 18
  = Some (Raise (SysErr "Stream is not a file" ERROR_SEEK_ON_DEVICE), w)
  /\ (forall n, getPolyUnsigned args = Ok n ->
        IO_dispatch_c TestAnyEvents poll systemTime WinStream_isAvailable
                      external fuel w args strm 19
        = Some (Raise (SysErr "Stream is not a file" ERROR_SEEK_ON_DEVICE),
                w)).
Proof.
  intros Hs Hk.
  assert (Hd : negb (FileType_eqb (kType (hStream s)) FILE_TYPE_DISK) = true)
    by (destruct (kType (hStream s)); try reflexivity; contradiction).
  assert (Hl : streams w !! pointerIn w strm = Some (InStream s)).
  { unfold streamOf in Hs.
    destruct (pointerIn w strm =? 0); [discriminate|exact Hs]. }
  unfold IO_dispatch_c. split.
  - change (caseOf 18 dispatchTable) with (Some OpGetPos). cbv beta iota.
    rewrite Hs. unfold obj_getPos, getPos. rewrite Hd. reflexivity.
  - intros n Ha.
    change (caseOf 19 dispatchTable) with (Some OpSetPos). cbv beta iota.
    rewrite Hs, Ha. unfold obj_setPos, setPos. rewrite Hd.
    rewrite (putStream_same _ _ _ Hl). reflexivity.
Qed.

(** X23: a read from a pipe whose PeekNamedPipe fails, as it does when the
    other end is closed, never waits: the pipe counts as available, and
    readString returns at once what read gives, the exception Error while
    reading with the error of read when it fails, leaving the world as it
    is, and otherwise the bytes that were waiting, at most the number asked
    for and 102400. *)
Theorem readString_pipe_peek_fails (fuel : nat) (w : World)
  (stream args : PolyWord) (n : nat) (f : CrtFile) :
  getPolyUnsigned args = Ok n -> targetOf w stream <> 0 ->
  streams w !! targetOf w stream = Some (CopyInStream f) ->
  TestAnyEvents (turn w) = None -> fdPeekFails f = true ->
  (forall e, fdReadError f = Some e ->
     readString TestAnyEvents WinStream_isAvailable (S fuel) w stream args
     = Some (Raise (SysErr "Error while reading" e), w))
  /\ (fdReadError f = None ->
      exists got rest,
        readString TestAnyEvents WinStream_isAvailable (S fuel) w stream args
        = Some (Ok (PolyBytes got),
                putStream (targetOf w stream) (CopyInStream rest) w)
        /\ got ++ fdData rest = fdData f
        /\ Z.of_nat (length got)
           = Z.min (Z.min (Z.of_nat n) 102400)
                   (Z.of_nat (length (fdData f)))).
Proof.
  intros Ha Hp Ho Hev Hpk.
  assert (Hw : WinCopyInStream_waitUntilAvailable (S fuel) f = Some f).
  { simpl. unfold WinCopyInStream_isAvailable. rewrite Hpk. reflexivity. }
  assert (Hstart : forall k : option (Res PolyWord * World),
    (match obj_readStream (CopyInStream f)
             (if 102400 <? Z.of_nat n then Z.to_nat 102400 else n) with
     | (Raise e, o) => Some (Raise e, putStream (targetOf w stream) o w)
     | (Ok buff, o) =>
         Some (Ok (PolyBytes buff), putStream (targetOf w stream) o w)
     end) = k ->
    readString TestAnyEvents WinStream_isAvailable (S fuel) w stream args = k).
  { intros k <-. unfold readString. rewrite Ha.
    change (match stream with
            | Tagged 0 => standardInput w
            | _ => pointerIn w stream
            end) with (targetOf w stream).
    destruct (Z.eqb_spec (targetOf w stream) 0); [contradiction|].
    rewrite Ho, Hev. unfold obj_waitUntilAvailable. rewrite Hw.
    reflexivity. }
  remember (if 102400 <? Z.of_nat n then Z.to_nat 102400 else n) as len
    eqn:Elen.
  split.
  - intros e He. apply Hstart.
    unfold obj_readStream, WinStream_readStream, crt_read. rewrite He.
    simpl. rewrite (putStream_same _ _ _ Ho). reflexivity.
  - intros He.
    exists (take len (fdData f)),
           (mkCrtFile (drop len (fdData f)) (fdArrivals f) (fdReadError f)
                      (fdCloseError f) (fdPeekFails f)).
    split; [|split].
    + apply Hstart.
      unfold obj_readStream, WinStream_readStream, crt_read. rewrite He.
      destruct (Z.ltb_spec (Z.of_nat (length (take len (fdData f)))) 0);
        [lia|]. reflexivity.
    + apply take_drop.
    + rewrite length_take. subst len.
      destruct (Z.ltb_spec 102400 (Z.of_nat n)); lia.
Qed.
End ErrorFacts.

Lemma IO_dispatch_c_seek_on_device_witness :
  IO_dispatch_c noEvents pollPipe clockZero alwaysAvailable noExternal
                1 world3_onPipe (Tagged 0) (Volatile 1) 19
  = Some (Raise (SysErr "Stream is not a file" ERROR_SEEK_ON_DEVICE),
          world3_onPipe).
Proof.
  apply (proj2 (IO_dispatch_c_seek_on_device noEvents pollPipe clockZero
                  alwaysAvailable noExternal 1 world3_onPipe (Tagged 0)
                  (Volatile 1) streamOnPipe
                  ltac:(vm_compute; reflexivity) ltac:(discriminate))
               0%nat).
  reflexivity.
Defined.

Lemma readString_pipe_peek_fails_witness :
  readString noEvents alwaysAvailable 1 world3_broken (Volatile 1) (Tagged 5)
  = Some (Raise (SysErr "Error while reading" 109), world3_broken).
Proof.
  apply (proj1 (readString_pipe_peek_fails noEvents alwaysAvailable 0
                  world3_broken (Volatile 1) (Tagged 5) 5 pipeBroken
                  ltac:(reflexivity) ltac:(vm_compute; lia)
                  ltac:(vm_compute; reflexivity) ltac:(reflexivity)
                  ltac:(reflexivity)) 109).
  reflexivity.
Defined.

(** ** From the entry point: open, then read *)

Section EndToEnd.
Variable TestAnyEvents : nat -> option Exn.
Variable poll : nat -> WinStreamObj -> Z -> Z.
Variable systemTime : nat -> Z.
Variable WinStream_isAvailable : CrtFile -> bool.
Variable external : IoOp -> World -> PolyWord -> PolyWord -> Res PolyWord * World.

(** What openWinFile makes of a stream that openEntry returns. *)
Lemma openWinFile_opened w name isBinary s0 :
  openEntry (files w) name (negb isBinary) = Ok s0 -> nextAddr w <> 0 ->
  exists w1,
    openWinFile w (PolyString name) isBinary
    = (Ok (Volatile (nextAddr w + 1)), w1)
    /\ targetOf w1 (Volatile (nextAddr w + 1)) = nextAddr w
    /\ streams w1 !! nextAddr w = Some (InStream s0)
    /\ turn w1 = turn w.
Proof.
  intros Ho Hn. unfold openWinFile. rewrite Ho. eexists.
  split; [reflexivity|]. split; [|split; [|reflexivity]].
  - simpl. rewrite lookup_insert_eq. reflexivity.
  - simpl. apply lookup_insert_eq.
Qed.

(** X24: open, then read, through the entry point.  For a file that exists
    and is read without an error of the operating system, with no event
    pending: opening it for text (3) or binary (4) input returns a new
    word, and the first read through that word of [k] bytes, as text (10)
    or binary (26), returns the first [k] bytes, at most 102400, of the
    first 4096 bytes of the file, without their carriage returns when the
    file was opened for text input. *)
Theorem IO_dispatch_c_open_then_read (w : World) (name : string)
  (f : KFile) (strm : PolyWord) (k cOpen cRead : Z) :
  files w !! name = Some f -> kFault f = None ->
  Z.of_nat (length (kData f)) < 2 ^ 64 ->
  nextAddr w <> 0 -> TestAnyEvents (turn w) = None -> 0 <= k ->
  cOpen = 3 \/ cOpen = 4 -> cRead = 10 \/ cRead = 26 ->
  exists fuel v w1 w2,
    IO_dispatch_c TestAnyEvents poll systemTime WinStream_isAvailable external
                  fuel w (PolyString name) strm cOpen = Some (Ok v, w1)
    /\ IO_dispatch_c TestAnyEvents poll systemTime WinStream_isAvailable
                     external fuel w1 (Tagged k) v cRead
       = Some (Ok (PolyBytes
                     (take (Z.to_nat (Z.min k 102400))
                        (textFilter (cOpen =? 3) (take 4096 (kData f))))),
               w2).
Proof.
  intros Hfs Hfault Hlen Hn Hev Hk HcO HcR.
  set (txt := cOpen =? 3).
  destruct (openEntry_freshRead (files w) name f txt Hfs Hfault Hlen)
    as (s0 & EO & Hfr & Hh & Hb & Ht & Hp).
  destruct (freshRead_first_read s0 (Z.to_nat (Z.min k 102400)) Hfr Hp)
    as (fuel & s1 & s2 & Hw & ER).
  rewrite Hh, Hb, Ht in ER.
  assert (Hopen : exists w1,
    IO_dispatch_c TestAnyEvents poll systemTime WinStream_isAvailable external
                  fuel w (PolyString name) strm cOpen
    = Some (Ok (Volatile (nextAddr w + 1)), w1)
    /\ targetOf w1 (Volatile (nextAddr w + 1)) = nextAddr w
    /\ streams w1 !! nextAddr w = Some (InStream s0)
    /\ turn w1 = turn w).
  { unfold IO_dispatch_c. destruct HcO as [-> | ->].
    - change (caseOf 3 dispatchTable) with (Some OpOpenTextIn).
      cbv beta iota.
      destruct (openWinFile_opened w name false s0 EO Hn)
        as (w1 & E1 & H1). exists w1. rewrite E1. auto.
    - change (caseOf 4 dispatchTable) with (Some OpOpenBinIn).
      cbv beta iota.
      destruct (openWinFile_opened w name true s0 EO Hn)
        as (w1 & E1 & H1). exists w1. rewrite E1. auto. }
  destruct Hopen as (w1 & E1 & Htgt & Hs1 & Hturn).
  exists fuel, (Volatile (nextAddr w + 1)), w1,
         (putStream (nextAddr w) (InStream s2) w1).
  split; [exact E1|].
  assert (Hread :
    readString TestAnyEvents WinStream_isAvailable fuel w1
               (Volatile (nextAddr w + 1)) (Tagged k)
    = Some (Ok (PolyBytes
                  (take (Z.to_nat (Z.min k 102400))
                     (textFilter txt (take 4096 (kData f))))),
            putStream (nextAddr w) (InStream s2) w1)).
  { unfold readString. simpl getPolyUnsigned.
    destruct (Z.ltb_spec k 0); [lia|].
    change (pointerIn w1 (Volatile (nextAddr w + 1)))
      with (targetOf w1 (Volatile (nextAddr w + 1))).
    rewrite Htgt. destruct (Z.eqb_spec (nextAddr w) 0); [contradiction|].
    rewrite Hs1, Hturn, Hev. unfold obj_waitUntilAvailable. rewrite Hw.
    assert (Hl : (if 102400 <? Z.of_nat (Z.to_nat k)
                  then Z.to_nat 102400 else Z.to_nat k)
                 = Z.to_nat (Z.min k 102400)).
    { destruct (Z.ltb_spec 102400 (Z.of_nat (Z.to_nat k))).
      - rewrite Z.min_r by lia. reflexivity.
      - rewrite Z.min_l by lia. reflexivity. }
    rewrite Hl. unfold obj_readStream. rewrite ER. reflexivity. }
  unfold IO_dispatch_c. destruct HcR as [-> | ->].
  - change (caseOf 10 dispatchTable) with (Some OpReadTextString).
    cbv beta iota. exact Hread.
  - change (caseOf 26 dispatchTable) with (Some OpReadBinString).
    cbv beta iota. exact Hread.
Qed.

(** X25: the words of the standard input.  Code 0 returns a new word that
    points to the standard input and changes nothing else but the
    allocator; a read through that word is the read through the legacy
    reference 0, and closing through it returns 0 and changes nothing. *)
Theorem IO_dispatch_c_standard_input (fuel : nat) (w : World)
  (args strm : PolyWord) :
  exists v w1,
    IO_dispatch_c TestAnyEvents poll systemTime WinStream_isAvailable external
                  fuel w args strm 0 = Some (Ok v, w1)
    /\ pointerIn w1 v = standardInput w
    /\ streams w1 = streams w
    /\ volatiles w1 = <[nextAddr w := standardInput w]> (volatiles w)
    /\ (forall c args', c = 10 \/ c = 26 ->
          IO_dispatch_c TestAnyEvents poll systemTime WinStream_isAvailable
                        external fuel w1 args' v c
          = IO_dispatch_c TestAnyEvents poll systemTime WinStream_isAvailable
                          external fuel w1 args' (Tagged 0) c)
    /\ forall args',
         IO_dispatch_c TestAnyEvents poll systemTime WinStream_isAvailable
                       external fuel w1 args' v 7 = Some (Ok (Tagged 0), w1).
Proof.
  set (w1 := set_nextAddr (nextAddr w + 1)
               (set_volatiles (<[nextAddr w := standardInput w]> (volatiles w))
                  w)).
  assert (Hp : pointerIn w1 (Volatile (nextAddr w)) = standardInput w1)
    by (simpl; rewrite lookup_insert_eq; reflexivity).
  exists (Volatile (nextAddr w)), w1.
  split; [reflexivity|]. split; [exact Hp|]. split; [reflexivity|].
  split; [reflexivity|]. split.
  - assert (Hr : forall args',
      readString TestAnyEvents WinStream_isAvailable fuel w1
                 (Volatile (nextAddr w)) args'
      = readString TestAnyEvents WinStream_isAvailable fuel w1 (Tagged 0)
                   args').
    { intros args'. unfold readString. rewrite Hp. reflexivity. }
    intros c args' [-> | ->]; unfold IO_dispatch_c.
    + change (caseOf 10 dispatchTable) with (Some OpReadTextString).
      cbv beta iota. apply Hr.
    + change (caseOf 26 dispatchTable) with (Some OpReadBinString).
      cbv beta iota. apply Hr.
  - intros args'. unfold IO_dispatch_c.
    change (caseOf 7 dispatchTable) with (Some OpClose). cbv beta iota.
    rewrite (closeFile_standard w1 (Volatile (nextAddr w)));
      [reflexivity|left; exact Hp].
Qed.
End EndToEnd.

Lemma IO_dispatch_c_open_then_read_witness :
  exists fuel v w1 w2,
    IO_dispatch_c noEvents pollPipe clockZero alwaysAvailable noExternal
                  fuel worldFiles (PolyString "crlf") (Tagged 0) 3
    = Some (Ok v, w1)
    /\ IO_dispatch_c noEvents pollPipe clockZero alwaysAvailable noExternal
                     fuel w1 (Tagged 3) v 10
       = Some (Ok (PolyBytes
                     (take (Z.to_nat (Z.min 3 102400))
                        (textFilter (3 =? 3) (take 4096 bytes_crlf)))),
               w2).
Proof.
  apply (IO_dispatch_c_open_then_read noEvents pollPipe clockZero
           alwaysAvailable noExternal worldFiles "crlf"
           (diskFile bytes_crlf 1) (Tagged 0) 3 3 10).
  - vm_compute. reflexivity.
  - reflexivity.
  - vm_compute. reflexivity.
  - vm_compute. lia.
  - reflexivity.
  - lia.
  - left. reflexivity.
  - left. reflexivity.
Defined.
